(** * v-OCR: a shallow embedding of the client-side logic

    The development follows the TypeScript sources:
    - [lib/encryption.ts]      key derivation, [encryptApiKey], [decryptApiKey],
                               [maskApiKey], [validateApiKeyFormat];
    - [lib/api-key-service.ts] [saveApiKey], [getApiKey] over the
                               [user_api_keys] table;
    - [lib/deepseek-client.ts] [OCR_PROMPTS], [extractText],
                               [handleErrorResponse], [handleException],
                               [validateFile];
    - [components/batch-processor.tsx] [processFiles], [handleDownloadZip],
                               [retryFailed], and the counts and buttons
                               derived from [results];
    - [lib/api-key-service.ts] also [deleteApiKey], [hasApiKey];
    - [lib/deepseek-client.ts] also [fileToBase64], [retryWithBackoff];
    - [app/settings/page.tsx]  [loadApiKey], [handleSaveApiKey],
                               [handleDeleteApiKey];
    - [app/page.tsx]           [loadApiKey], [handleExtractText],
                               [processSingleFile];
    - [components/ocr-uploader.tsx] [handleFiles], [removeFile].

    JavaScript strings are sequences of UTF-16 code units and are modelled as
    [list N]; byte arrays ([Uint8Array]) are [list byte].  Code that can throw
    lives in the exception monad [Exc]; code that talks to the outside world
    (file reads, HTTP, the database, timers, React state setters) receives the
    outcome of each interaction from an explicit environment and records what
    it does in an event trace. *)

From Stdlib Require Import ZArith NArith List String Ascii Strings.Byte Bool Lia.
From Stdlib Require Import DecimalString QArith Sorting.Sorted ZifyNat.
From stdpp Require Import base option list gmap.

Local Open Scope N_scope.

(** ** The JavaScript platform *)

Module JS.

(** A string is its sequence of UTF-16 code units. *)
Abbreviation jsstring := (list N).

(** An ASCII literal of the source. *)
Definition lit (s : string) : jsstring :=
  map N_of_ascii (list_ascii_of_string s).
Arguments lit s%_string.

(** [s.length] *)
Definition jslength (s : jsstring) : nat := length s.

(** [s.substring(start, end)]: both indices are clamped to the length and
    swapped when out of order. *)
Definition substring (s : jsstring) (i j : nat) : jsstring :=
  let a := Nat.min i (length s) in
  let b := Nat.min j (length s) in
  take (Nat.max a b - Nat.min a b) (drop (Nat.min a b) s).

(** [s.substring(start)] *)
Definition substring_from (s : jsstring) (i : nat) : jsstring :=
  substring s i (length s).

(** [s.repeat(n)] *)
Fixpoint repeat_str (s : jsstring) (n : nat) : jsstring :=
  match n with
  | O => []
  | S n' => s ++ repeat_str s n'
  end.

(** Is [t] a prefix of [s]? *)
Fixpoint starts_with (t s : jsstring) : bool :=
  match t, s with
  | [], _ => true
  | _ :: _, [] => false
  | a :: t', b :: s' => (a =? b) && starts_with t' s'
  end.

(** [s.includes(t)] *)
Fixpoint includes (s t : jsstring) : bool :=
  starts_with t s ||
  match s with
  | [] => false
  | _ :: s' => includes s' t
  end.

(** Decimal rendering of an integer inside a template literal. *)
Definition show_Z (z : Z) : jsstring :=
  lit (NilZero.string_of_int (Z.to_int z)).

Definition show_N (n : N) : jsstring := show_Z (Z.of_N n).

(** A thrown value: an [Error] instance with its [name] and [message], or
    any other value ([error instanceof Error] is false). *)
Inductive thrown :=
| ErrorObject (name message : jsstring)
| NonError.

(** The exception monad. *)
Inductive Exc (A : Type) :=
| Throw (e : thrown)
| Return (a : A).
Arguments Throw {A} e.
Arguments Return {A} a.

Definition bind {A B} (m : Exc A) (k : A -> Exc B) : Exc B :=
  match m with
  | Throw e => Throw e
  | Return a => k a
  end.

(** [try { m } catch (e) { h e }] *)
Definition try_catch {A} (m : Exc A) (h : thrown -> Exc A) : Exc A :=
  match m with
  | Throw e => h e
  | Return a => Return a
  end.

(** A number, as far as the sources need one: [NaN], an integer that a
    double holds, or an infinity.  The sources only render [-0], as [0]; it
    is [Num 0] here. *)
Inductive number :=
| NaN
| Num (z : Z)
| Infinity (negative : bool).

(** The Number value of an integer: itself below 2^53, else the nearest
    double, the one with the even significand on a tie, and an infinity
    beyond the largest double. *)
Definition round_double (z : Z) : number :=
  let a := Z.abs z in
  if (a <? 2 ^ 53)%Z then Num z
  else
    let shift := (Z.log2 a - 52)%Z in
    let q := (a / 2 ^ shift)%Z in
    let r := (a mod 2 ^ shift)%Z in
    let half := (2 ^ (shift - 1))%Z in
    let q' := if (half <? r)%Z || ((r =? half)%Z && Z.odd q)
              then (q + 1)%Z else q in
    let m := (q' * 2 ^ shift)%Z in
    if (2 ^ 1024 <=? m)%Z then Infinity (z <? 0)%Z
    else Num (Z.sgn z * m)%Z.

Definition rounds_to (a y : Z) : bool :=
  match round_double y with
  | Num m => (m =? a)%Z
  | _ => false
  end.

(** The [k] leading digits that denote the double [a] of [d] digits, if
    [k] digits can: of the two neighbours the one nearer to [a], the even
    one when they are as near. *)
Definition digits_candidate (a : Z) (d k : nat) : option Z :=
  let p := (10 ^ Z.of_nat (d - k))%Z in
  let lo := (a / p)%Z in
  let hi := (lo + 1)%Z in
  let ok_lo := rounds_to a (lo * p) in
  let ok_hi := (hi <? 10 ^ Z.of_nat k)%Z && rounds_to a (hi * p) in
  match ok_lo, ok_hi with
  | true, true =>
      let dl := (a - lo * p)%Z in
      let dh := (hi * p - a)%Z in
      if (dl <? dh)%Z then Some lo
      else if (dh <? dl)%Z then Some hi
      else if Z.even lo then Some lo else Some hi
  | true, false => Some lo
  | false, true => Some hi
  | false, false => None
  end.

Fixpoint shortest_digits (a : Z) (d : nat) (ks : list nat) : Z * nat :=
  match ks with
  | [] => (a, d)
  | k :: ks' =>
      match digits_candidate a d k with
      | Some s => (s, k)
      | None => shortest_digits a d ks'
      end
  end.

(** [Number::toString] on a double [a >= 2^53]: the fewest digits that
    denote it, as the engines choose them, followed by zeros up to 21
    digits and in exponent notation beyond. *)
Definition show_double (a : Z) : jsstring :=
  let d := length (show_Z a) in
  let '(s, k, n) :=
    if rounds_to a (10 ^ Z.of_nat d) then (1%Z, 1%nat, S d)
    else
      let '(s, k) := shortest_digits a d (seq 1 (Nat.min d 17)) in
      (s, k, d) in
  if (n <=? 21)%nat then show_Z s ++ replicate (n - k) 0x30
  else
    match show_Z s with
    | c :: rest =>
        c :: match rest with
             | [] => []
             | _ => 0x2E :: rest
             end ++
        lit "e+" ++ show_Z (Z.of_nat (n - 1))
    | [] => []
    end.

(** A number spliced into a template literal. *)
Definition show_number (x : number) : jsstring :=
  match x with
  | NaN => lit "NaN"
  | Num z =>
      if (Z.abs z <? 2 ^ 53)%Z then show_Z z
      else (if (z <? 0)%Z then lit "-" else []) ++ show_double (Z.abs z)
  | Infinity negative =>
      (if negative then lit "-" else []) ++ lit "Infinity"
  end.

(** [StrWhiteSpaceChar]: white space and line terminators. *)
Definition is_whitespace (c : N) : bool :=
  ((0x09 <=? c) && (c <=? 0x0D)) || (c =? 0x20) || (c =? 0xA0) ||
  (c =? 0x1680) || ((0x2000 <=? c) && (c <=? 0x200A)) ||
  (c =? 0x2028) || (c =? 0x2029) || (c =? 0x202F) || (c =? 0x205F) ||
  (c =? 0x3000) || (c =? 0xFEFF).

Fixpoint trim_start (s : jsstring) : jsstring :=
  match s with
  | c :: s' => if is_whitespace c then trim_start s' else s
  | [] => []
  end.

Definition is_digit (c : N) : bool := (0x30 <=? c) && (c <=? 0x39).

(** The value of the longest prefix of decimal digits, if it is not empty. *)
Fixpoint digits_prefix (acc : option Z) (s : jsstring) : option Z :=
  match s with
  | c :: s' =>
      if is_digit c
      then digits_prefix (Some (10 * default 0%Z acc + Z.of_N (c - 0x30))%Z) s'
      else acc
  | [] => acc
  end.

(** [parseInt(s, 10)]: leading white space, an optional sign, then digits;
    [NaN] when no digit follows.  The result is the Number value of the
    integer that the digits denote, rounded from all of them as the engines
    do (the standard lets an implementation replace the digits after the
    20th by zeros). *)
Definition parseInt10 (s : jsstring) : number :=
  let s1 := trim_start s in
  let (negative, s2) :=
    match s1 with
    | c :: r => if c =? 0x2D then (true, r)
                else if c =? 0x2B then (false, r) else (false, s1)
    | [] => (false, s1)
    end in
  match digits_prefix None s2 with
  | None => NaN
  | Some z => round_double (if negative then - z else z)%Z
  end.

(** [a || b] on strings: the empty string is falsy, like [undefined]. *)
Definition or_str (a : option jsstring) (b : jsstring) : jsstring :=
  match a with
  | Some (c :: r) => c :: r
  | _ => b
  end.

(** [a || b] on numbers: [0] is falsy, like [undefined]. *)
Definition or_num (a : option Z) (b : Z) : Z :=
  match a with
  | Some z => if (z =? 0)%Z then b else z
  | None => b
  end.

(** A possibly [undefined] string spliced into a template literal. *)
Definition template (v : option jsstring) : jsstring :=
  default (lit "undefined") v.

(** [new Error(msg)] *)
Definition new_Error (msg : jsstring) : thrown :=
  ErrorObject (lit "Error") msg.

(** *** Bytes and text *)

(** The element stored in a [Uint8Array] for the number [n]. *)
Definition byte_of_N (n : N) : byte :=
  default x00 (Byte.of_N (n mod 256)).

Definition in_range (lo hi x : N) : bool := (lo <=? x) && (x <=? hi).

Definition is_high_surrogate (c : N) : bool := in_range 0xD800 0xDBFF c.
Definition is_low_surrogate (c : N) : bool := in_range 0xDC00 0xDFFF c.

(** UTF-8 bytes of one scalar value. *)
Definition utf8_of_code_point (cp : N) : list byte :=
  if cp <? 0x80 then [byte_of_N cp]
  else if cp <? 0x800 then
    [byte_of_N (0xC0 + cp / 64); byte_of_N (0x80 + cp mod 64)]
  else if cp <? 0x10000 then
    [byte_of_N (0xE0 + cp / 4096); byte_of_N (0x80 + (cp / 64) mod 64);
     byte_of_N (0x80 + cp mod 64)]
  else
    [byte_of_N (0xF0 + cp / 262144); byte_of_N (0x80 + (cp / 4096) mod 64);
     byte_of_N (0x80 + (cp / 64) mod 64); byte_of_N (0x80 + cp mod 64)].

(** [new TextEncoder().encode(s)]: a surrogate pair is one scalar value, an
    unpaired surrogate is replaced by U+FFFD. *)
Fixpoint TextEncoder_encode (s : jsstring) : list byte :=
  match s with
  | [] => []
  | c :: r =>
      if is_high_surrogate c then
        match r with
        | d :: r' =>
            if is_low_surrogate d then
              utf8_of_code_point
                (0x10000 + (c - 0xD800) * 1024 + (d - 0xDC00)) ++
              TextEncoder_encode r'
            else utf8_of_code_point 0xFFFD ++ TextEncoder_encode r
        | [] => utf8_of_code_point 0xFFFD
        end
      else if is_low_surrogate c then
        utf8_of_code_point 0xFFFD ++ TextEncoder_encode r
      else utf8_of_code_point c ++ TextEncoder_encode r
  end.

(** Well-formed UTF-16: every unit is a 16-bit value and every surrogate is
    half of a pair. *)
Inductive well_formed : jsstring -> Prop :=
| well_formed_nil : well_formed []
| well_formed_unit c s :
    c < 0x10000 -> is_high_surrogate c = false -> is_low_surrogate c = false ->
    well_formed s -> well_formed (c :: s)
| well_formed_pair h l s :
    is_high_surrogate h = true -> is_low_surrogate l = true ->
    well_formed s -> well_formed (h :: l :: s).

(** Does the text start with U+FEFF, the byte order mark? *)
Definition starts_with_bom (s : jsstring) : bool :=
  match s with
  | c :: _ => c =? 0xFEFF
  | [] => false
  end.

(** UTF-16 code units of one scalar value. *)
Definition units_of_code_point (cp : N) : jsstring :=
  if cp <? 0x10000 then [cp]
  else [0xD800 + (cp - 0x10000) / 1024; 0xDC00 + (cp - 0x10000) mod 1024].

(** The UTF-8 decoder of the Encoding standard, without its BOM handling:
    an ill-formed sequence yields one U+FFFD and the byte that broke it is
    read again as a lead byte. *)
Fixpoint utf8_decode (bs : list byte) : jsstring :=
  match bs with
  | [] => []
  | b0 :: r0 =>
      let x0 := Byte.to_N b0 in
      if x0 <=? 0x7F then x0 :: utf8_decode r0
      else if in_range 0xC2 0xDF x0 then
        match r0 with
        | b1 :: r1 =>
            let x1 := Byte.to_N b1 in
            if in_range 0x80 0xBF x1 then
              ((x0 - 0xC0) * 64 + (x1 - 0x80)) :: utf8_decode r1
            else 0xFFFD :: utf8_decode r0
        | [] => [0xFFFD]
        end
      else if in_range 0xE0 0xEF x0 then
        let lower := if x0 =? 0xE0 then 0xA0 else 0x80 in
        let upper := if x0 =? 0xED then 0x9F else 0xBF in
        match r0 with
        | b1 :: r1 =>
            let x1 := Byte.to_N b1 in
            if in_range lower upper x1 then
              match r1 with
              | b2 :: r2 =>
                  let x2 := Byte.to_N b2 in
                  if in_range 0x80 0xBF x2 then
                    ((x0 - 0xE0) * 4096 + (x1 - 0x80) * 64 + (x2 - 0x80))
                      :: utf8_decode r2
                  else 0xFFFD :: utf8_decode r1
              | [] => [0xFFFD]
              end
            else 0xFFFD :: utf8_decode r0
        | [] => [0xFFFD]
        end
      else if in_range 0xF0 0xF4 x0 then
        let lower := if x0 =? 0xF0 then 0x90 else 0x80 in
        let upper := if x0 =? 0xF4 then 0x8F else 0xBF in
        match r0 with
        | b1 :: r1 =>
            let x1 := Byte.to_N b1 in
            if in_range lower upper x1 then
              match r1 with
              | b2 :: r2 =>
                  let x2 := Byte.to_N b2 in
                  if in_range 0x80 0xBF x2 then
                    match r2 with
                    | b3 :: r3 =>
                        let x3 := Byte.to_N b3 in
                        if in_range 0x80 0xBF x3 then
                          units_of_code_point
                            ((x0 - 0xF0) * 262144 + (x1 - 0x80) * 4096 +
                             (x2 - 0x80) * 64 + (x3 - 0x80)) ++
                          utf8_decode r3
                        else 0xFFFD :: utf8_decode r2
                    | [] => [0xFFFD]
                    end
                  else 0xFFFD :: utf8_decode r1
              | [] => [0xFFFD]
              end
            else 0xFFFD :: utf8_decode r0
        | [] => [0xFFFD]
        end
      else 0xFFFD :: utf8_decode r0
  end.

(** [new TextDecoder().decode(bytes)]: the default decoder is UTF-8, not
    fatal, and drops a leading byte order mark ([ignoreBOM] is false). *)
Definition TextDecoder_decode (bs : list byte) : jsstring :=
  match bs with
  | b0 :: b1 :: b2 :: r =>
      if (Byte.to_N b0 =? 0xEF) && (Byte.to_N b1 =? 0xBB) &&
         (Byte.to_N b2 =? 0xBF)
      then utf8_decode r
      else utf8_decode bs
  | _ => utf8_decode bs
  end.

(** *** Base64 *)

(** The base64 alphabet. *)
Definition b64_char (i : N) : N :=
  if i <? 26 then 0x41 + i
  else if i <? 52 then 0x61 + (i - 26)
  else if i <? 62 then 0x30 + (i - 52)
  else if i =? 62 then 0x2B
  else 0x2F.

Definition b64_index (c : N) : option N :=
  if in_range 0x41 0x5A c then Some (c - 0x41)
  else if in_range 0x61 0x7A c then Some (c - 0x61 + 26)
  else if in_range 0x30 0x39 c then Some (c - 0x30 + 52)
  else if c =? 0x2B then Some 62
  else if c =? 0x2F then Some 63
  else None.

(** The 6-bit groups of a byte sequence, the last group padded with zero
    bits. *)
Fixpoint sextets (s : list N) : list N :=
  match s with
  | a :: b :: c :: r =>
      a / 4 :: (a mod 4) * 16 + b / 16 :: (b mod 16) * 4 + c / 64 ::
      c mod 64 :: sextets r
  | [a; b] => [a / 4; (a mod 4) * 16 + b / 16; (b mod 16) * 4]
  | [a] => [a / 4; (a mod 4) * 16]
  | [] => []
  end.

Definition b64_padding (len : nat) : jsstring :=
  replicate ((3 - len mod 3) mod 3)%nat 0x3D.

Definition InvalidCharacterError : thrown :=
  ErrorObject (lit "InvalidCharacterError") [].

(** [btoa(s)]: throws when a unit is above 0xFF. *)
Definition btoa (s : jsstring) : Exc jsstring :=
  if forallb (fun c => c <? 256) s
  then Return (map b64_char (sextets s) ++ b64_padding (length s))
  else Throw InvalidCharacterError.

Definition is_ascii_whitespace (c : N) : bool :=
  (c =? 0x09) || (c =? 0x0A) || (c =? 0x0C) || (c =? 0x0D) || (c =? 0x20).

(** Drop one or two trailing [=] of a string whose length is a multiple of
    four. *)
Definition strip_padding (s : jsstring) : jsstring :=
  if Nat.eqb (length s mod 4) 0 then
    match reverse s with
    | c1 :: r1 =>
        if c1 =? 0x3D then
          match r1 with
          | c2 :: r2 => if c2 =? 0x3D then reverse r2 else reverse r1
          | [] => reverse r1
          end
        else s
    | [] => s
    end
  else s.

(** Bytes of a sequence of 6-bit groups; the bits left over at the end are
    discarded. *)
Fixpoint bytes_of_sextets (l : list N) : list N :=
  match l with
  | s0 :: s1 :: s2 :: s3 :: r =>
      s0 * 4 + s1 / 16 :: (s1 mod 16) * 16 + s2 / 4 :: (s2 mod 4) * 64 + s3 ::
      bytes_of_sextets r
  | [s0; s1; s2] => [s0 * 4 + s1 / 16; (s1 mod 16) * 16 + s2 / 4]
  | [s0; s1] => [s0 * 4 + s1 / 16]
  | _ => []
  end.

(** [atob(s)], the forgiving base64 decoder. *)
Definition atob (s : jsstring) : Exc jsstring :=
  let data := strip_padding (filter (fun c => is_ascii_whitespace c = false) s) in
  if Nat.eqb (length data mod 4) 1 then Throw InvalidCharacterError
  else
    match mapM b64_index data with
    | Some groups => Return (bytes_of_sextets groups)
    | None => Throw InvalidCharacterError
    end.

(** [String.fromCharCode(...bytes)]: the spread passes one argument per
    byte, and the engine bounds the number of arguments of a call. *)
Definition fromCharCode_spread (max_arguments : N) (bs : list byte)
    : Exc jsstring :=
  if N.of_nat (length bs) <=? max_arguments
  then Return (map Byte.to_N bs)
  else Throw (ErrorObject (lit "RangeError") []).

(** [Uint8Array.from(s, (c) => c.charCodeAt(0))] *)
Definition Uint8Array_from (s : jsstring) : list byte := map byte_of_N s.

End JS.

Import JS.

Notation "'let*' x ':=' m 'in' k" := (JS.bind m (fun x => k))
  (at level 10, x name, m at level 100, k at level 200).

(** ** lib/encryption.ts, the pure part *)

Module Encryption.

(** U+2022 BULLET, one UTF-16 code unit. *)
Definition bullet : N := 0x2022.

(** [maskApiKey]: [!apiKey] holds exactly for the empty string. *)
Definition maskApiKey (apiKey : jsstring) : jsstring :=
  if (Nat.eqb (jslength apiKey) 0) || (jslength apiKey <? 8)%nat then
    [bullet; bullet; bullet; bullet; bullet; bullet; bullet; bullet]
  else
    let visibleStart := substring apiKey 0 3 in
    let visibleEnd := substring_from apiKey (jslength apiKey - 4) in
    let maskedMiddle := repeat_str [bullet] 12 in
    visibleStart ++ maskedMiddle ++ visibleEnd.

(** [/^[A-Za-z0-9_\-]+$/] on one code unit. *)
Definition key_char (c : N) : bool :=
  ((0x41 <=? c) && (c <=? 0x5A)) || ((0x61 <=? c) && (c <=? 0x7A)) ||
  ((0x30 <=? c) && (c <=? 0x39)) || (c =? 0x5F) || (c =? 0x2D).

(** [validateApiKeyFormat]; for a string of length at least 20 the [+] of the
    pattern is satisfied as soon as every unit is in the class. *)
Definition validateApiKeyFormat (apiKey : jsstring) : bool :=
  (20 <=? jslength apiKey)%nat && forallb key_char apiKey.

(** *** The Web Crypto interface

    [crypto.subtle] is the platform's; the sources use PBKDF2 key derivation
    ([importKey] then [deriveKey]) and AES-GCM.  Each call may reject. *)
Class WebCrypto := {
  CryptoKey : Type;
  pbkdf2_sha256_aes256 :
    forall (password salt : list byte) (iterations : N), Exc CryptoKey;
  aes_gcm_encrypt :
    forall (key : CryptoKey) (iv data : list byte), Exc (list byte);
  aes_gcm_decrypt :
    forall (key : CryptoKey) (iv data : list byte), Exc (list byte);
  max_arguments : N;
}.

(** What AES-GCM guarantees: decryption under the same key and IV undoes
    encryption, and the ciphertext carries a 16-byte tag. *)
Class WebCryptoLaws (W : WebCrypto) : Prop := {
  aes_gcm_decrypt_encrypt :
    forall key iv data c,
      aes_gcm_encrypt key iv data = Return c ->
      aes_gcm_decrypt key iv c = Return data;
  aes_gcm_encrypt_length :
    forall key iv data c,
      aes_gcm_encrypt key iv data = Return c ->
      length c = (length data + 16)%nat;
}.

Section WithCrypto.
Context {W : WebCrypto}.

(** [deriveKey] *)
Definition deriveKey (userId : jsstring) : Exc CryptoKey :=
  let salt := TextEncoder_encode (lit "vOCR-encryption-salt-v1") in
  pbkdf2_sha256_aes256 (TextEncoder_encode userId) salt 100000.

(** [encryptApiKey]; [iv] is what [crypto.getRandomValues] put into the
    12-byte array. *)
Definition encryptApiKey (iv : list byte) (apiKey userId : jsstring)
    : Exc jsstring :=
  try_catch
    (let* key := deriveKey userId in
     let data := TextEncoder_encode apiKey in
     let* encryptedData := aes_gcm_encrypt key iv data in
     let combined := iv ++ encryptedData in
     let* binary := fromCharCode_spread max_arguments combined in
     btoa binary)
    (fun _ => Throw (new_Error (lit "Failed to encrypt API key"))).

(** [decryptApiKey] *)
Definition decryptApiKey (encryptedData userId : jsstring) : Exc jsstring :=
  try_catch
    (let* key := deriveKey userId in
     let* binary := atob encryptedData in
     let combined := Uint8Array_from binary in
     let iv := take 12 combined in
     let data := drop 12 combined in
     let* decryptedData := aes_gcm_decrypt key iv data in
     Return (TextDecoder_decode decryptedData))
    (fun _ => Throw (new_Error (lit "Failed to decrypt API key"))).

End WithCrypto.

End Encryption.

(** ** lib/api-key-service.ts *)

Module ApiKeyService.

Import Encryption.

(** An error of the database client: its [code], and the thrown value it is
    when the sources [throw] it. *)
Record DbError := {
  code : jsstring;
  as_thrown : thrown;
}.

(** The queries the sources build on [user_api_keys]. *)
Inductive Query :=
| SelectId (user_id : jsstring)
| SelectEncryptedKey (user_id : jsstring)
| Update (user_id encrypted_api_key : jsstring)
| Insert (user_id encrypted_api_key : jsstring).

(** A row of [user_api_keys]; the timestamps are the database's. *)
Record Row := {
  id : jsstring;
  encrypted_api_key : jsstring;
}.

(** The backend: the table as a map from [user_id] (declared [UNIQUE]) to its
    row, the queries received so far, for the n-th query whether it fails
    before touching the table (network, policy, constraint), and the [id]
    that [gen_random_uuid()] gives a row inserted by the n-th query. *)
Record Backend := {
  table : gmap jsstring Row;
  received : list Query;
  failure : nat -> option DbError;
  uuid : nat -> jsstring;
}.

(** [{ data, error }]; [data] holds the selected column. *)
Record Reply := {
  data : option jsstring;
  error : option DbError;
}.

(** No row, for [.single()].  The client hands an error of the database
    over as a plain object, which is no [Error] instance. *)
Definition PGRST116 : DbError :=
  {| code := lit "PGRST116"; as_thrown := NonError |}.

(** A second row for the same [user_id]. *)
Definition unique_violation : DbError :=
  {| code := lit "23505"; as_thrown := NonError |}.

(** What a query does to the table, and the reply. *)
Definition apply_query (q : Query) (fresh_id : jsstring)
    (t : gmap jsstring Row) : Reply * gmap jsstring Row :=
  match q with
  | SelectId u =>
      match t !! u with
      | Some row => ({| data := Some (id row); error := None |}, t)
      | None => ({| data := None; error := Some PGRST116 |}, t)
      end
  | SelectEncryptedKey u =>
      match t !! u with
      | Some row =>
          ({| data := Some (encrypted_api_key row); error := None |}, t)
      | None => ({| data := None; error := Some PGRST116 |}, t)
      end
  | Update u k =>
      match t !! u with
      | Some row =>
          ({| data := None; error := None |},
           <[u := {| id := id row; encrypted_api_key := k |}]> t)
      | None => ({| data := None; error := None |}, t)
      end
  | Insert u k =>
      match t !! u with
      | Some _ => ({| data := None; error := Some unique_violation |}, t)
      | None =>
          ({| data := None; error := None |},
           <[u := {| id := fresh_id; encrypted_api_key := k |}]> t)
      end
  end.

(** [await supabase.from("user_api_keys")...] *)
Definition send (q : Query) (b : Backend) : Reply * Backend :=
  let n := length (received b) in
  match failure b n with
  | Some e =>
      ({| data := None; error := Some e |},
       {| table := table b; received := received b ++ [q];
          failure := failure b; uuid := uuid b |})
  | None =>
      let '(reply, t) := apply_query q (uuid b n) (table b) in
      (reply,
       {| table := t; received := received b ++ [q];
          failure := failure b; uuid := uuid b |})
  end.

Record SaveResult := {
  success : bool;
  save_error : option jsstring;
}.

Record GetResult := {
  apiKey : option jsstring;
  get_error : option jsstring;
}.

Section WithCrypto.
Context {W : WebCrypto}.

(** [saveApiKey] *)
Definition saveApiKey (iv : list byte) (userId apiKey : jsstring)
    (b : Backend) : SaveResult * Backend :=
  let caught (e : thrown) (b' : Backend) :=
    ({| success := false;
        save_error := Some
          match e with
          | ErrorObject _ msg => msg
          | NonError => lit "Failed to save API key"
          end |}, b') in
  match encryptApiKey iv apiKey userId with
  | Throw e => caught e b
  | Return encryptedKey =>
      let '(existing, b1) := send (SelectId userId) b in
      match data existing with
      | Some _ =>
          let '(reply, b2) := send (Update userId encryptedKey) b1 in
          match error reply with
          | Some e => caught (as_thrown e) b2
          | None => ({| success := true; save_error := None |}, b2)
          end
      | None =>
          let '(reply, b2) := send (Insert userId encryptedKey) b1 in
          match error reply with
          | Some e => caught (as_thrown e) b2
          | None => ({| success := true; save_error := None |}, b2)
          end
      end
  end.

(** [getApiKey]; [!data?.encrypted_api_key] holds for a missing value and for
    the empty text. *)
Definition getApiKey (userId : jsstring) (b : Backend)
    : GetResult * Backend :=
  let caught (e : thrown) :=
    {| apiKey := None;
       get_error := Some
         match e with
         | ErrorObject _ msg => msg
         | NonError => lit "Failed to retrieve API key"
         end |} in
  let '(reply, b1) := send (SelectEncryptedKey userId) b in
  match error reply with
  | Some e =>
      if decide (code e = lit "PGRST116")
      then ({| apiKey := None; get_error := None |}, b1)
      else (caught (as_thrown e), b1)
  | None =>
      match data reply with
      | None | Some [] => ({| apiKey := None; get_error := None |}, b1)
      | Some encrypted_api_key =>
          match decryptApiKey encrypted_api_key userId with
          | Throw e => (caught e, b1)
          | Return apiKey =>
              ({| apiKey := Some apiKey; get_error := None |}, b1)
          end
      end
  end.

End WithCrypto.

End ApiKeyService.

(** ** lib/deepseek-client.ts *)

Module DeepseekClient.

Record OCRResponse := {
  text : jsstring;
  tokensUsed : Z;
}.

Inductive OCRErrorType :=
| invalid_key | rate_limit | network | timeout | server | unknown.

Record OCRError := {
  type : OCRErrorType;
  message : jsstring;
  retryAfter : option number;
}.

Inductive OCRPromptType := document | general | free | figure.

Definition OCR_PROMPTS (promptType : OCRPromptType) : jsstring :=
  match promptType with
  | document => lit "Convert the document to markdown."
  | general => lit "OCR this image."
  | free => lit "Free OCR."
  | figure => lit "Parse the figure."
  end.

(** *** The HTTP exchange *)

Inductive ContentPart :=
| image_url (url : jsstring)
| text_part (text : jsstring).

(** The argument of [fetch]: URL, headers, the JSON body before
    [JSON.stringify], and the delay after which the abort signal fires. *)
Record ChatRequest := {
  req_url : jsstring;
  req_method : jsstring;
  req_content_type : jsstring;
  req_authorization : jsstring;
  req_model : jsstring;
  req_role : jsstring;
  req_content : list ContentPart;
  req_temperature : Q;
  req_max_tokens : N;
  req_frequency_penalty : Q;
  req_presence_penalty : Q;
  req_abort_after_ms : N;
}.

(** What the sources read from a parsed response body that is not [null]:
    [errorData.error?.message], [errorData.message],
    [data.choices?.[0]?.message?.content] and [data.usage?.total_tokens],
    each [undefined] when the path does not exist.  A message or content
    that is no string and a total that is no integer are not represented. *)
Record ResponseJson := {
  error_message : option jsstring;
  top_message : option jsstring;
  choice_content : option jsstring;
  total_tokens : option Z;
}.

(** A parsed body: the JSON value [null], on which the first property read
    of the sources throws the engine's [TypeError], or any other value, with
    what the reads above give. *)
Inductive JsonBody :=
| json_null (engine_message : jsstring)
| json_value (reads : ResponseJson).

(** [errorData.error] and [data.choices], the first read on a parsed body. *)
Definition read_body (body : JsonBody) : Exc ResponseJson :=
  match body with
  | json_null msg => Throw (ErrorObject (lit "TypeError") msg)
  | json_value reads => Return reads
  end.

(** [await response.json()] rejects when the body is not JSON
    ([SyntaxError]). *)
Record Response := {
  status : N;
  retry_after_header : option jsstring;
  json : Exc JsonBody;
}.

(** [response.ok] *)
Definition ok (response : Response) : bool :=
  (200 <=? status response) && (status response <=? 299).

(** How [await fetch(...)] settles. *)
Inductive FetchOutcome :=
| Aborted (engine_message : jsstring)
| Rejected (e : thrown)
| Responded (response : Response).

(** The rejection of an aborted [fetch] is a [DOMException] named
    [AbortError]; its message is the engine's. *)
Definition await_fetch (o : FetchOutcome) : Exc Response :=
  match o with
  | Aborted msg => Throw (ErrorObject (lit "AbortError") msg)
  | Rejected e => Throw e
  | Responded r => Return r
  end.

Definition Fetch := ChatRequest -> FetchOutcome.

(** *** [handleErrorResponse] *)

Definition handleErrorResponse (response : Response) : Exc OCRError :=
  let status := status response in
  try_catch
    (let* parsed := json response in
     let* errorData := read_body parsed in
     let errorMessage :=
       or_str (error_message errorData)
         (or_str (top_message errorData) (lit "Unknown error")) in
     if (status =? 401) || (status =? 403) then
       Return {| type := invalid_key;
                 message := lit "Invalid API key. Please update your key in Settings.";
                 retryAfter := None |}
     else if status =? 429 then
       let retryAfter := parseInt10 (or_str (retry_after_header response) (lit "5")) in
       Return {| type := rate_limit;
                 message := lit "Rate limit reached. Please wait " ++
                            show_number retryAfter ++ lit " seconds.";
                 retryAfter := Some retryAfter |}
     else if (status =? 500) || (status =? 502) || (status =? 503) then
       Return {| type := server;
                 message := lit "DeepInfra server error. Please try again later.";
                 retryAfter := None |}
     else
       Return {| type := unknown; message := errorMessage; retryAfter := None |})
    (fun _ =>
       Return {| type := unknown;
                 message := lit "HTTP " ++ show_N status ++ lit " error occurred";
                 retryAfter := None |}).

(** *** [handleException] *)

Definition handleException (error : thrown) : OCRError :=
  match error with
  | ErrorObject name msg =>
      if decide (name = lit "AbortError") then
        {| type := timeout;
           message := lit "Request timed out. Try a smaller file or check your connection.";
           retryAfter := None |}
      else if includes msg (lit "fetch") then
        {| type := network;
           message := lit "Network error. Please check your internet connection.";
           retryAfter := None |}
      else
        {| type := unknown; message := msg; retryAfter := None |}
  | NonError =>
      {| type := unknown;
         message := lit "An unexpected error occurred";
         retryAfter := None |}
  end.

(** *** [extractText] *)

Record ExtractResult := {
  data : option OCRResponse;
  error : option OCRError;
}.

(** The request that [extractText] hands to [fetch]. *)
Definition chat_request (imageBase64 apiKey mimeType : jsstring)
    (promptType : OCRPromptType) : ChatRequest :=
  {| req_url := lit "https://api.deepinfra.com/v1/openai/chat/completions";
     req_method := lit "POST";
     req_content_type := lit "application/json";
     req_authorization := lit "Bearer " ++ apiKey;
     req_model := lit "deepseek-ai/DeepSeek-OCR";
     req_role := lit "user";
     req_content :=
       [ image_url (lit "data:" ++ mimeType ++ lit ";base64," ++ imageBase64);
         text_part (OCR_PROMPTS promptType) ];
     req_temperature := 0%Q;
     req_max_tokens := 4096;
     req_frequency_penalty := 1%Q;
     req_presence_penalty := (1 # 2)%Q;
     req_abort_after_ms := 60000 |}.

Definition extractText_with (fetch : Fetch)
    (imageBase64 apiKey mimeType : jsstring) (promptType : OCRPromptType)
    : Exc ExtractResult :=
  try_catch
    (let* response :=
       await_fetch (fetch (chat_request imageBase64 apiKey mimeType promptType)) in
     if negb (ok response) then
       let* e := handleErrorResponse response in
       Return {| data := None; error := Some e |}
     else
       let* parsed := json response in
       let* data := read_body parsed in
       let extractedText := or_str (choice_content data) [] in
       let tokensUsed := or_num (total_tokens data) 0 in
       Return {| data := Some {| text := extractedText; tokensUsed := tokensUsed |};
                 error := None |})
    (fun error =>
       Return {| data := None; error := Some (handleException error) |}).

(** Default arguments: [mimeType = "image/jpeg"], [promptType = "document"]. *)
Definition default_mimeType : jsstring := lit "image/jpeg".
Definition default_promptType : OCRPromptType := document.

(** The three-argument call of the components. *)
Definition extractText (fetch : Fetch) (imageBase64 apiKey mimeType : jsstring)
    : Exc ExtractResult :=
  extractText_with fetch imageBase64 apiKey mimeType default_promptType.

(** *** [fileToBase64] *)

Record File := {
  name : jsstring;
  file_type : jsstring;
  size : N;
}.

(** How the [FileReader] settles: [onerror], or [onload] with the data URL
    in [reader.result]. *)
Inductive ReaderOutcome :=
| reader_error
| reader_load (result : jsstring).

(** [(reader.result as string).split(",")[1]]: the text between the first
    comma and the next one, [undefined] when there is no comma. *)
Fixpoint after_comma (s : jsstring) : option jsstring :=
  match s with
  | c :: r => if c =? 0x2C then Some r else after_comma r
  | [] => None
  end.

Fixpoint until_comma (s : jsstring) : jsstring :=
  match s with
  | c :: r => if c =? 0x2C then [] else c :: until_comma r
  | [] => []
  end.

Definition split_comma_1 (s : jsstring) : option jsstring :=
  until_comma <$> after_comma s.

Definition fileToBase64 (o : ReaderOutcome) : Exc (option jsstring) :=
  match o with
  | reader_error => Throw (new_Error (lit "Failed to read file"))
  | reader_load result => Return (split_comma_1 result)
  end.

(** *** [validateFile] *)

Record Validation := {
  valid : bool;
  validation_error : option jsstring;
}.

Definition MAX_SIZE : N := 10 * 1024 * 1024.

Definition ACCEPTED_TYPES : list jsstring :=
  [ lit "image/jpeg"; lit "image/png"; lit "image/webp"; lit "application/pdf" ].

(** [(size / 1024 / 1024).toFixed(1)]: the quotient is exact in a double, and
    [toFixed] picks the nearest tenth, the larger one on a tie. *)
Definition megabytes_toFixed1 (size : N) : jsstring :=
  let n := (10 * size + 524288) / 1048576 in
  show_N (n / 10) ++ lit "." ++ show_N (n mod 10).

Definition validateFile (file : File) : Validation :=
  if negb (bool_decide (file_type file ∈ ACCEPTED_TYPES)) then
    {| valid := false;
       validation_error := Some
         (name file ++ lit ": Format not supported. Use JPG, PNG, WebP, or PDF.") |}
  else if MAX_SIZE <? size file then
    {| valid := false;
       validation_error := Some
         (name file ++ lit ": File exceeds 10MB limit (" ++
          megabytes_toFixed1 (size file) ++ lit "MB).") |}
  else
    {| valid := true; validation_error := None |}.

End DeepseekClient.

(** ** components/batch-processor.tsx *)

Module BatchProcessor.

Module DC := DeepseekClient.

Inductive Status := pending | processing | success | failed.

#[global] Instance Status_eq_dec : EqDecision Status.
Proof. solve_decision. Defined.

(** [FileResult]; the status ["error"] is [failed] here, the field [error]
    keeps its name. *)
Record FileResult := {
  filename : jsstring;
  file : DC.File;
  status : Status;
  extractedText : option jsstring;
  error : option jsstring;
  tokensUsed : option Z;
}.

(** The initial state of [results]: [files.map(...)]. *)
Definition initial_results (files : list DC.File) : list FileResult :=
  map (fun file =>
         {| filename := DC.name file; file := file; status := pending;
            extractedText := None; error := None; tokensUsed := None |})
      files.

(** [{ ...r, status: "processing" }] *)
Definition mark_processing (r : FileResult) : FileResult :=
  {| filename := filename r; file := file r; status := processing;
     extractedText := extractedText r; error := error r;
     tokensUsed := tokensUsed r |}.

(** [{ ...r, status: "processing", error: undefined }] *)
Definition mark_retrying (r : FileResult) : FileResult :=
  {| filename := filename r; file := file r; status := processing;
     extractedText := extractedText r; error := None;
     tokensUsed := tokensUsed r |}.

(** [{ ...r, status: "error", error: msg }] *)
Definition mark_failed (msg : jsstring) (r : FileResult) : FileResult :=
  {| filename := filename r; file := file r; status := failed;
     extractedText := extractedText r; error := Some msg;
     tokensUsed := tokensUsed r |}.

(** [{ ...r, status: "success", extractedText: d.text, tokensUsed: d.tokensUsed }] *)
Definition mark_success (d : DC.OCRResponse) (r : FileResult) : FileResult :=
  {| filename := filename r; file := file r; status := success;
     extractedText := Some (DC.text d); error := error r;
     tokensUsed := Some (DC.tokensUsed d) |}.

(** [error instanceof Error ? error.message : "Unknown error"] *)
Definition message_of (e : thrown) : jsstring :=
  match e with
  | ErrorObject _ msg => msg
  | NonError => lit "Unknown error"
  end.

(** The outside world during one run: how the read of the file at index [i]
    settles and how the network answers the request sent for it. *)
Record Env := {
  reader : nat -> DC.File -> DC.ReaderOutcome;
  fetch : nat -> DC.Fetch;
  undefined_file : thrown;
}.

Inductive ToastKind := toast_success | toast_error | toast_info.

(** What the component does, in order. *)
Inductive Event :=
| SetIsProcessing (b : bool)
| SetCurrentIndex (i : nat)
| SetResults (rs : list FileResult)
| ReadFile (i : nat)
| OcrRequest (i : nat) (request : DC.ChatRequest)
| Toast (kind : ToastKind) (msg : jsstring)
| Delay (ms : N)
| SaveAs (zip : gmap jsstring jsstring) (archive_name : jsstring).

(** [updatedResults[i] = f(updatedResults[i])].  The index is in range
    whenever [results] has the length of [files], as it has from the
    [useState] initialiser on; out of range JavaScript would append an
    object without [filename] and [file], which [FileResult] excludes. *)
Definition update (i : nat) (f : FileResult -> FileResult)
    (rs : list FileResult) : list FileResult :=
  alter f i rs.

(** *** [processFiles] *)

(** The [try]/[catch] of one iteration of the loop. *)
Definition process_file (env : Env) (apiKey : jsstring) (i : nat)
    (file : DC.File) (updatedResults : list FileResult)
    : list Event * list FileResult :=
  let caught (e : thrown) :=
    ([Toast toast_error (DC.name file ++ lit ": Processing failed")],
     update i (mark_failed (message_of e)) updatedResults) in
  match DC.fileToBase64 (reader env i file) with
  | Throw e =>
      let '(evs, rs) := caught e in (ReadFile i :: evs, rs)
  | Return base64 =>
      let request :=
        DC.chat_request (template base64) apiKey (DC.file_type file)
          DC.default_promptType in
      match DC.extractText (fetch env i) (template base64) apiKey
              (DC.file_type file) with
      | Throw e =>
          let '(evs, rs) := caught e in
          (ReadFile i :: OcrRequest i request :: evs, rs)
      | Return result =>
          match DC.error result, DC.data result with
          | Some error, _ =>
              ([ReadFile i; OcrRequest i request;
                Toast toast_error
                  (DC.name file ++ lit ": " ++ DC.message error)],
               update i (mark_failed (DC.message error)) updatedResults)
          | None, Some data =>
              ([ReadFile i; OcrRequest i request;
                Toast toast_success
                  (DC.name file ++ lit ": Text extracted successfully")],
               update i (mark_success data) updatedResults)
          | None, None =>
              ([ReadFile i; OcrRequest i request], updatedResults)
          end
      end
  end.

(** The [for] loop from index [i] on; [rest] holds [files[i..]] and [n] is
    [files.length]. *)
Fixpoint processFiles_loop (env : Env) (apiKey : jsstring) (n i : nat)
    (rest : list DC.File) (updatedResults : list FileResult)
    : list Event * list FileResult :=
  match rest with
  | [] => ([], updatedResults)
  | file :: rest' =>
      let updatedResults1 := update i mark_processing updatedResults in
      let '(evs, updatedResults2) :=
        process_file env apiKey i file updatedResults1 in
      let delay := if (i <? n - 1)%nat then [Delay 500] else [] in
      let '(tr, final) :=
        processFiles_loop env apiKey n (S i) rest' updatedResults2 in
      (SetCurrentIndex i :: SetResults updatedResults1 :: evs ++
       SetResults updatedResults2 :: delay ++ tr, final)
  end.

(** [results.filter((r) => r.status === "success")] *)
Definition successful (rs : list FileResult) : list FileResult :=
  filter (fun r => status r = success) rs.

(** [processFiles]: the trace and the final value of [updatedResults]. *)
Definition processFiles (env : Env) (apiKey : jsstring)
    (files : list DC.File) (results : list FileResult)
    : list Event * list FileResult :=
  let '(tr, final) :=
    processFiles_loop env apiKey (length files) 0 files results in
  let successCount := length (successful final) in
  let summary :=
    if Nat.eqb successCount (length files) then
      Toast toast_success
        (lit "All " ++ show_N (N.of_nat (length files)) ++
         lit " files processed successfully!")
    else
      Toast toast_info
        (lit "Completed: " ++ show_N (N.of_nat successCount) ++
         lit " succeeded, " ++
         show_N (N.of_nat (length files - successCount)) ++ lit " failed") in
  (SetIsProcessing true :: tr ++
   [SetIsProcessing false; SetCurrentIndex (length files); summary],
   final).

(** *** [handleDownloadZip] *)

(** Does [/\.[^.]+$/] match at the head of [s]: a dot, then one or more
    units none of which is a dot, then the end of the string. *)
Definition extension_here (s : jsstring) : bool :=
  match s with
  | c :: r =>
      (c =? 0x2E) && negb (Nat.eqb (length r) 0) &&
      forallb (fun d => negb (d =? 0x2E)) r
  | [] => false
  end.

(** [filename.replace(/\.[^.]+$/, ".txt")]: the leftmost match is replaced,
    the string is returned as it is when there is none. *)
Fixpoint replace_extension (s : jsstring) : jsstring :=
  if extension_here s then lit ".txt"
  else match s with
       | c :: r => c :: replace_extension r
       | [] => []
       end.

(** [zip.file(name, data)] sets the entry of that name; the archive is the
    finite map from entry names to contents. *)
Definition zip_file (zip : gmap jsstring jsstring) (result : FileResult)
    : gmap jsstring jsstring :=
  let txtFilename := replace_extension (filename result) in
  <[txtFilename := or_str (extractedText result) []]> zip.

(** [handleDownloadZip]; [today] is
    [new Date().toISOString().split("T")[0]] and [generated] tells how
    [zip.generateAsync] settles. *)
Definition handleDownloadZip (today : jsstring) (generated : Exc unit)
    (results : list FileResult) : list Event :=
  let successfulResults := successful results in
  if Nat.eqb (length successfulResults) 0 then
    [Toast toast_error (lit "No successful extractions to download")]
  else
    let zip := foldl zip_file ∅ successfulResults in
    match generated with
    | Return _ =>
        [SaveAs zip (lit "ocr-results-" ++ today ++ lit ".zip");
         Toast toast_success
           (lit "Downloaded " ++
            show_N (N.of_nat (length successfulResults)) ++
            lit " files as ZIP")]
    | Throw _ => [Toast toast_error (lit "Failed to generate ZIP file")]
    end.

(** *** [retryFailed] *)

(** [results.map((r, i) => (r.status === "error" ? i : -1))
           .filter((i) => i !== -1)] *)
Definition failedIndices (results : list FileResult) : list Z :=
  filter (fun i => i <> (-1)%Z)
    (imap (fun i r => if decide (status r = failed) then Z.of_nat i else (-1)%Z)
          results).

(** The [try]/[catch] of one iteration; [files[i]] may be [undefined], and
    then [fileToBase64] rejects with the engine's [TypeError]. *)
Definition retry_file (env : Env) (apiKey : jsstring) (i : nat)
    (file : option DC.File) (updatedResults : list FileResult)
    : list Event * list FileResult :=
  let caught (e : thrown) :=
    update i (mark_failed (message_of e)) updatedResults in
  match file with
  | None => ([ReadFile i], caught (undefined_file env))
  | Some file =>
      match DC.fileToBase64 (reader env i file) with
      | Throw e => ([ReadFile i], caught e)
      | Return base64 =>
          let request :=
            DC.chat_request (template base64) apiKey (DC.file_type file)
              DC.default_promptType in
          match DC.extractText (fetch env i) (template base64) apiKey
                  (DC.file_type file) with
          | Throw e => ([ReadFile i; OcrRequest i request], caught e)
          | Return result =>
              ([ReadFile i; OcrRequest i request],
               match DC.error result, DC.data result with
               | Some error, _ =>
                   update i (mark_failed (DC.message error)) updatedResults
               | None, Some data =>
                   update i (mark_success data) updatedResults
               | None, None => updatedResults
               end)
          end
      end
  end.

Fixpoint retryFailed_loop (env : Env) (apiKey : jsstring)
    (files : list DC.File) (indices : list Z)
    (updatedResults : list FileResult) : list Event * list FileResult :=
  match indices with
  | [] => ([], updatedResults)
  | iz :: indices' =>
      let i := Z.to_nat iz in
      let updatedResults1 := update i mark_retrying updatedResults in
      let '(evs, updatedResults2) :=
        retry_file env apiKey i (files !! i) updatedResults1 in
      let '(tr, final) :=
        retryFailed_loop env apiKey files indices' updatedResults2 in
      (SetCurrentIndex i :: SetResults updatedResults1 :: evs ++
       SetResults updatedResults2 :: Delay 500 :: tr, final)
  end.

(** [retryFailed]: the trace and the value of [results] afterwards. *)
Definition retryFailed (env : Env) (apiKey : jsstring)
    (files : list DC.File) (results : list FileResult)
    : list Event * list FileResult :=
  let failedIndices := failedIndices results in
  if Nat.eqb (length failedIndices) 0 then
    ([Toast toast_info (lit "No failed files to retry")], results)
  else
    let '(tr, final) :=
      retryFailed_loop env apiKey files failedIndices results in
    (SetIsProcessing true :: tr ++
     [SetIsProcessing false; Toast toast_success (lit "Retry completed")],
     final).

End BatchProcessor.

(** ** lib/api-key-service.ts, the other operations *)

Module ApiKeyAdmin.

Import Encryption ApiKeyService.

(** [deleteApiKey]: [.delete().eq("user_id", userId)].  The request is not
    one of the queries logged in [received]; [outcome] is the error the
    request comes back with, if it fails.  A request that is carried out
    removes the user's row and is no error when there is none. *)
Definition deleteApiKey (outcome : option DbError) (userId : jsstring)
    (b : Backend) : SaveResult * Backend :=
  match outcome with
  | Some e =>
      ({| success := false;
          save_error := Some
            match as_thrown e with
            | ErrorObject _ msg => msg
            | NonError => lit "Failed to delete API key"
            end |}, b)
  | None =>
      ({| success := true; save_error := None |},
       {| table := delete userId (table b); received := received b;
          failure := failure b; uuid := uuid b |})
  end.

(** [hasApiKey]: [!!data] of the lookup. *)
Definition hasApiKey (userId : jsstring) (b : Backend) : bool * Backend :=
  let '(reply, b1) := send (SelectId userId) b in
  (bool_decide (is_Some (data reply)), b1).

End ApiKeyAdmin.

(** ** app/settings/page.tsx *)

Module SettingsPage.

Import Encryption ApiKeyService ApiKeyAdmin.

(** [s.trim()] *)
Definition trim (s : jsstring) : jsstring :=
  reverse (trim_start (reverse (trim_start s))).

(** What the page does, in order. *)
Inductive Event :=
| Toast (kind : BatchProcessor.ToastKind) (msg : jsstring)
| SetIsLoading (b : bool)
| SetIsPageLoading (b : bool)
| SetApiKey (key : jsstring)
| SetMaskedKey (masked : option jsstring)
| SetEditValue (value : jsstring)
| SetHasExistingKey (b : bool)
| SetIsEditing (b : bool)
| SetShowApiKey (b : bool).

(** [session?.user?.id], when it is truthy. *)
Definition session_user (id : option jsstring) : option jsstring :=
  match id with
  | Some (c :: r) => Some (c :: r)
  | _ => None
  end.

Section WithCrypto.
Context {W : WebCrypto}.

(** [handleSaveApiKey]; [keyToSave] is [editValue] on both sides of the
    conditional. *)
Definition handleSaveApiKey (iv : list byte) (session_id : option jsstring)
    (editValue : jsstring) (b : Backend) : list Event * Backend :=
  match session_user session_id with
  | None => ([], b)
  | Some userId =>
      let keyToSave := editValue in
      if Nat.eqb (length (trim keyToSave)) 0 then
        ([Toast BatchProcessor.toast_error (lit "Please enter an API key")], b)
      else if negb (validateApiKeyFormat keyToSave) then
        ([Toast BatchProcessor.toast_error
            (lit "Invalid format. Key must be at least 20 characters.")], b)
      else
        let '(result, b') := saveApiKey iv userId keyToSave b in
        (SetIsLoading true ::
         (if success result then
            [Toast BatchProcessor.toast_success (lit "API key saved!");
             SetApiKey keyToSave;
             SetMaskedKey (Some (maskApiKey keyToSave));
             SetEditValue [];
             SetHasExistingKey true;
             SetIsEditing false;
             SetShowApiKey false]
          else
            [Toast BatchProcessor.toast_error
               (or_str (save_error result) (lit "Failed to save API key"))]) ++
         [SetIsLoading false], b')
  end.

(** [loadApiKey] *)
Definition loadApiKey (session_id : option jsstring) (b : Backend)
    : list Event * Backend :=
  match session_user session_id with
  | None => ([], b)
  | Some userId =>
      let '(result, b') := getApiKey userId b in
      (SetIsPageLoading true ::
       match get_error result, apiKey result with
       | Some (c :: r), _ =>
           [Toast BatchProcessor.toast_error (lit "Failed to load API key")]
       | _, Some (c :: r) =>
           [SetApiKey (c :: r); SetMaskedKey (Some (maskApiKey (c :: r)));
            SetHasExistingKey true]
       | _, _ => []
       end ++ [SetIsPageLoading false], b')
  end.

End WithCrypto.

(** [handleDeleteApiKey] *)
Definition handleDeleteApiKey (outcome : option DbError)
    (session_id : option jsstring) (b : Backend) : list Event * Backend :=
  match session_user session_id with
  | None => ([], b)
  | Some userId =>
      let '(result, b') := deleteApiKey outcome userId b in
      (SetIsLoading true ::
       (if success result then
          [Toast BatchProcessor.toast_success (lit "API key deleted");
           SetApiKey []; SetMaskedKey None; SetEditValue [];
           SetHasExistingKey false; SetIsEditing false]
        else
          [Toast BatchProcessor.toast_error
             (or_str (save_error result) (lit "Failed to delete API key"))]) ++
       [SetIsLoading false], b')
  end.

End SettingsPage.

(** ** lib/deepseek-client.ts, [retryWithBackoff] *)

Module Retry.

Inductive Event :=
| Call (attempt : nat)
| Wait (ms : Z).

(** The loop of [retryWithBackoff] with [remaining] iterations to go, at
    index [i]; [fn i] is how the [i]-th call of [fn] settles, [maxRetries]
    and [initialDelay] are integers. *)
Fixpoint retry_loop {T} (fn : nat -> Exc T) (maxRetries initialDelay : Z)
    (remaining i : nat) (lastError : thrown) : list Event * Exc T :=
  match remaining with
  | O => ([], Throw lastError)
  | S remaining' =>
      match fn i with
      | Return v => ([Call i], Return v)
      | Throw error =>
          let pause :=
            if (Z.of_nat i <? maxRetries - 1)%Z
            then [Wait (initialDelay * 2 ^ Z.of_nat i)%Z]
            else [] in
          let '(tr, result) :=
            retry_loop fn maxRetries initialDelay remaining' (S i) error in
          (Call i :: pause ++ tr, result)
      end
  end.

(** [retryWithBackoff]: the loop runs while [i < maxRetries]; [lastError] is
    [undefined] until a call has failed. *)
Definition retryWithBackoff {T} (fn : nat -> Exc T)
    (maxRetries initialDelay : Z) : list Event * Exc T :=
  retry_loop fn maxRetries initialDelay (Z.to_nat maxRetries) 0 NonError.

Definition default_maxRetries : Z := 3.
Definition default_initialDelay : Z := 1000.

End Retry.

(** ** components/batch-processor.tsx, what the component derives from
    [results] *)

Module BatchStatus.

Import BatchProcessor.

(** [results.filter((r) => r.status === "success").length] *)
Definition successCount (results : list FileResult) : nat :=
  length (filter (fun r => status r = success) results).

(** [results.filter((r) => r.status === "error").length] *)
Definition errorCount (results : list FileResult) : nat :=
  length (filter (fun r => status r = failed) results).

(** [results.every((r) => r.status === "success" || r.status === "error")] *)
Definition allComplete (results : list FileResult) : bool :=
  forallb (fun r => bool_decide (status r = success) ||
                    bool_decide (status r = failed)) results.

(** The three buttons of the header. *)
Definition shows_start (isProcessing : bool) (results : list FileResult)
    : bool :=
  negb isProcessing && negb (allComplete results).

Definition shows_download (results : list FileResult) : bool :=
  allComplete results && (0 <? successCount results)%nat.

Definition shows_retry (results : list FileResult) : bool :=
  allComplete results && (0 <? errorCount results)%nat.

End BatchStatus.

(** ** components/ocr-uploader.tsx *)

Module OCRUploader.

Module DC := DeepseekClient.

Inductive Event :=
| Toast (kind : BatchProcessor.ToastKind) (msg : jsstring)
| SetFiles (files : list DC.File)
| OnFilesSelected (files : list DC.File).

Definition default_maxFiles : Z := 10.

(** The loop over the new files: the valid ones, and the messages of the
    others. *)
Fixpoint validate_all (fileArray : list DC.File)
    : list DC.File * list jsstring :=
  match fileArray with
  | [] => ([], [])
  | file :: rest =>
      let validation := DC.validateFile file in
      let '(validFiles, errors) := validate_all rest in
      if DC.valid validation then (file :: validFiles, errors)
      else
        match DC.validation_error validation with
        | Some (c :: r) => (validFiles, (c :: r) :: errors)
        | _ => (validFiles, errors)
        end
  end.

(** [a.splice(start)]: what is left in [a].  A negative [start] counts from
    the end. *)
Definition splice_keep {A} (start : Z) (a : list A) : list A :=
  if (start <? 0)%Z
  then take (Z.to_nat (Z.max (Z.of_nat (length a) + start) 0)) a
  else take (Z.to_nat start) a.

(** [handleFiles]; [newFiles] is [null] when the browser hands over no list. *)
Definition handleFiles (maxFiles : Z) (files : list DC.File)
    (newFiles : option (list DC.File)) : list Event * list DC.File :=
  match newFiles with
  | None => ([], files)
  | Some fileArray =>
      let '(validFiles0, errors) := validate_all fileArray in
      let totalFiles := (Z.of_nat (length files + length validFiles0))%Z in
      let over := (maxFiles <? totalFiles)%Z in
      let validFiles :=
        if over
        then splice_keep (maxFiles - Z.of_nat (length files))%Z validFiles0
        else validFiles0 in
      let limit_toast :=
        if over then
          [Toast BatchProcessor.toast_error
             (lit "Maximum " ++ show_Z maxFiles ++
              lit " files allowed. Only added first " ++
              show_Z (maxFiles - Z.of_nat (length files)) ++ lit " files.")]
        else [] in
      let error_toasts := map (Toast BatchProcessor.toast_error) errors in
      if (0 <? length validFiles)%nat then
        let updatedFiles := files ++ validFiles in
        (limit_toast ++ error_toasts ++
         [SetFiles updatedFiles; OnFilesSelected updatedFiles;
          Toast BatchProcessor.toast_success
            (show_N (N.of_nat (length validFiles)) ++ lit " file" ++
             (if (1 <? length validFiles)%nat then lit "s" else []) ++
             lit " added")],
         updatedFiles)
      else (limit_toast ++ error_toasts, files)
  end.

(** [removeFile]: [files.filter((_, i) => i !== index)] *)
Definition removeFile (index : nat) (files : list DC.File)
    : list Event * list DC.File :=
  let updatedFiles :=
    omap id (imap (fun i file => if decide (i = index) then None else Some file)
               files) in
  ([SetFiles updatedFiles; OnFilesSelected updatedFiles;
    Toast BatchProcessor.toast_info (lit "File removed")], updatedFiles).

End OCRUploader.

(** ** app/page.tsx *)

Module HomePage.

Module DC := DeepseekClient.
Import ApiKeyService.

Inductive ViewMode := upload | single_preview | batch_processing.

(** The value of [singleResult]. *)
Record SingleResult := {
  result_text : jsstring;
  result_tokens : Z;
  result_fileName : jsstring;
  result_filePreview : option jsstring;
}.

(** What the page does, in order. *)
Inductive Event :=
| Toast (kind : BatchProcessor.ToastKind) (msg : jsstring)
| SetApiKey (key : jsstring)
| SetIsLoadingKey (b : bool)
| SetShowNoKeyDialog (b : bool)
| SetIsProcessing (b : bool)
| ReadFile
| OcrRequest (request : DC.ChatRequest)
| SetSingleResult (result : SingleResult)
| SetViewMode (mode : ViewMode).

(** The state [apiKey], a string or [null], when it is truthy. *)
Definition truthy (apiKey : option jsstring) : option jsstring :=
  match apiKey with
  | Some (c :: r) => Some (c :: r)
  | _ => None
  end.

Section WithCrypto.
Context {W : Encryption.WebCrypto}.

(** [loadApiKey] *)
Definition loadApiKey (session_id : option jsstring) (b : Backend)
    : list Event * Backend :=
  match SettingsPage.session_user session_id with
  | None => ([], b)
  | Some userId =>
      let '(result, b') := getApiKey userId b in
      (SetIsLoadingKey true ::
       match get_error result with
       | Some (c :: r) =>
           [Toast BatchProcessor.toast_error (lit "Failed to load API key")]
       | _ =>
           match apiKey result with
           | Some (c :: r) => [SetApiKey (c :: r)]
           | _ => [SetShowNoKeyDialog true]
           end
       end ++ [SetIsLoadingKey false], b')
  end.

End WithCrypto.

(** [processSingleFile]; [reader] and [fetch] tell how the read of the file
    and the request settle. *)
Definition processSingleFile (reader : DC.ReaderOutcome) (fetch : DC.Fetch)
    (apiKey : option jsstring) (file : DC.File) : list Event :=
  match truthy apiKey with
  | None => []
  | Some apiKey =>
      let failed := [Toast BatchProcessor.toast_error
                       (lit "Failed to process file")] in
      SetIsProcessing true :: ReadFile ::
      match DC.fileToBase64 reader with
      | Throw _ => failed
      | Return base64 =>
          let filePreview :=
            if starts_with (lit "image/") (DC.file_type file)
            then Some (lit "data:" ++ DC.file_type file ++ lit ";base64," ++
                       template base64)
            else None in
          OcrRequest
            (DC.chat_request (template base64) apiKey (DC.file_type file)
               DC.default_promptType) ::
          match DC.extractText fetch (template base64) apiKey
                  (DC.file_type file) with
          | Throw _ => failed
          | Return result =>
              match DC.error result, DC.data result with
              | Some error, _ =>
                  Toast BatchProcessor.toast_error
                    (lit "Error: " ++ DC.message error) ::
                  match DC.type error with
                  | DC.invalid_key => [SetShowNoKeyDialog true]
                  | _ => []
                  end
              | None, Some data =>
                  [SetSingleResult
                     {| result_text := DC.text data;
                        result_tokens := DC.tokensUsed data;
                        result_fileName := DC.name file;
                        result_filePreview := filePreview |};
                   SetViewMode single_preview;
                   Toast BatchProcessor.toast_success
                     (lit "Text extracted successfully!")]
              | None, None => []
              end
          end
      end ++ [SetIsProcessing false]
  end.

(** [handleExtractText]; [reader] and [fetch] are those of the single file,
    when there is one. *)
Definition handleExtractText (reader : DC.ReaderOutcome) (fetch : DC.Fetch)
    (apiKey : option jsstring) (files : list DC.File) : list Event :=
  match truthy apiKey with
  | None =>
      [Toast BatchProcessor.toast_error
         (lit "Please add your API key in Settings");
       SetShowNoKeyDialog true]
  | Some _ =>
      match files with
      | [] =>
          [Toast BatchProcessor.toast_error
             (lit "Please upload at least one file")]
      | [file] => processSingleFile reader fetch apiKey file
      | _ => [SetViewMode batch_processing]
      end
  end.

End HomePage.

(** * Observations and scenarios

    What the statements below read off a run, and the concrete runs they are
    tried on. *)

Module Observe.

Import DeepseekClient.

(** The text parts of a request body. *)
Definition prompt_texts (request : ChatRequest) : list jsstring :=
  omap (fun part => match part with
                    | text_part t => Some t
                    | image_url _ => None
                    end)
       (req_content request).

(** The error of a result, when [extractText] returned one without data. *)
Definition error_of (r : Exc ExtractResult) : option OCRError :=
  match r with
  | Return {| data := None; error := Some e |} => Some e
  | _ => None
  end.

Definition error_type_of (r : Exc ExtractResult) : option OCRErrorType :=
  type <$> error_of r.

(** A gateway answering 502 with an HTML page: [response.json()] rejects. *)
Definition bad_gateway_html : Response :=
  {| status := 502;
     retry_after_header := None;
     json := Throw (ErrorObject (lit "SyntaxError")
                      (lit "Unexpected token '<' is not valid JSON")) |}.

(** A 401 answer whose body is the JSON value [null]; the message is the
    one of V8. *)
Definition unauthorized_null : Response :=
  {| status := 401;
     retry_after_header := None;
     json := Return (json_null
                       (lit "Cannot read properties of null (reading 'error')")) |}.

(** A 429 answer with a JSON body and a [Retry-After] of 30 seconds. *)
Definition too_many_requests : Response :=
  {| status := 429;
     retry_after_header := Some (lit "30");
     json := Return (json_value
                       {| error_message := Some (lit "slow down");
                          top_message := None;
                          choice_content := None;
                          total_tokens := None |}) |}.

(** *** A cipher to run the key service on

    A stand-in for PBKDF2 and AES-GCM with the two properties stated in
    [WebCryptoLaws]: the key is the password followed by the salt, the
    ciphertext is the data reversed followed by a 16-byte tag. *)

Definition toy_crypto : Encryption.WebCrypto :=
  {| Encryption.CryptoKey := list byte;
     Encryption.pbkdf2_sha256_aes256 :=
       fun password salt _ => Return (password ++ salt);
     Encryption.aes_gcm_encrypt :=
       fun key iv data => Return (reverse data ++ replicate 16 x00);
     Encryption.aes_gcm_decrypt :=
       fun key iv data =>
         if (16 <=? length data)%nat
         then Return (reverse (take (length data - 16) data))
         else Throw (ErrorObject (lit "OperationError") []);
     Encryption.max_arguments := 65535 |}.

Definition zero_iv : list byte := replicate 12 x00.

(** A key that starts with U+FEFF. *)
Definition bom_key : jsstring := 0xFEFF :: lit "sk-0123456789abcdefghij".

(** A key that holds an unpaired surrogate. *)
Definition lone_surrogate_key : jsstring :=
  lit "sk-0123456789" ++ [0xD83D] ++ lit "abcdefghij".

(** An empty backend that never fails. *)
Definition empty_backend : ApiKeyService.Backend :=
  {| ApiKeyService.table := ∅;
     ApiKeyService.received := [];
     ApiKeyService.failure := fun _ => None;
     ApiKeyService.uuid := fun _ => lit "00000000-0000-4000-8000-000000000000" |}.

(** The first query of [saveApiKey] finds the user's row: it does not fail
    and the row is there. *)
Definition row_visible (userId : jsstring) (b : ApiKeyService.Backend) : Prop :=
  ApiKeyService.failure b (length (ApiKeyService.received b)) = None /\
  is_Some (ApiKeyService.table b !! userId).

(** The text stored for a user. *)
Definition stored (userId : jsstring) (b : ApiKeyService.Backend)
    : option jsstring :=
  ApiKeyService.encrypted_api_key <$> ApiKeyService.table b !! userId.

(** *** Runs of the batch processor *)

Import BatchProcessor.

(** The successive values handed to [setResults]. *)
Definition snapshots (tr : list Event) : list (list FileResult) :=
  omap (fun e => match e with SetResults rs => Some rs | _ => None end) tr.

(** The value of [results] once the events [pre] have happened, starting
    from [init]. *)
Definition current (init : list FileResult) (pre : list Event)
    : list FileResult :=
  default init (last (snapshots pre)).

Definition status_at (i : nat) (rs : list FileResult) : option Status :=
  status <$> rs !! i.

Definition processing_count (rs : list FileResult) : nat :=
  length (filter (fun r => status r = processing) rs).

(** A recorded result: success with text and token count, or failure with a
    message. *)
Definition settled (r : FileResult) : Prop :=
  (status r = success /\ is_Some (extractedText r) /\ is_Some (tokensUsed r)) \/
  (status r = failed /\ is_Some (error r)).

(** The moves of one file's status between two values of [results]. *)
Inductive step : option Status -> option Status -> Prop :=
| step_stay s : step s s
| step_start : step (Some pending) (Some processing)
| step_success : step (Some processing) (Some success)
| step_failed : step (Some processing) (Some failed).

(** File [j] may be sent to the OCR API: it is the one being processed and
    every file before it has its result recorded. *)
Definition ready (j : nat) (cur : list FileResult) : Prop :=
  status_at j cur = Some processing /\
  forall i, (i < j)%nat -> exists r, cur !! i = Some r /\ settled r.

(** A trace that, from the results [cur] on, keeps at most one file in
    processing, moves statuses only along [step], and sends a file to the API
    only when it is [ready]. *)
Fixpoint accepted (cur : list FileResult) (tr : list Event) : Prop :=
  match tr with
  | [] => True
  | SetResults rs :: tr' =>
      (processing_count rs <= 1)%nat /\
      (forall i, step (status_at i cur) (status_at i rs)) /\
      accepted rs tr'
  | OcrRequest j _ :: tr' => ready j cur /\ accepted cur tr'
  | _ :: tr' => accepted cur tr'
  end.

(** File reads and delays, in order: the pace of a run. *)
Definition schedule (tr : list Event) : list (nat + N) :=
  omap (fun e => match e with
                 | ReadFile i => Some (inl i)
                 | Delay ms => Some (inr ms)
                 | _ => None
                 end) tr.

(** [k] files from index [i] on, a pause of 500 ms between two of them. *)
Fixpoint paced (i k : nat) : list (nat + N) :=
  match k with
  | O => []
  | S k' =>
      match k' with
      | O => [inl i]
      | S _ => inl i :: inr 500 :: paced (S i) k'
      end
  end.

(** The files read, and the files sent to the OCR API, in order. *)
Definition reads (tr : list Event) : list nat :=
  omap (fun e => match e with ReadFile i => Some i | _ => None end) tr.

Definition ocr_requests (tr : list Event) : list nat :=
  omap (fun e => match e with OcrRequest i _ => Some i | _ => None end) tr.

(** Does the read of the file at index [i] deliver its content? *)
Definition read_succeeds (env : Env) (files : list DC.File) (i : nat) : bool :=
  match files !! i with
  | Some file =>
      match reader env i file with
      | DC.reader_load _ => true
      | DC.reader_error => false
      end
  | None => false
  end.

(** The reads, the requests to the OCR API and the delays of a run, in
    order. *)
Inductive Beat :=
| read_of (i : nat)
| request_of (i : nat)
| wait_of (ms : N).

Definition pace (tr : list Event) : list Beat :=
  omap (fun e => match e with
                 | ReadFile i => Some (read_of i)
                 | OcrRequest i _ => Some (request_of i)
                 | Delay ms => Some (wait_of ms)
                 | _ => None
                 end) tr.

(** The beats of file [i] in a batch over [files]: its read, its request
    when the read succeeds, and a delay of 500 ms unless it is the last
    file. *)
Definition file_pace (env : Env) (files : list DC.File) (i : nat)
    : list Beat :=
  read_of i ::
  (if read_succeeds env files i then [request_of i] else []) ++
  (if (i <? length files - 1)%nat then [wait_of 500] else []).

(** The indices of the failed results from offset [o] on, in order. *)
Fixpoint failed_from (o : nat) (rs : list FileResult) : list nat :=
  match rs with
  | [] => []
  | r :: rs' =>
      if decide (status r = failed) then o :: failed_from (S o) rs'
      else failed_from (S o) rs'
  end.

(** *** Scenarios *)

Definition scan_png : DC.File :=
  {| DC.name := lit "scan.png"; DC.file_type := lit "image/png";
     DC.size := 2048 |}.

Definition scan_jpg : DC.File :=
  {| DC.name := lit "scan.jpg"; DC.file_type := lit "image/jpeg";
     DC.size := 4096 |}.

(** A result recorded as failed because the file could not be read. *)
Definition unread_scan : FileResult :=
  {| filename := lit "scan.png"; file := scan_png; status := failed;
     extractedText := None; error := Some (lit "Failed to read file");
     tokensUsed := None |}.

(** A world in which no file can be read. *)
Definition unreadable : Env :=
  {| reader := fun _ _ => DC.reader_error;
     fetch := fun _ _ => Rejected (new_Error (lit "Failed to fetch"));
     undefined_file := ErrorObject (lit "TypeError") [] |}.

(** A world in which every file is read and the API answers 200 with the
    text "ok" for 7 tokens. *)
Definition answering : Env :=
  {| reader := fun _ _ => DC.reader_load (lit "data:image/png;base64,QUJD");
     fetch := fun _ _ =>
       Responded
         {| DC.status := 200;
            DC.retry_after_header := None;
            DC.json := Return (json_value
                                 {| error_message := None; top_message := None;
                                    choice_content := Some (lit "ok");
                                    total_tokens := Some 7%Z |}) |};
     undefined_file := ErrorObject (lit "TypeError") [] |}.

Definition done_scan (file : DC.File) (content : jsstring) : FileResult :=
  {| filename := DC.name file; file := file;
     status := BatchProcessor.success;
     extractedText := Some content; error := None; tokensUsed := Some 7%Z |}.

(** Two pictures of the same page, both extracted. *)
Definition same_stem : list FileResult :=
  [done_scan scan_jpg (lit "A"); done_scan scan_png (lit "B")].

End Observe.

(** ** Observations on the other operations *)

Module Outcomes.

Import DeepseekClient BatchProcessor.

(** The calls of [fn] and the pauses of a run of [retryWithBackoff]. *)
Definition calls (tr : list Retry.Event) : list nat :=
  omap (fun e => match e with Retry.Call i => Some i | _ => None end) tr.

Definition waits (tr : list Retry.Event) : list Z :=
  omap (fun e => match e with Retry.Wait ms => Some ms | _ => None end) tr.

(** [k] failed attempts from index [i] on, each followed by its pause. *)
Definition backoff (initialDelay : Z) (i k : nat) : list Retry.Event :=
  flat_map (fun j => [Retry.Call j;
                      Retry.Wait (initialDelay * 2 ^ Z.of_nat j)%Z])
           (seq i k).

(** An operation that fails twice and then answers 7. *)
Definition third_time_lucky (i : nat) : Exc Z :=
  if (i <? 2)%nat then Throw (new_Error (lit "busy")) else Return 7%Z.

(** An operation that always fails, with the number of the attempt in the
    message. *)
Definition always_failing (i : nat) : Exc Z :=
  Throw (new_Error (show_N (N.of_nat i))).

(** The answer for the file at index [i]: its read, then its request. *)
Definition verdict (env : Env) (apiKey : jsstring) (i : nat)
    (file : option DC.File) : Exc DC.ExtractResult :=
  match file with
  | None => Throw (undefined_file env)
  | Some file =>
      let* base64 := DC.fileToBase64 (reader env i file) in
      DC.extractText (fetch env i) (template base64) apiKey (DC.file_type file)
  end.

(** What the batch processor makes of an answer. *)
Definition recorded (v : Exc DC.ExtractResult) : FileResult -> FileResult :=
  match v with
  | Throw e => mark_failed (message_of e)
  | Return result =>
      match DC.error result, DC.data result with
      | Some error, _ => mark_failed (DC.message error)
      | None, Some data => mark_success data
      | None, None => fun r => r
      end
  end.

(** The result of a file before it is processed, and with a status and the
    three optional fields filled in. *)
Definition entry (file : DC.File) (s : Status)
    (extracted error : option jsstring) (tokens : option Z) : FileResult :=
  {| filename := DC.name file; file := file; status := s;
     extractedText := extracted; BatchProcessor.error := error;
     tokensUsed := tokens |}.

(** A retried file and its pause, for each of the indices. *)
Definition retry_schedule (indices : list nat) : list (nat + N) :=
  flat_map (fun i => [inl i; inr 500]) indices.

(** A world in which the first file is read and answered and no other file
    can be read. *)
Definition first_only : Env :=
  {| reader := fun i _ =>
       match i with
       | O => DC.reader_load (lit "data:image/jpeg;base64,QUJD")
       | S _ => DC.reader_error
       end;
     fetch := fetch Observe.answering;
     undefined_file := ErrorObject (lit "TypeError") [] |}.

(** A world in which the file at index 1 cannot be read and every other
    file is read and answered. *)
Definition second_unreadable : Env :=
  {| reader := fun i _ =>
       match i with
       | 1%nat => DC.reader_error
       | _ => DC.reader_load (lit "data:image/jpeg;base64,QUJD")
       end;
     fetch := fetch Observe.answering;
     undefined_file := ErrorObject (lit "TypeError") [] |}.

(** The name and the content of the archive entry of a result. *)
Definition entry_name (r : FileResult) : jsstring :=
  replace_extension (filename r).

Definition entry_text (r : FileResult) : jsstring :=
  or_str (extractedText r) [].

Definition page_png : DC.File :=
  {| DC.name := lit "page.png"; DC.file_type := lit "image/png";
     DC.size := 1024 |}.

(** Two different pages, both extracted. *)
Definition two_pages : list FileResult :=
  [Observe.done_scan Observe.scan_jpg (lit "A");
   Observe.done_scan page_png (lit "B")].

(** A server that cannot be reached. *)
Definition unreachable : DC.Fetch :=
  fun _ => Rejected (ErrorObject (lit "TypeError") (lit "Failed to fetch")).

(** The indices handed to [setCurrentIndex] and the values handed to
    [setIsProcessing], in order. *)
Definition indices_shown (tr : list Event) : list nat :=
  omap (fun e => match e with SetCurrentIndex i => Some i | _ => None end) tr.

Definition flags (tr : list Event) : list bool :=
  omap (fun e => match e with SetIsProcessing b => Some b | _ => None end) tr.

(** The requests of a run of the home page, and its results. *)
Definition page_requests (tr : list HomePage.Event) : list DC.ChatRequest :=
  omap (fun e => match e with HomePage.OcrRequest r => Some r | _ => None end)
       tr.


(** The state [apiKey] of the home page after the events [tr]. *)
Definition apiKey_after (init : option jsstring) (tr : list HomePage.Event)
    : option jsstring :=
  foldl (fun key e => match e with
                      | HomePage.SetApiKey k => Some k
                      | _ => key
                      end) init tr.

End Outcomes.

(** * Properties *)

(** ** [maskApiKey] *)

Section MaskApiKey.
Import Encryption.

Lemma repeat_bullet (n : nat) : repeat_str [bullet] n = replicate n bullet.
Proof. induction n as [|n IH]; simpl; [reflexivity | now rewrite IH]. Qed.

Lemma maskApiKey_long (apiKey : jsstring) :
  (8 <= length apiKey)%nat ->
  maskApiKey apiKey =
    take 3 apiKey ++ replicate 12 bullet ++ drop (length apiKey - 4) apiKey.
Proof.
  intros Hlen. unfold maskApiKey, jslength.
  destruct (Nat.eqb_spec (length apiKey) 0) as [E|_]; [lia|].
  destruct (Nat.ltb_spec (length apiKey) 8) as [E|_]; [lia|].
  cbn [orb]. rewrite repeat_bullet.
  unfold substring_from, substring, jslength.
  rewrite !Nat.min_id, (Nat.min_l 0) by lia.
  rewrite (Nat.min_l 3), (Nat.min_l (length apiKey - 4)) by lia.
  rewrite Nat.max_r, Nat.min_l by lia.
  rewrite Nat.max_r, Nat.min_l by lia.
  rewrite drop_0. f_equal. f_equal.
  apply take_ge. rewrite length_drop. lia.
Qed.

Lemma maskApiKey_short (apiKey : jsstring) :
  (length apiKey < 8)%nat -> maskApiKey apiKey = replicate 8 bullet.
Proof.
  intros Hlen. unfold maskApiKey, jslength.
  destruct (Nat.ltb_spec (length apiKey) 8) as [_|E]; [|lia].
  now rewrite orb_true_r.
Qed.

(** C10, as amended: a key of at least 8 units is shown as its first 3
    units, 12 bullets and its last 4 units, 19 units in all; a shorter key
    (the empty one included) is shown as 8 bullets.  So the output depends
    on a long key only through its first 3 and last 4 units, and its length
    is 19 or 8 according to whether the key has at least 8 units. *)
Theorem maskApiKey_shape (apiKey : jsstring) :
  ((8 <= length apiKey)%nat ->
     maskApiKey apiKey =
       take 3 apiKey ++ replicate 12 bullet ++
       drop (length apiKey - 4) apiKey /\
     length (take 3 apiKey) = 3%nat /\
     length (drop (length apiKey - 4) apiKey) = 4%nat /\
     length (maskApiKey apiKey) = 19%nat /\
     (forall other : jsstring,
         (8 <= length other)%nat ->
         take 3 other = take 3 apiKey ->
         drop (length other - 4) other = drop (length apiKey - 4) apiKey ->
         maskApiKey other = maskApiKey apiKey)) /\
  ((length apiKey < 8)%nat ->
     maskApiKey apiKey = replicate 8 bullet /\
     length (maskApiKey apiKey) = 8%nat).
Proof.
  split.
  - intros Hlen. rewrite (maskApiKey_long apiKey Hlen).
    assert (H3 : length (take 3 apiKey) = 3%nat)
      by (rewrite length_take; lia).
    assert (H4 : length (drop (length apiKey - 4) apiKey) = 4%nat)
      by (rewrite length_drop; lia).
    repeat split; try assumption.
    + rewrite !length_app, length_replicate, H3, H4. reflexivity.
    + intros other Ho Hs He. rewrite (maskApiKey_long other Ho).
      now rewrite Hs, He.
  - intros Hlen. rewrite (maskApiKey_short apiKey Hlen).
    split; [reflexivity | apply length_replicate].
Qed.

Lemma maskApiKey_shape_witness :
  maskApiKey (lit "sk-abcdefgh1234") =
    lit "sk-" ++ replicate 12 bullet ++ lit "1234" /\
  maskApiKey (lit "short") = replicate 8 bullet.
Proof.
  split.
  - destruct (maskApiKey_shape (lit "sk-abcdefgh1234")) as [Hlong _].
    destruct Hlong as [Hmask _]; [simpl; lia | exact Hmask].
  - destruct (maskApiKey_shape (lit "short")) as [_ Hshort].
    destruct Hshort as [Hmask _]; [simpl; lia | exact Hmask].
Defined.

(** C10, as stated, fails: the masked length is not the same for all keys. *)
Lemma maskApiKey_length_varies :
  length (maskApiKey (lit "")) = 8%nat /\
  length (maskApiKey (lit "abcdefgh")) = 19%nat /\
  ~ (forall k1 k2 : jsstring,
        length (maskApiKey k1) = length (maskApiKey k2)).
Proof.
  split; [reflexivity|]. split; [reflexivity|].
  intros H. specialize (H (lit "") (lit "abcdefgh")). discriminate H.
Qed.

End MaskApiKey.

(** ** [extractText], [handleErrorResponse], [handleException] *)

Section ExtractText.
Import DeepseekClient Observe.

Lemma handleErrorResponse_returns (response : Response) :
  exists e, handleErrorResponse response = Return e.
Proof.
  unfold handleErrorResponse.
  destruct (json response) as [t|[msg|body]]; cbn [try_catch bind read_body];
    [eauto | eauto |].
  repeat (match goal with |- context [if ?b then _ else _] => destruct b end;
          cbn [try_catch]; eauto).
Qed.

Lemma extractText_with_returns (fetch : Fetch)
    (imageBase64 apiKey mimeType : jsstring) (promptType : OCRPromptType) :
  exists r,
    extractText_with fetch imageBase64 apiKey mimeType promptType = Return r /\
    ((exists d, data r = Some d /\ error r = None) \/
     (exists e, data r = None /\ error r = Some e)).
Proof.
  unfold extractText_with.
  destruct (await_fetch _) as [t|response]; cbn [try_catch bind].
  { eexists; split; [reflexivity|]. right. eauto. }
  destruct (negb (ok response)).
  - destruct (handleErrorResponse_returns response) as [e ->].
    cbn [try_catch bind]. eexists; split; [reflexivity|]. right. eauto.
  - destruct (json response) as [t|[msg|body]];
      cbn [try_catch bind read_body];
      (eexists; split; [reflexivity|]); [right | right | left]; eauto.
Qed.

(** What [extractText] returns for an answer in 200..299 whose body is a
    JSON value other than [null]. *)
Lemma extractText_with_answer (fetch : Fetch)
    (imageBase64 apiKey mimeType : jsstring) (promptType : OCRPromptType)
    (response : Response) (body : ResponseJson) :
  fetch (chat_request imageBase64 apiKey mimeType promptType) =
    Responded response ->
  ok response = true ->
  json response = Return (json_value body) ->
  extractText_with fetch imageBase64 apiKey mimeType promptType =
    Return {| data := Some {| text := or_str (choice_content body) [];
                              tokensUsed := or_num (total_tokens body) 0 |};
              error := None |}.
Proof.
  intros Hfetch Hok Hbody. unfold extractText_with. rewrite Hfetch.
  cbn [await_fetch bind]. rewrite Hok. cbn [negb]. now rewrite Hbody.
Qed.

(** C3: [extractText] consults the network at one request, the one built by
    [chat_request], and what it returns is made from the answer to that
    request: the same for every [fetch] that answers this request alike, the
    text and token count of the answer when the answer is in 200..299 with
    a JSON body other than [null], a timeout when the request is aborted.
    The only text part of the request is [OCR_PROMPTS[promptType]]; it is
    the same for all images, keys and MIME types, and with the default
    prompt type it is "Convert the document to markdown.". *)
Theorem extractText_prompt_fixed (fetch : Fetch)
    (imageBase64 apiKey mimeType : jsstring) (promptType : OCRPromptType) :
  let request := chat_request imageBase64 apiKey mimeType promptType in
  extractText_with fetch imageBase64 apiKey mimeType promptType =
    extractText_with (fun _ => fetch request)
      imageBase64 apiKey mimeType promptType /\
  (forall fetch' : Fetch,
      fetch' request = fetch request ->
      extractText_with fetch' imageBase64 apiKey mimeType promptType =
      extractText_with fetch imageBase64 apiKey mimeType promptType) /\
  (forall response body,
      fetch request = Responded response -> ok response = true ->
      json response = Return (json_value body) ->
      extractText_with fetch imageBase64 apiKey mimeType promptType =
        Return {| data := Some {| text := or_str (choice_content body) [];
                                  tokensUsed := or_num (total_tokens body) 0 |};
                  error := None |}) /\
  (forall msg,
      fetch request = Aborted msg ->
      error_type_of
        (extractText_with fetch imageBase64 apiKey mimeType promptType) =
        Some timeout) /\
  req_content request =
    [image_url (lit "data:" ++ mimeType ++ lit ";base64," ++ imageBase64);
     text_part (OCR_PROMPTS promptType)] /\
  prompt_texts request = [OCR_PROMPTS promptType] /\
  (forall imageBase64' apiKey' mimeType' : jsstring,
      prompt_texts (chat_request imageBase64' apiKey' mimeType' promptType) =
      prompt_texts request) /\
  extractText fetch imageBase64 apiKey mimeType =
    extractText_with fetch imageBase64 apiKey mimeType document /\
  prompt_texts (chat_request imageBase64 apiKey mimeType document) =
    [lit "Convert the document to markdown."].
Proof.
  cbv zeta. split; [reflexivity|]. split.
  { intros fetch' Hsame. unfold extractText_with. now rewrite Hsame. }
  split; [apply extractText_with_answer|]. split.
  { intros msg Hfetch. unfold extractText_with. now rewrite Hfetch. }
  repeat split.
Qed.

(** What [handleErrorResponse] makes of a response whose body is a JSON
    value other than [null]. *)
Lemma handleErrorResponse_parsed (response : Response) (body : ResponseJson) :
  json response = Return (json_value body) ->
  handleErrorResponse response =
    Return
      (if (status response =? 401) || (status response =? 403) then
         {| type := invalid_key;
            message := lit "Invalid API key. Please update your key in Settings.";
            retryAfter := None |}
       else if status response =? 429 then
         let n := parseInt10 (or_str (retry_after_header response) (lit "5")) in
         {| type := rate_limit;
            message := lit "Rate limit reached. Please wait " ++
                       show_number n ++ lit " seconds.";
            retryAfter := Some n |}
       else if (status response =? 500) || (status response =? 502) ||
               (status response =? 503) then
         {| type := server;
            message := lit "DeepInfra server error. Please try again later.";
            retryAfter := None |}
       else
         {| type := unknown;
            message := or_str (error_message body)
                         (or_str (top_message body) (lit "Unknown error"));
            retryAfter := None |}).
Proof.
  intros Hbody. unfold handleErrorResponse. rewrite Hbody.
  cbn [bind read_body].
  repeat (match goal with |- context [if ?b then _ else _] => destruct b end;
          cbn [try_catch]; try reflexivity).
Qed.

(** What it makes of a body that is not JSON, and of the body [null]. *)
Lemma handleErrorResponse_unparsed (response : Response) :
  (exists e, json response = Throw e) \/
  (exists msg, json response = Return (json_null msg)) ->
  handleErrorResponse response =
    Return {| type := unknown;
              message := lit "HTTP " ++ show_N (status response) ++
                         lit " error occurred";
              retryAfter := None |}.
Proof.
  intros [[e Hbody] | [msg Hbody]]; unfold handleErrorResponse;
    now rewrite Hbody.
Qed.

Lemma extractText_with_error_response (fetch : Fetch)
    (imageBase64 apiKey mimeType : jsstring) (promptType : OCRPromptType)
    (response : Response) :
  fetch (chat_request imageBase64 apiKey mimeType promptType) =
    Responded response ->
  ok response = false ->
  exists e,
    handleErrorResponse response = Return e /\
    extractText_with fetch imageBase64 apiKey mimeType promptType =
      Return {| data := None; error := Some e |}.
Proof.
  intros Hfetch Hok. unfold extractText_with. rewrite Hfetch.
  cbn [await_fetch bind]. rewrite Hok. cbn [negb].
  destruct (handleErrorResponse_returns response) as [e He].
  exists e. split; [exact He|]. now rewrite He.
Qed.

(** C9, as amended: [extractText] never throws and returns exactly one of
    [data] and [error].  An aborted request gives type "timeout".  For a
    response outside 200..299 whose body is a JSON value other than [null],
    the type follows the status: 401 and 403 give "invalid_key", 429 gives
    "rate_limit" with [retryAfter] the number that [parseInt] makes of the
    Retry-After header ("5" when it is missing or empty) and a message that
    shows it, 500, 502 and 503 give "server", any other status gives
    "unknown".  When the body is not JSON or is [null], the type is
    "unknown" whatever the status, with the message "HTTP <status> error
    occurred". *)
Theorem extractText_classifies (fetch : Fetch)
    (imageBase64 apiKey mimeType : jsstring) (promptType : OCRPromptType) :
  let request := chat_request imageBase64 apiKey mimeType promptType in
  let result := extractText_with fetch imageBase64 apiKey mimeType promptType in
  (exists r,
      result = Return r /\
      ((exists d, data r = Some d /\ error r = None) \/
       (exists e, data r = None /\ error r = Some e))) /\
  (forall msg, fetch request = Aborted msg ->
      error_type_of result = Some timeout) /\
  (forall response,
      fetch request = Responded response -> ok response = false ->
      (forall e, json response = Throw e ->
          error_of result =
            Some {| type := unknown;
                    message := lit "HTTP " ++ show_N (status response) ++
                               lit " error occurred";
                    retryAfter := None |}) /\
      (forall msg, json response = Return (json_null msg) ->
          error_of result =
            Some {| type := unknown;
                    message := lit "HTTP " ++ show_N (status response) ++
                               lit " error occurred";
                    retryAfter := None |}) /\
      (forall body, json response = Return (json_value body) ->
          (status response = 401 \/ status response = 403 ->
             error_type_of result = Some invalid_key) /\
          (status response = 429 ->
             error_type_of result = Some rate_limit /\
             (retryAfter <$> error_of result) =
               Some (Some (parseInt10
                       (or_str (retry_after_header response) (lit "5")))) /\
             (message <$> error_of result) =
               Some (lit "Rate limit reached. Please wait " ++
                     show_number
                       (parseInt10
                          (or_str (retry_after_header response) (lit "5"))) ++
                     lit " seconds.")) /\
          (status response = 500 \/ status response = 502 \/
           status response = 503 ->
             error_type_of result = Some server) /\
          (status response <> 401 -> status response <> 403 ->
           status response <> 429 -> status response <> 500 ->
           status response <> 502 -> status response <> 503 ->
             error_type_of result = Some unknown))).
Proof.
  cbv zeta. split; [apply extractText_with_returns|]. split.
  - intros msg Hfetch. unfold extractText_with. now rewrite Hfetch.
  - intros response Hfetch Hok.
    destruct (extractText_with_error_response _ _ _ _ _ _ Hfetch Hok)
      as (e & He & ->).
    unfold error_type_of, error_of. cbn [fmap option_fmap option_map].
    split; [|split].
    + intros t Ht. rewrite handleErrorResponse_unparsed in He by eauto.
      now injection He as <-.
    + intros msg Hnull. rewrite handleErrorResponse_unparsed in He by eauto.
      now injection He as <-.
    + intros body Hbody.
      rewrite (handleErrorResponse_parsed _ _ Hbody) in He.
      injection He as <-.
      split; [|split; [|split]].
      * intros [-> | ->]; reflexivity.
      * intros ->. repeat split.
      * intros [-> | [-> | ->]]; reflexivity.
      * intros H1 H2 H3 H4 H5 H6.
        repeat match goal with
               | H : status response <> _ |- _ =>
                   apply N.eqb_neq in H; rewrite H; clear H
               end.
        reflexivity.
Qed.

Lemma extractText_classifies_witness :
  error_type_of
    (extractText_with (fun _ => Responded too_many_requests)
       (lit "QUJD") (lit "key") (lit "image/png") document) =
    Some rate_limit /\
  (retryAfter <$>
   error_of
     (extractText_with (fun _ => Responded too_many_requests)
        (lit "QUJD") (lit "key") (lit "image/png") document)) =
    Some (Some (Num 30)).
Proof.
  pose proof (extractText_classifies (fun _ => Responded too_many_requests)
                (lit "QUJD") (lit "key") (lit "image/png") document) as H.
  cbv zeta in H. destruct H as (_ & _ & H).
  destruct (H too_many_requests eq_refl eq_refl) as (_ & _ & Hbody).
  destruct (Hbody _ eq_refl) as (_ & H429 & _).
  destruct (H429 eq_refl) as (Htype & Hretry & _).
  split; [exact Htype | exact Hretry].
Defined.

(** C9, as stated, fails: a 502 answer whose body is not JSON is classified
    "unknown", not "server". *)
Lemma extractText_502_html_is_unknown :
  status bad_gateway_html = 502 /\
  error_of
    (extractText (fun _ => Responded bad_gateway_html)
       (lit "QUJD") (lit "key") (lit "image/png")) =
    Some {| type := unknown;
            message := lit "HTTP 502 error occurred";
            retryAfter := None |}.
Proof. split; reflexivity. Qed.

(** The same for a 401 answer whose body is the JSON value [null]:
    "unknown", not "invalid_key". *)
Lemma extractText_401_null_is_unknown :
  status unauthorized_null = 401 /\
  error_of
    (extractText (fun _ => Responded unauthorized_null)
       (lit "QUJD") (lit "key") (lit "image/png")) =
    Some {| type := unknown;
            message := lit "HTTP 401 error occurred";
            retryAfter := None |}.
Proof. split; reflexivity. Qed.

End ExtractText.

(** ** [validateFile] *)

Section ValidateFile.
Import DeepseekClient.

Lemma accepted_type_iff (t : jsstring) :
  t ∈ ACCEPTED_TYPES <->
  t = lit "image/jpeg" \/ t = lit "image/png" \/ t = lit "image/webp" \/
  t = lit "application/pdf".
Proof.
  unfold ACCEPTED_TYPES. rewrite !elem_of_cons, elem_of_nil. tauto.
Qed.

(** C8: a file is valid exactly when its type is one of the four accepted
    ones and its size is at most 10485760 bytes; otherwise the result carries
    an error message that starts with the file's name, and a file of an
    unsupported type gets the format message whatever its size. *)
Theorem validateFile_spec (file : File) :
  MAX_SIZE = 10485760 /\
  (valid (validateFile file) = true <->
     (file_type file = lit "image/jpeg" \/ file_type file = lit "image/png" \/
      file_type file = lit "image/webp" \/
      file_type file = lit "application/pdf") /\
     size file <= 10485760) /\
  (valid (validateFile file) = true ->
     validation_error (validateFile file) = None) /\
  (valid (validateFile file) = false ->
     exists rest,
       validation_error (validateFile file) = Some (name file ++ rest)) /\
  (file_type file ∉ ACCEPTED_TYPES ->
     validateFile file =
       {| valid := false;
          validation_error := Some
            (name file ++
             lit ": Format not supported. Use JPG, PNG, WebP, or PDF.") |}) /\
  (file_type file ∈ ACCEPTED_TYPES -> 10485760 < size file ->
     validateFile file =
       {| valid := false;
          validation_error := Some
            (name file ++ lit ": File exceeds 10MB limit (" ++
             megabytes_toFixed1 (size file) ++ lit "MB).") |}).
Proof.
  split; [reflexivity|].
  rewrite <- accepted_type_iff. unfold validateFile.
  change MAX_SIZE with 10485760.
  destruct (decide (file_type file ∈ ACCEPTED_TYPES)) as [Hin|Hout].
  - rewrite (bool_decide_eq_true_2 _ Hin). cbn [negb].
    destruct (N.ltb_spec 10485760 (size file)) as [Hbig|Hsmall];
      cbn [valid validation_error].
    + split; [split; [discriminate | intros [_ Hle]; lia]|].
      split; [discriminate|].
      split; [intros _; eexists; reflexivity|].
      split; [tauto | reflexivity].
    + split; [split; [tauto | reflexivity]|].
      split; [reflexivity|].
      split; [discriminate|].
      split; [tauto | lia].
  - rewrite (bool_decide_eq_false_2 _ Hout). cbn [negb valid validation_error].
    split; [split; [discriminate | tauto]|].
    split; [discriminate|].
    split; [intros _; eexists; reflexivity|].
    split; [reflexivity | tauto].
Qed.

Lemma validateFile_spec_witness :
  valid (validateFile {| name := lit "scan.png"; file_type := lit "image/png";
                         size := 2048 |}) = true /\
  validateFile {| name := lit "big.pdf"; file_type := lit "application/pdf";
                  size := 11010048 |} =
    {| valid := false;
       validation_error :=
         Some (lit "big.pdf: File exceeds 10MB limit (10.5MB).") |}.
Proof.
  split.
  - apply (proj1 (proj2 (validateFile_spec
       {| name := lit "scan.png"; file_type := lit "image/png";
          size := 2048 |}))).
    split; [right; left; reflexivity | cbn; lia].
  - apply (proj2 (proj2 (proj2 (proj2 (proj2 (validateFile_spec
       {| name := lit "big.pdf"; file_type := lit "application/pdf";
          size := 11010048 |})))))).
    + apply accepted_type_iff. cbn. tauto.
    + cbn. lia.
Defined.

End ValidateFile.

(** ** [processFiles] *)

Section ProcessFiles.
Import BatchProcessor Observe.

Lemma snapshots_app (t1 t2 : list Event) :
  snapshots (t1 ++ t2) = snapshots t1 ++ snapshots t2.
Proof. apply omap_app. Qed.

Lemma current_nil (cur : list FileResult) : current cur [] = cur.
Proof. reflexivity. Qed.

Lemma current_app (cur : list FileResult) (t1 t2 : list Event) :
  current cur (t1 ++ t2) = current (current cur t1) t2.
Proof.
  unfold current. rewrite snapshots_app, last_app.
  destruct (last (snapshots t2)); reflexivity.
Qed.

Lemma current_SetResults (cur rs : list FileResult) (tr : list Event) :
  current cur (SetResults rs :: tr) = current rs tr.
Proof.
  change (SetResults rs :: tr) with ([SetResults rs] ++ tr).
  now rewrite current_app.
Qed.

Lemma current_skip (cur : list FileResult) (ev : Event) (tr : list Event) :
  snapshots [ev] = [] -> current cur (ev :: tr) = current cur tr.
Proof.
  intros H. change (ev :: tr) with ([ev] ++ tr).
  rewrite current_app. unfold current at 2. now rewrite H.
Qed.

Lemma accepted_app (cur : list FileResult) (t1 t2 : list Event) :
  accepted cur (t1 ++ t2) <->
  accepted cur t1 /\ accepted (current cur t1) t2.
Proof.
  revert cur. induction t1 as [|ev t1 IH]; intros cur.
  - cbn. tauto.
  - destruct ev; cbn [app accepted];
      try (rewrite current_skip by reflexivity; apply IH).
    + rewrite current_SetResults, IH. tauto.
    + rewrite current_skip by reflexivity. rewrite IH. tauto.
Qed.

Lemma accepted_count (cur : list FileResult) (tr : list Event) :
  accepted cur tr -> (processing_count cur <= 1)%nat ->
  (processing_count (current cur tr) <= 1)%nat.
Proof.
  revert cur. induction tr as [|ev tr IH]; intros cur Hacc Hcur.
  - exact Hcur.
  - destruct ev; cbn [accepted] in Hacc;
      try (rewrite current_skip by reflexivity; now apply IH).
    rewrite current_SetResults. apply IH; tauto.
Qed.

Lemma processing_count_none (rs : list FileResult) :
  (forall k r, rs !! k = Some r -> status r <> processing) ->
  processing_count rs = 0%nat.
Proof.
  unfold processing_count. induction rs as [|r rs IH]; intros H; [reflexivity|].
  rewrite filter_cons_False by (apply (H 0%nat); reflexivity).
  apply IH. intros k r' Hk. apply (H (S k)). exact Hk.
Qed.

(** No file in processing but possibly the one at index [i]. *)
Lemma processing_count_at_most_one (rs : list FileResult) (i : nat) :
  (forall k r, rs !! k = Some r -> status r = processing -> k = i) ->
  (processing_count rs <= 1)%nat.
Proof.
  revert i. induction rs as [|r rs IH]; intros i H; [cbn; lia|].
  unfold processing_count. rewrite filter_cons.
  destruct (decide (status r = processing)) as [Hr|Hr].
  - assert (Hi : i = 0%nat)
      by (symmetry; apply (H 0%nat r); [reflexivity | exact Hr]).
    subst i. cbn [length].
    fold (processing_count rs). rewrite processing_count_none; [lia|].
    intros k r' Hk Hs. specialize (H (S k) r' Hk Hs). discriminate.
  - apply (IH (pred i)). intros k r' Hk Hs.
    specialize (H (S k) r' Hk Hs). lia.
Qed.

Lemma settled_mark_failed (msg : jsstring) (r : FileResult) :
  settled (mark_failed msg r).
Proof. right. split; [reflexivity | eexists; reflexivity]. Qed.

Lemma settled_mark_success (d : DC.OCRResponse) (r : FileResult) :
  settled (mark_success d r).
Proof. left. repeat split; eexists; reflexivity. Qed.

Lemma settled_not_processing (r : FileResult) :
  settled r -> status r <> processing /\ status r <> pending.
Proof. intros [[H _]|[H _]]; rewrite H; split; discriminate. Qed.

(** Membership of an event in an explicit list, case by case. *)
Ltac event_cases H :=
  repeat (apply elem_of_cons in H as [H|H];
          [first [discriminate H | injection H as H; try exact H]|]);
  try (now apply elem_of_nil in H).

(** What one iteration does: it reads the file, possibly sends it to the
    API, and records a result at index [i]. *)
Lemma process_file_cases (env : Env) (apiKey : jsstring) (i : nat)
    (file : DC.File) (rs : list FileResult) :
  exists evs f,
    process_file env apiKey i file rs = (evs, update i f rs) /\
    (forall r, settled (f r)) /\
    snapshots evs = [] /\
    (forall j request, OcrRequest j request ∈ evs -> j = i) /\
    schedule evs = [inl i].
Proof.
  unfold process_file.
  destruct (DC.fileToBase64 (reader env i file)) as [e|base64].
  { eexists _, _. split; [reflexivity|].
    split; [apply settled_mark_failed|]. split; [reflexivity|].
    split; [|reflexivity].
    intros j request Hin. event_cases Hin. }
  destruct (extractText_with_returns (fetch env i) (template base64) apiKey
              (DC.file_type file) DC.default_promptType)
    as (result & Hres & Hcases).
  unfold DC.extractText. rewrite Hres.
  destruct Hcases as [(d & Hd & He)|(e & Hd & He)]; rewrite He, ?Hd.
  - eexists _, _. split; [reflexivity|].
    split; [apply settled_mark_success|]. split; [reflexivity|].
    split; [|reflexivity].
    intros j request Hin. event_cases Hin.
  - eexists _, _. split; [reflexivity|].
    split; [apply settled_mark_failed|]. split; [reflexivity|].
    split; [|reflexivity].
    intros j request Hin. event_cases Hin.
Qed.

Lemma accepted_without_snapshots (cur : list FileResult) (evs : list Event) :
  snapshots evs = [] ->
  (forall j request, OcrRequest j request ∈ evs -> ready j cur) ->
  accepted cur evs /\ current cur evs = cur.
Proof.
  intros Hsnap Hocr. split; [|unfold current; now rewrite Hsnap].
  induction evs as [|ev evs IH]; [exact I|].
  assert (Htail : forall j request, OcrRequest j request ∈ evs -> ready j cur)
    by (intros j request Hin; apply (Hocr j request); now right).
  destruct ev; cbn [accepted]; try (apply IH; [exact Hsnap | exact Htail]).
  - discriminate Hsnap.
  - split; [apply (Hocr i request); left | apply IH; [exact Hsnap | exact Htail]].
Qed.

Lemma status_at_update_eq (i : nat) (f : FileResult -> FileResult)
    (rs : list FileResult) :
  status_at i (update i f rs) = (fun r => status (f r)) <$> rs !! i.
Proof.
  unfold status_at, update. rewrite list_lookup_alter_eq.
  now destruct (rs !! i).
Qed.

Lemma status_at_update_ne (i k : nat) (f : FileResult -> FileResult)
    (rs : list FileResult) :
  i <> k -> status_at k (update i f rs) = status_at k rs.
Proof.
  intros Hne. unfold status_at, update. now rewrite list_lookup_alter_ne.
Qed.

Lemma loop_delay_accepted (cur : list FileResult) (b : bool) (tr : list Event) :
  accepted cur ((if b then [Delay 500] else []) ++ tr) <-> accepted cur tr.
Proof. destruct b; reflexivity. Qed.

Lemma loop_delay_current (cur : list FileResult) (b : bool) (tr : list Event) :
  current cur ((if b then [Delay 500] else []) ++ tr) = current cur tr.
Proof. destruct b; reflexivity. Qed.

(** The loop from index [i] on, started with the files before [i] recorded
    and the others pending. *)
Lemma processFiles_loop_spec (env : Env) (apiKey : jsstring) (n : nat) :
  forall (rest : list DC.File) (i : nat) (rs : list FileResult),
    (i + length rest = n)%nat ->
    length rs = n ->
    (forall k, (k < i)%nat -> exists r, rs !! k = Some r /\ settled r) ->
    (forall k, (i <= k < n)%nat -> status_at k rs = Some pending) ->
    accepted rs (processFiles_loop env apiKey n i rest rs).1 /\
    current rs (processFiles_loop env apiKey n i rest rs).1 =
      (processFiles_loop env apiKey n i rest rs).2 /\
    length (processFiles_loop env apiKey n i rest rs).2 = n /\
    (forall k, (k < n)%nat ->
       exists r, (processFiles_loop env apiKey n i rest rs).2 !! k = Some r /\
                 settled r).
Proof.
  induction rest as [|file rest IH]; intros i rs Hn Hlen Hdone Htodo.
  - cbn in *. repeat split; try assumption.
    intros k Hk. apply Hdone. lia.
  - cbn [length] in Hn. cbn [processFiles_loop].
    set (rs1 := update i mark_processing rs).
    destruct (process_file_cases env apiKey i file rs1)
      as (evs & f & Hpf & Hf & Hsnap & Hocr & _).
    rewrite Hpf. set (rs2 := update i f rs1).
    assert (Hi : (i < length rs)%nat) by lia.
    destruct (lookup_lt_is_Some_2 rs i Hi) as [r0 Hr0].
    assert (Hlen1 : length rs1 = n) by (unfold rs1, update; now rewrite length_alter).
    assert (Hlen2 : length rs2 = n) by (unfold rs2, update; now rewrite length_alter).
    assert (Hst1 : status_at i rs1 = Some processing).
    { unfold rs1. rewrite status_at_update_eq, Hr0. reflexivity. }
    assert (Hother1 : forall k, k <> i -> rs1 !! k = rs !! k).
    { intros k Hk. unfold rs1, update. now rewrite list_lookup_alter_ne. }
    assert (Hother2 : forall k, k <> i -> rs2 !! k = rs !! k).
    { intros k Hk. unfold rs2, update at 1.
      rewrite list_lookup_alter_ne by congruence. now apply Hother1. }
    assert (Hrs2 : rs2 !! i = Some (f (mark_processing r0))).
    { unfold rs2, rs1, update. now rewrite !list_lookup_alter_eq, Hr0. }
    assert (Hdone2 : forall k, (k < S i)%nat ->
                       exists r, rs2 !! k = Some r /\ settled r).
    { intros k Hk. destruct (decide (k = i)) as [->|Hne].
      - eexists. split; [exact Hrs2 | apply Hf].
      - rewrite Hother2 by exact Hne. apply Hdone. lia. }
    assert (Htodo2 : forall k, (S i <= k < n)%nat ->
                       status_at k rs2 = Some pending).
    { intros k Hk. unfold status_at. rewrite Hother2 by lia.
      apply Htodo. lia. }
    specialize (IH (S i) rs2 ltac:(lia) Hlen2 Hdone2 Htodo2).
    destruct (processFiles_loop env apiKey n (S i) rest rs2) as [tr final].
    cbn [fst snd] in *. destruct IH as (IHacc & IHcur & IHlen & IHall).
    assert (Hready : ready i rs1).
    { split; [exact Hst1|]. intros k Hk.
      rewrite Hother1 by lia. now apply Hdone. }
    destruct (accepted_without_snapshots rs1 evs Hsnap) as [Hevs Hcur1].
    { intros j request Hin. rewrite (Hocr j request Hin). exact Hready. }
    split; [|split; [|split; assumption]].
    + cbn [accepted]. split; [|split].
      * apply (processing_count_at_most_one rs1 i).
        intros k r Hk Hs. destruct (decide (k = i)) as [|Hne]; [assumption|].
        exfalso. rewrite Hother1 in Hk by exact Hne.
        destruct (Nat.lt_total k i) as [Hlt|[Heq|Hgt]]; [|contradiction|].
        -- destruct (Hdone k Hlt) as (r' & Hr' & Hsr').
           rewrite Hr' in Hk. injection Hk as ->.
           now apply settled_not_processing in Hsr'.
        -- destruct (decide (k < n)%nat) as [Hkn|Hkn].
           ++ specialize (Htodo k ltac:(lia)). unfold status_at in Htodo.
              rewrite Hk in Htodo. cbn in Htodo. congruence.
           ++ apply lookup_lt_Some in Hk. lia.
      * intros k. destruct (decide (k = i)) as [->|Hne].
        -- rewrite Hst1, (Htodo i) by lia. constructor.
        -- unfold status_at. rewrite Hother1 by exact Hne. constructor.
      * apply accepted_app. split; [exact Hevs|]. rewrite Hcur1.
        cbn [accepted]. split; [|split].
        -- rewrite (processing_count_none rs2); [lia|].
           intros k r Hk. destruct (decide (k = i)) as [->|Hne].
           ++ rewrite Hrs2 in Hk. injection Hk as <-.
              apply settled_not_processing, Hf.
           ++ rewrite Hother2 in Hk by exact Hne.
              destruct (Nat.lt_total k i) as [Hlt|[Heq|Hgt]]; [|contradiction|].
              ** destruct (Hdone k Hlt) as (r' & Hr' & Hsr').
                 rewrite Hr' in Hk. injection Hk as ->.
                 now apply settled_not_processing in Hsr'.
              ** assert (Hkn : (k < n)%nat)
                   by (apply lookup_lt_Some in Hk; lia).
                 specialize (Htodo k ltac:(lia)). unfold status_at in Htodo.
                 rewrite Hk in Htodo. cbn in Htodo. congruence.
        -- intros k. destruct (decide (k = i)) as [->|Hne].
           ++ rewrite Hst1. unfold status_at. rewrite Hrs2. cbn.
              destruct (Hf (mark_processing r0)) as [[-> _]|[-> _]]; constructor.
           ++ unfold status_at. rewrite Hother2, Hother1 by exact Hne.
              constructor.
        -- apply loop_delay_accepted. exact IHacc.
    + rewrite current_skip by reflexivity. rewrite current_SetResults.
      rewrite current_app, Hcur1, current_SetResults, loop_delay_current.
      exact IHcur.
Qed.

Lemma initial_results_pending (files : list DC.File) (k : nat) :
  (k < length files)%nat ->
  status_at k (initial_results files) = Some pending.
Proof.
  intros Hk. unfold status_at, initial_results.
  rewrite list_lookup_fmap.
  destruct (lookup_lt_is_Some_2 files k Hk) as [file ->]. reflexivity.
Qed.

Lemma processFiles_accepted (env : Env) (apiKey : jsstring)
    (files : list DC.File) :
  let init := initial_results files in
  accepted init (processFiles env apiKey files init).1 /\
  current init (processFiles env apiKey files init).1 =
    (processFiles env apiKey files init).2 /\
  length (processFiles env apiKey files init).2 = length files /\
  (forall k, (k < length files)%nat ->
     exists r, (processFiles env apiKey files init).2 !! k = Some r /\
               settled r).
Proof.
  cbv zeta. unfold processFiles.
  pose proof (processFiles_loop_spec env apiKey (length files) files 0
                (initial_results files) eq_refl) as H.
  destruct H as (Hacc & Hcur & Hlen & Hall).
  - unfold initial_results. apply length_fmap.
  - intros k Hk. lia.
  - intros k Hk. apply initial_results_pending. lia.
  - destruct (processFiles_loop env apiKey (length files) 0 files
                (initial_results files)) as [tr final].
    cbn [fst snd] in *. split; [|split; [|split; assumption]].
    + apply (accepted_app _ tr).
      split; [exact Hacc | now destruct (Nat.eqb _ _)].
    + rewrite current_skip by reflexivity. rewrite current_app, Hcur.
      now destruct (Nat.eqb _ _).
Qed.

(** C4: started on the initial results (every file pending), [processFiles]
    keeps at most one file in status "processing" at every point of the run;
    it sends file [j] to the OCR API only when [j] is the file in processing
    and every earlier file has its result recorded; each value handed to
    [setResults] moves a file's status only from pending to processing or
    from processing to success or error; and at the end every file is a
    success with text and token count or an error with a message. *)
Theorem processFiles_sequential (env : Env) (apiKey : jsstring)
    (files : list DC.File) :
  let init := initial_results files in
  let tr := (processFiles env apiKey files init).1 in
  let final := (processFiles env apiKey files init).2 in
  Forall (fun r => status r = pending) init /\
  (forall pre post,
      tr = pre ++ post -> (processing_count (current init pre) <= 1)%nat) /\
  (forall pre j request post,
      tr = pre ++ OcrRequest j request :: post ->
      status_at j (current init pre) = Some processing /\
      forall i, (i < j)%nat ->
        exists r, current init pre !! i = Some r /\ settled r) /\
  (forall pre rs post i,
      tr = pre ++ SetResults rs :: post ->
      step (status_at i (current init pre)) (status_at i rs)) /\
  current init tr = final /\
  length final = length files /\
  Forall settled final.
Proof.
  cbv zeta.
  destruct (processFiles_accepted env apiKey files)
    as (Hacc & Hcur & Hlen & Hall).
  set (init := initial_results files) in *.
  set (run := processFiles env apiKey files init) in *.
  assert (Hinit : Forall (fun r => status r = pending) init).
  { unfold init, initial_results. apply Forall_fmap, Forall_true.
    intros file. reflexivity. }
  split; [exact Hinit|].
  split; [|split; [|split; [|split; [exact Hcur | split; [exact Hlen|]]]]].
  - intros pre post Hsplit. rewrite Hsplit in Hacc.
    apply accepted_app in Hacc as [Hpre _].
    apply accepted_count; [exact Hpre|].
    rewrite processing_count_none; [lia|].
    intros k r Hk Hs. rewrite Forall_lookup in Hinit.
    rewrite (Hinit k r Hk) in Hs. discriminate.
  - intros pre j request post Hsplit. rewrite Hsplit in Hacc.
    apply accepted_app in Hacc as [_ [Hready _]]. exact Hready.
  - intros pre rs post i Hsplit. rewrite Hsplit in Hacc.
    apply accepted_app in Hacc as [_ (_ & Hstep & _)]. apply Hstep.
  - apply Forall_lookup. intros k r Hk.
    destruct (Hall k) as (r' & Hr' & Hs).
    + apply lookup_lt_Some in Hk. lia.
    + rewrite Hr' in Hk. now injection Hk as <-.
Qed.

Lemma processFiles_sequential_witness :
  let init := initial_results [scan_jpg; scan_png] in
  let tr := (processFiles answering (lit "key") [scan_jpg; scan_png] init).1 in
  let request :=
    DC.chat_request (lit "QUJD") (lit "key") (lit "image/png") DC.document in
  tr = take 11 tr ++ OcrRequest 1 request :: drop 12 tr /\
  status_at 1 (current init (take 11 tr)) = Some processing /\
  exists r, current init (take 11 tr) !! 0%nat = Some r /\ settled r.
Proof.
  cbv zeta. split; [vm_compute; reflexivity|].
  pose proof (processFiles_sequential answering (lit "key")
                [scan_jpg; scan_png]) as H.
  cbv zeta in H. destruct H as (_ & _ & Hready & _).
  destruct (Hready
    (take 11 (processFiles answering (lit "key") [scan_jpg; scan_png]
                (initial_results [scan_jpg; scan_png])).1)
    1%nat
    (DC.chat_request (lit "QUJD") (lit "key") (lit "image/png") DC.document)
    (drop 12 (processFiles answering (lit "key") [scan_jpg; scan_png]
                (initial_results [scan_jpg; scan_png])).1))
    as [Hst Hbefore]; [vm_compute; reflexivity|].
  split; [exact Hst | apply Hbefore; lia].
Defined.

(** *** The delay between files *)

Lemma paced_lookup (k i : nat) :
  length (paced i k) = (2 * k - 1)%nat /\
  (forall j, (j < k)%nat -> paced i k !! (2 * j)%nat = Some (inl (i + j)%nat)) /\
  (forall j, (j < k - 1)%nat -> paced i k !! (2 * j + 1)%nat = Some (inr 500)).
Proof.
  revert i. induction k as [|k IH]; intros i.
  - cbn. repeat split; intros; lia.
  - destruct k as [|k].
    + cbn. repeat split; intros j Hj; [|lia].
      assert (j = 0%nat) as -> by lia. cbn. f_equal. f_equal. lia.
    + destruct (IH (S i)) as (IHlen & IHread & IHdelay).
      change (paced i (S (S k))) with (inl i :: inr 500 :: paced (S i) (S k)).
      split; [cbn [length]; rewrite IHlen; lia|]. split.
      * intros [|j] Hj; [cbn; do 2 f_equal; lia|].
        replace (2 * S j)%nat with (S (S (2 * j))) by lia.
        cbn [lookup list_lookup]. rewrite IHread by lia. do 2 f_equal. lia.
      * intros [|j] Hj; [reflexivity|].
        replace (2 * S j + 1)%nat with (S (S (2 * j + 1))) by lia.
        cbn [lookup list_lookup]. apply IHdelay. lia.
Qed.

Lemma schedule_app (t1 t2 : list Event) :
  schedule (t1 ++ t2) = schedule t1 ++ schedule t2.
Proof. apply omap_app. Qed.

Lemma processFiles_loop_schedule (env : Env) (apiKey : jsstring) (n : nat) :
  forall (rest : list DC.File) (i : nat) (rs : list FileResult),
    (i + length rest = n)%nat ->
    schedule (processFiles_loop env apiKey n i rest rs).1 =
      paced i (length rest).
Proof.
  induction rest as [|file rest IH]; intros i rs Hn; [reflexivity|].
  cbn [length] in Hn. cbn [processFiles_loop].
  destruct (process_file_cases env apiKey i file (update i mark_processing rs))
    as (evs & f & Hpf & _ & _ & _ & Hsched).
  rewrite Hpf.
  specialize (IH (S i) (update i f (update i mark_processing rs)) ltac:(lia)).
  destruct (processFiles_loop env apiKey n (S i) rest _) as [tr final].
  cbn [fst snd] in *.
  change (schedule (SetCurrentIndex i :: SetResults ?a :: ?t))
    with (schedule t).
  rewrite schedule_app, Hsched.
  change (schedule (SetResults ?a :: ?t)) with (schedule t).
  rewrite schedule_app, IH.
  destruct rest as [|file' rest].
  - cbn [length] in *.
    destruct (Nat.ltb_spec i (n - 1)) as [Hlt|_]; [lia | reflexivity].
  - cbn [length] in *.
    destruct (Nat.ltb_spec i (n - 1)) as [_|Hge]; [reflexivity | lia].
Qed.

(** The reads and delays of [processFiles] alternate. *)
Lemma processFiles_schedule (env : Env) (apiKey : jsstring)
    (files : list DC.File) (results : list FileResult) :
  let tr := (processFiles env apiKey files results).1 in
  let n := length files in
  length (schedule tr) = (2 * n - 1)%nat /\
  (forall j, (j < n)%nat -> schedule tr !! (2 * j)%nat = Some (inl j)) /\
  (forall j, (j < n - 1)%nat ->
      schedule tr !! (2 * j + 1)%nat = Some (inr 500)) /\
  (forall ms, Delay ms ∈ tr -> ms = 500).
Proof.
  cbv zeta. unfold processFiles.
  pose proof (processFiles_loop_schedule env apiKey (length files) files 0
                results eq_refl) as Hloop.
  destruct (processFiles_loop env apiKey (length files) 0 files results)
    as [tr final].
  cbn [fst snd] in *.
  assert (Hsched :
    schedule (SetIsProcessing true :: tr ++
      [SetIsProcessing false; SetCurrentIndex (length files);
       if Nat.eqb (length (successful final)) (length files)
       then Toast toast_success
              (lit "All " ++ show_N (N.of_nat (length files)) ++
               lit " files processed successfully!")
       else Toast toast_info
              (lit "Completed: " ++
               show_N (N.of_nat (length (successful final))) ++
               lit " succeeded, " ++
               show_N (N.of_nat (length files - length (successful final))) ++
               lit " failed")]) = paced 0 (length files)).
  { change (schedule (SetIsProcessing true :: ?t)) with (schedule t).
    rewrite schedule_app, Hloop.
    destruct (Nat.eqb _ _); cbn; apply app_nil_r. }
  rewrite Hsched.
  destruct (paced_lookup (length files) 0) as (Hlen & Hread & Hdelay).
  split; [exact Hlen|]. split; [exact Hread|]. split; [exact Hdelay|].
  intros ms Hin.
  assert (Hs : inr ms ∈ paced 0 (length files)).
  { rewrite <- Hsched. unfold schedule.
    apply list_elem_of_omap. exists (Delay ms).
    split; [exact Hin | reflexivity]. }
  clear -Hs. revert Hs. generalize 0%nat.
  induction (length files) as [|k IH]; intros i Hs.
  - now apply elem_of_nil in Hs.
  - destruct k as [|k].
    + apply elem_of_cons in Hs as [Hs|Hs]; [discriminate|].
      now apply elem_of_nil in Hs.
    + change (paced i (S (S k))) with (inl i :: inr 500 :: paced (S i) (S k)) in Hs.
      apply elem_of_cons in Hs as [Hs|Hs]; [discriminate|].
      apply elem_of_cons in Hs as [Hs|Hs]; [now injection Hs|].
      now apply (IH (S i)).
Qed.

Lemma pace_app (t1 t2 : list Event) : pace (t1 ++ t2) = pace t1 ++ pace t2.
Proof. apply omap_app. Qed.

Lemma process_file_pace (env : Env) (apiKey : jsstring) (i : nat)
    (file : DC.File) (files : list DC.File) (rs : list FileResult) :
  files !! i = Some file ->
  pace (process_file env apiKey i file rs).1 =
    read_of i :: if read_succeeds env files i then [request_of i] else [].
Proof.
  intros Hfile. unfold process_file, read_succeeds. rewrite Hfile.
  destruct (reader env i file) as [|url]; cbn [DC.fileToBase64];
    [reflexivity|].
  destruct (DC.extractText _ _ _ _) as [e|result]; [reflexivity|].
  now destruct (DC.error result), (DC.data result).
Qed.

Lemma processFiles_loop_pace (env : Env) (apiKey : jsstring)
    (files : list DC.File) :
  forall (rest : list DC.File) (i : nat) (rs : list FileResult),
    drop i files = rest ->
    pace (processFiles_loop env apiKey (length files) i rest rs).1 =
      flat_map (file_pace env files) (seq i (length rest)).
Proof.
  induction rest as [|file rest IH]; intros i rs Hdrop; [reflexivity|].
  assert (Hfile : files !! i = Some file).
  { rewrite <- (Nat.add_0_r i), <- lookup_drop, Hdrop. reflexivity. }
  assert (Hrest : drop (S i) files = rest).
  { replace (S i) with (i + 1)%nat by lia.
    rewrite <- drop_drop, Hdrop. reflexivity. }
  cbn [processFiles_loop].
  pose proof (process_file_pace env apiKey i file files
                (update i mark_processing rs) Hfile) as Hone.
  destruct (process_file env apiKey i file _) as [evs rs2].
  specialize (IH (S i) rs2 Hrest).
  destruct (processFiles_loop env apiKey (length files) (S i) rest rs2)
    as [tr final].
  cbn [fst] in *.
  change (SetCurrentIndex i :: SetResults ?a :: evs ++ SetResults rs2 ::
          ?d ++ tr)
    with ([SetCurrentIndex i; SetResults a] ++ evs ++ [SetResults rs2] ++
          d ++ tr).
  rewrite !pace_app, Hone, IH. cbn [length seq flat_map].
  unfold file_pace at 2. cbn [app pace omap list_omap].
  rewrite <- app_assoc. f_equal.
  destruct (read_succeeds env files i); cbn [app]; f_equal;
    now destruct (i <? length files - 1)%nat.
Qed.

End ProcessFiles.

(** ** [retryFailed] *)

Section RetryFailed.
Import BatchProcessor Observe.

Lemma failedIndices_failed_from (rs : list FileResult) :
  failedIndices rs = Z.of_nat <$> failed_from 0 rs.
Proof.
  unfold failedIndices.
  enough (H : forall o,
    filter (fun i => i <> (-1)%Z)
      (imap (fun i r => if decide (status r = failed)
                        then Z.of_nat (o + i) else (-1)%Z) rs) =
    Z.of_nat <$> failed_from o rs) by apply (H 0%nat).
  induction rs as [|r rs IH]; intros o; [reflexivity|].
  rewrite imap_cons. cbn [failed_from].
  rewrite (imap_ext _ (fun i r => if decide (status r = failed)
                                  then Z.of_nat (S o + i) else (-1)%Z))
    by (intros i x _; cbn; destruct (decide _); [f_equal; lia | reflexivity]).
  destruct (decide (status r = failed)).
  - rewrite filter_cons_True by lia. rewrite Nat.add_0_r, IH. reflexivity.
  - rewrite filter_cons_False by (intros H; now apply H). apply IH.
Qed.

Lemma failed_from_spec (rs : list FileResult) (o : nat) :
  StronglySorted lt (failed_from o rs) /\
  (forall i, i ∈ failed_from o rs <->
             (o <= i)%nat /\ status_at (i - o) rs = Some failed).
Proof.
  revert o. induction rs as [|r rs IH]; intros o.
  - split; [constructor|]. intros i. cbn. rewrite elem_of_nil.
    unfold status_at. rewrite lookup_nil. cbn. split; [tauto | intros [_ H]; discriminate].
  - destruct (IH (S o)) as [IHsorted IHmem].
    assert (Htail : forall i,
      i ∈ failed_from (S o) rs <->
      (o < i)%nat /\ status_at (i - o) (r :: rs) = Some failed).
    { intros i. rewrite IHmem. split; intros [Hi Hs]; (split; [lia|]).
      - replace (i - o)%nat with (S (i - S o)) by lia. exact Hs.
      - replace (i - o)%nat with (S (i - S o)) in Hs by lia. exact Hs. }
    cbn [failed_from]. destruct (decide (status r = failed)) as [Hr|Hr].
    + split.
      * constructor; [exact IHsorted|]. apply Forall_forall. intros i Hi.
        apply IHmem in Hi. lia.
      * intros i. rewrite elem_of_cons, Htail. split.
        -- intros [->|[Hi Hs]]; [|split; [lia | exact Hs]].
           split; [lia|]. rewrite Nat.sub_diag. unfold status_at. cbn.
           now rewrite Hr.
        -- intros [Hi Hs]. destruct (decide (i = o)) as [->|Hne]; [now left|].
           right. split; [lia | exact Hs].
    + split; [exact IHsorted|]. intros i. rewrite Htail. split.
      * intros [Hi Hs]. split; [lia | exact Hs].
      * intros [Hi Hs]. split; [|exact Hs].
        destruct (decide (i = o)) as [->|Hne]; [|lia].
        rewrite Nat.sub_diag in Hs. unfold status_at in Hs. cbn in Hs.
        congruence.
Qed.

(** What one iteration of the retry loop does. *)
Lemma retry_file_cases (env : Env) (apiKey : jsstring) (i : nat)
    (files : list DC.File) (rs : list FileResult) :
  exists evs f,
    retry_file env apiKey i (files !! i) rs = (evs, update i f rs) /\
    snapshots evs = [] /\
    reads evs = [i] /\
    ocr_requests evs = if read_succeeds env files i then [i] else [].
Proof.
  unfold retry_file, read_succeeds.
  destruct (files !! i) as [file|]; [|eexists _, _; repeat split].
  destruct (reader env i file) as [|result]; cbn [DC.fileToBase64].
  { eexists _, _; repeat split. }
  destruct (extractText_with_returns (fetch env i)
              (template (DC.split_comma_1 result)) apiKey
              (DC.file_type file) DC.default_promptType)
    as (res & Hres & Hcases).
  unfold DC.extractText. rewrite Hres.
  destruct Hcases as [(d & Hd & He)|(e & Hd & He)]; rewrite He, ?Hd;
    eexists _, _; repeat split.
Qed.

Lemma retryFailed_loop_spec (env : Env) (apiKey : jsstring)
    (files : list DC.File) :
  forall (indices : list nat) (rs : list FileResult),
    reads (retryFailed_loop env apiKey files (Z.of_nat <$> indices) rs).1 =
      indices /\
    ocr_requests (retryFailed_loop env apiKey files (Z.of_nat <$> indices) rs).1 =
      filter (fun i => read_succeeds env files i = true) indices /\
    (forall k, k ∉ indices ->
       (retryFailed_loop env apiKey files (Z.of_nat <$> indices) rs).2 !! k =
         rs !! k /\
       Forall (fun rs' => rs' !! k = rs !! k)
         (snapshots
            (retryFailed_loop env apiKey files (Z.of_nat <$> indices) rs).1)).
Proof.
  induction indices as [|i indices IH]; intros rs.
  - cbn. repeat split. constructor.
  - cbn [fmap list_fmap retryFailed_loop]. rewrite Nat2Z.id.
    set (rs1 := update i mark_retrying rs).
    destruct (retry_file_cases env apiKey i files rs1)
      as (evs & f & Hrf & Hsnap & Hreads & Hocr).
    rewrite Hrf. set (rs2 := update i f rs1).
    specialize (IH rs2).
    change (list_fmap nat Z Z.of_nat indices) with (Z.of_nat <$> indices).
    destruct (retryFailed_loop env apiKey files (Z.of_nat <$> indices) rs2)
      as [tr final].
    cbn [fst snd] in *. destruct IH as (IHreads & IHocr & IHframe).
    assert (Hother : forall k, k <> i -> rs1 !! k = rs !! k /\ rs2 !! k = rs !! k).
    { intros k Hk. unfold rs2, rs1, update.
      rewrite !list_lookup_alter_ne by congruence. split; reflexivity. }
    split; [|split].
    + change (reads (SetCurrentIndex i :: SetResults rs1 :: ?t)) with (reads t).
      unfold reads in *. rewrite omap_app, Hreads. cbn. now rewrite IHreads.
    + change (ocr_requests (SetCurrentIndex i :: SetResults rs1 :: ?t))
        with (ocr_requests t).
      unfold ocr_requests in *. rewrite omap_app, Hocr. cbn [omap list_omap].
      rewrite IHocr, filter_cons.
      destruct (read_succeeds env files i); cbn;
        destruct (decide _); try congruence; reflexivity.
    + intros k Hk. apply not_elem_of_cons in Hk as [Hne Hk].
      destruct (IHframe k Hk) as [Hfinal Hsnaps].
      destruct (Hother k Hne) as [H1 H2].
      split; [now rewrite Hfinal|].
      change (snapshots (SetCurrentIndex i :: SetResults rs1 :: ?t))
        with (rs1 :: snapshots t).
      rewrite snapshots_app, Hsnap.
      change (snapshots (SetResults rs2 :: Delay 500 :: tr))
        with (rs2 :: snapshots tr).
      constructor; [exact H1|]. constructor; [exact H2|].
      eapply Forall_impl; [exact Hsnaps|]. cbn. intros rs' Hrs'.
      now rewrite Hrs'.
Qed.

(** The reads and requests of [retryFailed], and the files it leaves
    alone. *)
Lemma retryFailed_reads_and_frame (env : Env) (apiKey : jsstring)
    (files : list DC.File) (results : list FileResult) :
  let tr := (retryFailed env apiKey files results).1 in
  let final := (retryFailed env apiKey files results).2 in
  StronglySorted lt (reads tr) /\
  (forall i, i ∈ reads tr <-> status_at i results = Some failed) /\
  ocr_requests tr =
    filter (fun i => read_succeeds env files i = true) (reads tr) /\
  (forall i r,
      results !! i = Some r -> status r <> failed ->
      final !! i = Some r /\
      Forall (fun rs => rs !! i = Some r) (snapshots tr)) /\
  ((forall i, status_at i results <> Some failed) ->
      reads tr = [] /\ ocr_requests tr = [] /\ snapshots tr = [] /\
      final = results).
Proof.
  cbv zeta. unfold retryFailed. rewrite failedIndices_failed_from.
  destruct (failed_from_spec results 0) as [Hsorted Hmem].
  assert (Hmem' : forall i,
    i ∈ failed_from 0 results <-> status_at i results = Some failed).
  { intros i. rewrite Hmem, Nat.sub_0_r. split; [tauto | intros H; split; [lia | exact H]]. }
  clear Hmem. rewrite length_fmap.
  destruct (failed_from 0 results) as [|i0 indices] eqn:Hfailed.
  - cbn [length Nat.eqb fst snd]. split; [constructor|].
    split; [exact Hmem'|]. split; [reflexivity|]. split.
    + intros i r Hi _. split; [exact Hi | constructor].
    + intros _. repeat split.
  - cbn [length Nat.eqb].
    destruct (retryFailed_loop_spec env apiKey files (i0 :: indices) results)
      as (Hreads & Hocr & Hframe).
    destruct (retryFailed_loop env apiKey files
                (Z.of_nat <$> i0 :: indices) results) as [tr final].
    cbn [fst snd] in *.
    assert (Hr : reads (SetIsProcessing true :: tr ++
                   [SetIsProcessing false;
                    Toast toast_success (lit "Retry completed")]) =
                 i0 :: indices).
    { change (reads (SetIsProcessing true :: ?t)) with (reads t).
      unfold reads in *. rewrite omap_app, Hreads. apply app_nil_r. }
    rewrite Hr. split; [exact Hsorted|]. split; [exact Hmem'|]. split.
    + change (ocr_requests (SetIsProcessing true :: ?t)) with (ocr_requests t).
      unfold ocr_requests in *. rewrite omap_app, Hocr. apply app_nil_r.
    + split.
      * intros i r Hi Hs.
        assert (Hnot : i ∉ i0 :: indices).
        { intros Hin. apply Hmem' in Hin. unfold status_at in Hin.
          rewrite Hi in Hin. cbn in Hin. congruence. }
        destruct (Hframe i Hnot) as [Hfinal Hsnaps].
        split; [now rewrite Hfinal|].
        change (snapshots (SetIsProcessing true :: ?t)) with (snapshots t).
        rewrite snapshots_app. cbn [snapshots omap list_omap].
        rewrite app_nil_r. eapply Forall_impl; [exact Hsnaps|].
        cbn. intros rs' Hrs'. now rewrite Hrs'.
      * intros Hnone. exfalso. apply (Hnone i0), Hmem'. now left.
Qed.

End RetryFailed.

(** ** [handleDownloadZip] *)

Section DownloadZip.
Import BatchProcessor Observe.

(** What the archive holds in general: an entry for a name exactly when a
    successful file has that name once its extension is replaced; two such
    files with the same name share one entry. *)
Lemma zip_entries (rs : list FileResult) (zip : gmap jsstring jsstring)
    (name : jsstring) :
  is_Some (foldl zip_file zip rs !! name) <->
  is_Some (zip !! name) \/
  exists r, r ∈ rs /\ replace_extension (filename r) = name.
Proof.
  revert zip. induction rs as [|r rs IH]; intros zip; cbn [foldl].
  - split; [now left | intros [H|(r & Hr & _)]; [exact H|]].
    now apply elem_of_nil in Hr.
  - rewrite IH. unfold zip_file.
    destruct (decide (replace_extension (filename r) = name)) as [<-|Hne].
    + rewrite lookup_insert_eq. split.
      * intros _. right. exists r. split; [now left | reflexivity].
      * intros _. left. eexists. reflexivity.
    + rewrite lookup_insert_ne by exact Hne. split.
      * intros [H|(r' & Hr' & Hn)]; [now left|].
        right. exists r'. split; [now right | exact Hn].
      * intros [H|(r' & Hr' & Hn)]; [now left|].
        apply elem_of_cons in Hr' as [->|Hr']; [contradiction|].
        right. exists r'. split; assumption.
Qed.

Lemma handleDownloadZip_nothing (today : jsstring) (generated : Exc unit)
    (rs : list FileResult) :
  successful rs = [] ->
  handleDownloadZip today generated rs =
    [Toast toast_error (lit "No successful extractions to download")].
Proof. intros H. unfold handleDownloadZip. now rewrite H. Qed.

(** C7 at a failing input: "scan.jpg" and "scan.png" are both extracted, the
    export announces two files, and the archive holds the single entry
    "scan.txt" with the text of the second. *)
Theorem handleDownloadZip_same_stem :
  length (successful same_stem) = 2%nat /\
  replace_extension (lit "scan.jpg") = lit "scan.txt" /\
  replace_extension (lit "scan.png") = lit "scan.txt" /\
  handleDownloadZip (lit "2025-01-01") (Return tt) same_stem =
    [SaveAs {[ lit "scan.txt" := lit "B" ]} (lit "ocr-results-2025-01-01.zip");
     Toast toast_success (lit "Downloaded 2 files as ZIP")].
Proof.
  split; [reflexivity|]. split; [reflexivity|]. split; [reflexivity|].
  unfold handleDownloadZip, same_stem, successful.
  rewrite !filter_cons_True by reflexivity. rewrite filter_nil.
  cbn [length Nat.eqb foldl].
  unfold zip_file. cbn [filename extractedText done_scan DC.name scan_jpg scan_png].
  change (replace_extension (lit "scan.jpg")) with (lit "scan.txt").
  change (replace_extension (lit "scan.png")) with (lit "scan.txt").
  rewrite insert_insert_eq, insert_empty. reflexivity.
Qed.

End DownloadZip.

(** ** Text encoding and base64 *)

Section TextCoding.

Ltac nlia := zify; Z.to_euclidean_division_equations; lia.

Lemma to_N_byte_of_N (x : N) : x < 256 -> Byte.to_N (byte_of_N x) = x.
Proof.
  intros Hx. unfold byte_of_N. rewrite N.mod_small by exact Hx.
  destruct (Byte.of_N x) as [b|] eqn:E.
  - now apply Byte.to_of_N in E.
  - apply Byte.of_N_None_iff in E. lia.
Qed.

Lemma byte_of_N_to_N (b : byte) : byte_of_N (Byte.to_N b) = b.
Proof.
  unfold byte_of_N. pose proof (Byte.to_N_bounded b) as Hb.
  rewrite N.mod_small by lia. now rewrite Byte.of_to_N.
Qed.

Lemma in_range_true (lo hi x : N) : lo <= x <= hi -> in_range lo hi x = true.
Proof.
  intros [H1 H2]. unfold in_range.
  apply andb_true_intro. split; now apply N.leb_le.
Qed.

Lemma in_range_false (lo hi x : N) : x < lo \/ hi < x -> in_range lo hi x = false.
Proof.
  intros H. unfold in_range. apply andb_false_iff.
  destruct H; [left | right]; now apply N.leb_gt.
Qed.

Lemma utf8_decode_1 (c : N) (bs : list byte) :
  c < 0x80 ->
  utf8_decode (utf8_of_code_point c ++ bs) = c :: utf8_decode bs.
Proof.
  intros Hc. unfold utf8_of_code_point.
  destruct (N.ltb_spec c 0x80) as [_|H]; [|lia].
  cbn [app utf8_decode]. rewrite to_N_byte_of_N by lia.
  destruct (N.leb_spec c 0x7F) as [_|H]; [reflexivity | lia].
Qed.

Lemma utf8_decode_2 (c : N) (bs : list byte) :
  0x80 <= c < 0x800 ->
  utf8_decode (utf8_of_code_point c ++ bs) = c :: utf8_decode bs.
Proof.
  intros Hc. unfold utf8_of_code_point.
  destruct (N.ltb_spec c 0x80) as [H|_]; [lia|].
  destruct (N.ltb_spec c 0x800) as [_|H]; [|lia].
  cbn [app utf8_decode]. rewrite !to_N_byte_of_N by nlia.
  destruct (N.leb_spec (0xC0 + c / 64) 0x7F) as [H|_]; [nlia|].
  rewrite (in_range_true 0xC2 0xDF) by nlia.
  rewrite (in_range_true 0x80 0xBF) by nlia.
  f_equal. nlia.
Qed.

Lemma utf8_decode_3 (c : N) (bs : list byte) :
  0x800 <= c < 0x10000 ->
  c < 0xD800 \/ 0xDFFF < c ->
  utf8_decode (utf8_of_code_point c ++ bs) = c :: utf8_decode bs.
Proof.
  intros Hc Hs. unfold utf8_of_code_point.
  destruct (N.ltb_spec c 0x80) as [H|_]; [lia|].
  destruct (N.ltb_spec c 0x800) as [H|_]; [lia|].
  destruct (N.ltb_spec c 0x10000) as [_|H]; [|lia].
  cbn [app utf8_decode]. rewrite !to_N_byte_of_N by nlia.
  destruct (N.leb_spec (0xE0 + c / 4096) 0x7F) as [H|_]; [nlia|].
  rewrite (in_range_false 0xC2 0xDF) by nlia.
  rewrite (in_range_true 0xE0 0xEF) by nlia.
  destruct (N.eqb_spec (0xE0 + c / 4096) 0xE0) as [E0|E0];
    destruct (N.eqb_spec (0xE0 + c / 4096) 0xED) as [ED|ED];
    try (exfalso; nlia);
    (rewrite in_range_true by nlia);
    (rewrite (in_range_true 0x80 0xBF) by nlia);
    f_equal; nlia.
Qed.

Lemma utf8_decode_4 (h l : N) (bs : list byte) :
  0xD800 <= h <= 0xDBFF -> 0xDC00 <= l <= 0xDFFF ->
  utf8_decode
    (utf8_of_code_point (0x10000 + (h - 0xD800) * 1024 + (l - 0xDC00)) ++ bs) =
  h :: l :: utf8_decode bs.
Proof.
  intros Hh Hl.
  set (cp := 0x10000 + (h - 0xD800) * 1024 + (l - 0xDC00)).
  assert (Hcp : 0x10000 <= cp < 0x110000) by (unfold cp; lia).
  unfold utf8_of_code_point.
  destruct (N.ltb_spec cp 0x80) as [H|_]; [lia|].
  destruct (N.ltb_spec cp 0x800) as [H|_]; [lia|].
  destruct (N.ltb_spec cp 0x10000) as [H|_]; [lia|].
  cbn [app utf8_decode]. rewrite !to_N_byte_of_N by nlia.
  destruct (N.leb_spec (0xF0 + cp / 262144) 0x7F) as [H|_]; [nlia|].
  rewrite (in_range_false 0xC2 0xDF) by nlia.
  rewrite (in_range_false 0xE0 0xEF) by nlia.
  rewrite (in_range_true 0xF0 0xF4) by nlia.
  assert (Hunits :
    units_of_code_point
      ((0xF0 + cp / 262144 - 0xF0) * 262144 +
       (0x80 + (cp / 4096) mod 64 - 0x80) * 4096 +
       (0x80 + (cp / 64) mod 64 - 0x80) * 64 +
       (0x80 + cp mod 64 - 0x80)) = [h; l]).
  { replace (_ + _ + _ + _) with cp by nlia.
    unfold units_of_code_point.
    destruct (N.ltb_spec cp 0x10000) as [H|_]; [lia|].
    unfold cp. f_equal; [nlia | f_equal; nlia]. }
  destruct (N.eqb_spec (0xF0 + cp / 262144) 0xF0) as [E0|E0];
    destruct (N.eqb_spec (0xF0 + cp / 262144) 0xF4) as [E4|E4];
    try (exfalso; nlia);
    (rewrite in_range_true by nlia);
    (rewrite !(in_range_true 0x80 0xBF) by nlia);
    rewrite Hunits; reflexivity.
Qed.

Lemma surrogate_range (c : N) :
  (is_high_surrogate c = true <-> 0xD800 <= c <= 0xDBFF) /\
  (is_low_surrogate c = true <-> 0xDC00 <= c <= 0xDFFF).
Proof.
  unfold is_high_surrogate, is_low_surrogate, in_range.
  rewrite !andb_true_iff, !N.leb_le. tauto.
Qed.

Lemma not_surrogate (c : N) :
  is_high_surrogate c = false -> is_low_surrogate c = false ->
  c < 0xD800 \/ 0xDFFF < c.
Proof.
  intros Hh Hl. destruct (surrogate_range c) as [H1 H2].
  destruct (N.lt_ge_cases c 0xD800) as [|Hge]; [now left|].
  destruct (N.lt_ge_cases 0xDFFF c) as [|Hle]; [now right|].
  exfalso. destruct (N.lt_ge_cases c 0xDC00) as [Hlt|Hge'].
  - assert (is_high_surrogate c = true) by (apply H1; lia). congruence.
  - assert (is_low_surrogate c = true) by (apply H2; lia). congruence.
Qed.

(** One scalar value below U+10000, encoded and decoded. *)
Lemma utf8_decode_unit (c : N) (bs : list byte) :
  c < 0x10000 ->
  is_high_surrogate c = false -> is_low_surrogate c = false ->
  utf8_decode (utf8_of_code_point c ++ bs) = c :: utf8_decode bs.
Proof.
  intros Hc Hh Hl. pose proof (not_surrogate c Hh Hl) as Hs.
  destruct (N.lt_ge_cases c 0x80); [now apply utf8_decode_1|].
  destruct (N.lt_ge_cases c 0x800); [now apply utf8_decode_2|].
  now apply utf8_decode_3.
Qed.

(** The UTF-8 decoder undoes the encoder on well-formed text. *)
Lemma utf8_decode_encode (s : jsstring) :
  well_formed s -> utf8_decode (TextEncoder_encode s) = s.
Proof.
  induction 1 as [|c s Hc Hh Hl _ IH|h l s Hh Hl _ IH].
  - reflexivity.
  - cbn [TextEncoder_encode]. rewrite Hh, Hl.
    rewrite utf8_decode_unit by assumption. now rewrite IH.
  - cbn [TextEncoder_encode]. rewrite Hh, Hl.
    rewrite utf8_decode_4 by now apply surrogate_range.
    now rewrite IH.
Qed.

(** The encoding starts with EF BB BF only when the text starts with U+FEFF. *)
Lemma TextDecoder_decode_no_bom (bs : list byte) :
  (forall b0 r, bs = b0 :: r ->
     Byte.to_N b0 <> 0xEF \/
     exists b1 r1, r = b1 :: r1 /\
       (Byte.to_N b1 <> 0xBB \/
        exists b2 r2, r1 = b2 :: r2 /\ Byte.to_N b2 <> 0xBF)) ->
  TextDecoder_decode bs = utf8_decode bs.
Proof.
  intros H. unfold TextDecoder_decode.
  destruct bs as [|b0 [|b1 [|b2 r]]]; try reflexivity.
  destruct (H b0 _ eq_refl) as [H0|(b1' & r1 & E1 & [H1|(b2' & r2 & E2 & H2)])].
  - apply N.eqb_neq in H0. now rewrite H0.
  - injection E1 as <- <-. apply N.eqb_neq in H1.
    now rewrite H1, andb_false_r.
  - injection E1 as <- <-. injection E2 as <- <-. apply N.eqb_neq in H2.
    now rewrite H2, andb_false_r.
Qed.

Lemma TextDecoder_decode_encode (s : jsstring) :
  well_formed s -> starts_with_bom s = false ->
  TextDecoder_decode (TextEncoder_encode s) = s.
Proof.
  intros Hwf Hbom. rewrite TextDecoder_decode_no_bom.
  { now apply utf8_decode_encode. }
  intros b0 r Henc.
  destruct Hwf as [|c s Hc Hh Hl _|h l s Hh Hl _]; [discriminate|..].
  - cbn [TextEncoder_encode] in Henc. rewrite Hh, Hl in Henc.
    cbn [starts_with_bom] in Hbom. apply N.eqb_neq in Hbom.
    unfold utf8_of_code_point in Henc.
    destruct (N.ltb_spec c 0x80);
      [|destruct (N.ltb_spec c 0x800);
        [|destruct (N.ltb_spec c 0x10000); [|lia]]];
      cbn [app] in Henc; injection Henc as <- <-.
    + left. rewrite to_N_byte_of_N by lia. lia.
    + left. rewrite to_N_byte_of_N by nlia. nlia.
    + rewrite to_N_byte_of_N by nlia.
      destruct (N.eq_dec (0xE0 + c / 4096) 0xEF) as [E|E]; [right | now left].
      eexists _, _. split; [reflexivity|].
      rewrite to_N_byte_of_N by nlia.
      destruct (N.eq_dec (0x80 + (c / 64) mod 64) 0xBB) as [E'|E'];
        [right | now left].
      eexists _, _. split; [reflexivity|].
      rewrite to_N_byte_of_N by nlia. nlia.
  - cbn [TextEncoder_encode] in Henc. rewrite Hh, Hl in Henc.
    apply surrogate_range in Hh, Hl.
    set (cp := 0x10000 + (h - 0xD800) * 1024 + (l - 0xDC00)) in *.
    assert (Hcp : 0x10000 <= cp < 0x110000) by (unfold cp; lia).
    unfold utf8_of_code_point in Henc.
    destruct (N.ltb_spec cp 0x80) as [H|_]; [lia|].
    destruct (N.ltb_spec cp 0x800) as [H|_]; [lia|].
    destruct (N.ltb_spec cp 0x10000) as [H|_]; [lia|].
    cbn [app] in Henc. injection Henc as <- <-.
    left. rewrite to_N_byte_of_N by nlia. nlia.
Qed.

(** *** Base64 *)

Lemma b64_char_plain (i : N) :
  is_ascii_whitespace (b64_char i) = false /\ (b64_char i =? 0x3D) = false.
Proof.
  unfold b64_char, is_ascii_whitespace.
  destruct (N.ltb_spec i 26); [|destruct (N.ltb_spec i 52);
    [|destruct (N.ltb_spec i 62); [|destruct (N.eqb_spec i 62)]]];
    rewrite ?orb_false_iff, !N.eqb_neq; repeat split; lia.
Qed.

Lemma b64_index_char (i : N) : i < 64 -> b64_index (b64_char i) = Some i.
Proof.
  intros Hi. unfold b64_char, b64_index, in_range.
  destruct (N.ltb_spec i 26); [|destruct (N.ltb_spec i 52);
    [|destruct (N.ltb_spec i 62); [|destruct (N.eqb_spec i 62)]]];
    repeat match goal with
           | |- context [N.leb ?a ?b] => destruct (N.leb_spec a b); try lia
           | |- context [N.eqb ?a ?b] => destruct (N.eqb_spec a b); try lia
           end;
    cbn [andb]; f_equal; lia.
Qed.

Lemma list_ind3 {A} (P : list A -> Prop) :
  P [] -> (forall a, P [a]) -> (forall a b, P [a; b]) ->
  (forall a b c r, P r -> P (a :: b :: c :: r)) ->
  forall l, P l.
Proof.
  intros H0 H1 H2 H3.
  fix IH 1. intros [|a [|b [|c r]]]; [exact H0 | apply H1 | apply H2|].
  apply H3, IH.
Qed.

Lemma sextets_shape (s : jsstring) :
  Forall (fun c => c < 256) s ->
  bytes_of_sextets (sextets s) = s /\
  Forall (fun x => x < 64) (sextets s) /\
  (length (sextets s) + (3 - length s mod 3) mod 3 =
     4 * ((length s + 2) / 3))%nat /\
  (length (sextets s) mod 4 <> 1)%nat /\
  (s <> [] -> sextets s <> []).
Proof.
  induction s as [|a|a b|a b c r IH] using list_ind3; intros Hs.
  - repeat split; try constructor; cbn; congruence.
  - apply Forall_cons in Hs as [Ha _]. cbn [sextets bytes_of_sextets].
    split; [f_equal; nlia|]. split; [repeat constructor; nlia|].
    repeat split; cbn; congruence.
  - apply Forall_cons in Hs as [Ha Hs]. apply Forall_cons in Hs as [Hb _].
    cbn [sextets bytes_of_sextets].
    split; [f_equal; [nlia | f_equal; nlia]|].
    split; [repeat constructor; nlia|].
    repeat split; cbn; congruence.
  - apply Forall_cons in Hs as [Ha Hs]. apply Forall_cons in Hs as [Hb Hs].
    apply Forall_cons in Hs as [Hc Hs].
    destruct (IH Hs) as (IHb & IHf & IHl & IHm & _).
    cbn [sextets bytes_of_sextets]. rewrite IHb.
    split; [f_equal; [nlia | f_equal; [nlia | f_equal; nlia]]|].
    split; [repeat constructor; try nlia; exact IHf|].
    cbn [length]. split; [|split; [|discriminate]].
    + replace (S (S (S (length r))) mod 3)%nat with (length r mod 3)%nat
        by nlia.
      replace ((S (S (S (length r))) + 2) / 3)%nat
        with (S ((length r + 2) / 3)) by nlia.
      lia.
    + revert IHm. generalize (length (sextets r)). intros m Hm. nlia.
Qed.

Lemma filter_all {A} (P : A -> Prop) `{forall x, Decision (P x)} (l : list A) :
  Forall P l -> filter P l = l.
Proof.
  induction 1 as [|x l Hx _ IH]; [reflexivity|].
  rewrite filter_cons_True by exact Hx. now rewrite IH.
Qed.

Lemma mapM_b64_index (sx : list N) :
  Forall (fun x => x < 64) sx -> mapM b64_index (b64_char <$> sx) = Some sx.
Proof.
  intros H. apply mapM_Some_2.
  induction H as [|x sx Hx _ IH]; constructor; [now apply b64_index_char | exact IH].
Qed.

Lemma strip_padding_encoded (body : jsstring) (k : nat) :
  Forall (fun c => (c =? 0x3D) = false) body ->
  ((length body + k) mod 4 = 0)%nat ->
  (k <= 2)%nat -> (k <> 0%nat -> body <> []) ->
  strip_padding (body ++ replicate k 0x3D) = body.
Proof.
  intros Hbody Hlen Hk Hne. unfold strip_padding.
  rewrite length_app, length_replicate, Hlen. cbn [Nat.eqb].
  rewrite reverse_app, reverse_replicate.
  assert (Hrev : forall c r, reverse body = c :: r -> (c =? 0x3D) = false).
  { intros c r Hr. rewrite Forall_forall in Hbody. apply Hbody.
    apply elem_of_reverse. rewrite Hr. now left. }
  destruct k as [|[|[|k]]]; [| | |lia]; cbn [replicate app].
  - rewrite app_nil_r.
    destruct (reverse body) as [|c r] eqn:Hr; [reflexivity|].
    now rewrite (Hrev c r eq_refl).
  - destruct (reverse body) as [|c r] eqn:Hr.
    + exfalso. apply Hne; [discriminate|].
      rewrite <- (reverse_involutive body), Hr. reflexivity.
    + rewrite (Hrev c r eq_refl). cbn [N.eqb Pos.eqb].
      rewrite <- Hr. apply reverse_involutive.
  - destruct (reverse body) as [|c r] eqn:Hr.
    + exfalso. apply Hne; [discriminate|].
      rewrite <- (reverse_involutive body), Hr. reflexivity.
    + cbn [N.eqb Pos.eqb]. rewrite <- Hr. apply reverse_involutive.
Qed.

(** [atob] undoes [btoa]. *)
Lemma atob_btoa (s encoded : jsstring) :
  btoa s = Return encoded -> atob encoded = Return s.
Proof.
  unfold btoa. destruct (forallb _ s) eqn:Hbytes; [|discriminate].
  intros [= <-].
  assert (Hs : Forall (fun c => c < 256) s).
  { apply Forall_forall. intros c Hc.
    rewrite forallb_forall in Hbytes. apply N.ltb_lt, Hbytes.
    now apply list_elem_of_In. }
  destruct (sextets_shape s Hs) as (Hback & Hsx & Hlen & Hmod & Hne).
  unfold atob, b64_padding.
  rewrite filter_all.
  2:{ apply Forall_app. split.
      - apply Forall_fmap, Forall_true. intros i. apply b64_char_plain.
      - apply Forall_replicate. reflexivity. }
  rewrite strip_padding_encoded.
  - rewrite length_fmap.
    destruct (Nat.eqb_spec (length (sextets s) mod 4) 1) as [E|_];
      [contradiction|].
    now rewrite mapM_b64_index, Hback.
  - apply Forall_fmap, Forall_true. intros i. apply b64_char_plain.
  - rewrite length_fmap, Hlen. nlia.
  - nlia.
  - intros Hk Hnil. apply fmap_nil_inv in Hnil.
    apply Hne; [|exact Hnil]. intros ->. now apply Hk.
Qed.

(** The encoded text is longer than the bytes it encodes. *)
Lemma btoa_length (s encoded : jsstring) :
  btoa s = Return encoded ->
  (3 * length encoded = 4 * (3 * ((length s + 2) / 3)))%nat /\
  (length s <= length encoded)%nat.
Proof.
  unfold btoa. destruct (forallb _ s) eqn:Hbytes; [|discriminate].
  intros [= <-].
  assert (Hs : Forall (fun c => c < 256) s).
  { apply Forall_forall. intros c Hc.
    rewrite forallb_forall in Hbytes. apply N.ltb_lt, Hbytes.
    now apply list_elem_of_In. }
  destruct (sextets_shape s Hs) as (_ & _ & Hlen & _).
  rewrite length_app, length_fmap. unfold b64_padding.
  rewrite length_replicate, Hlen. nlia.
Qed.

End TextCoding.

(** ** [encryptApiKey] and [decryptApiKey] *)

Section Encryption.
Import Encryption Observe.

Lemma toy_crypto_laws : WebCryptoLaws toy_crypto.
Proof.
  split.
  - intros key iv data c H.
    assert (c = reverse data ++ replicate 16 x00) as ->
      by (cbn [aes_gcm_encrypt toy_crypto] in H; congruence).
    cbn [aes_gcm_decrypt toy_crypto].
    rewrite length_app, length_replicate.
    destruct (Nat.leb_spec 16 (length (reverse data) + 16)) as [_|H']; [|lia].
    replace (length (reverse data) + 16 - 16)%nat
      with (length (reverse data)) by lia.
    now rewrite take_app_length, reverse_involutive.
  - intros key iv data c H.
    assert (c = reverse data ++ replicate 16 x00) as ->
      by (cbn [aes_gcm_encrypt toy_crypto] in H; congruence).
    now rewrite length_app, length_replicate, length_reverse.
Qed.

Context {W : WebCrypto} {L : WebCryptoLaws W}.

Lemma Uint8Array_from_bytes (bs : list byte) :
  Uint8Array_from (Byte.to_N <$> bs) = bs.
Proof.
  induction bs as [|b bs IH]; [reflexivity|].
  cbn [fmap list_fmap Uint8Array_from map].
  rewrite byte_of_N_to_N. f_equal. exact IH.
Qed.

(** What [encryptApiKey] returns, when it returns. *)
Lemma encryptApiKey_returns (iv : list byte) (apiKey userId encrypted : jsstring) :
  encryptApiKey iv apiKey userId = Return encrypted ->
  exists key c,
    deriveKey userId = Return key /\
    aes_gcm_encrypt key iv (TextEncoder_encode apiKey) = Return c /\
    N.of_nat (length (iv ++ c)) <= max_arguments /\
    btoa (Byte.to_N <$> (iv ++ c)) = Return encrypted.
Proof.
  unfold encryptApiKey.
  destruct (deriveKey userId) as [e|key] eqn:Hkey; [discriminate|].
  cbn [bind try_catch].
  destruct (aes_gcm_encrypt key iv (TextEncoder_encode apiKey)) as [e|c]
    eqn:Hc; [discriminate|].
  cbn [bind try_catch]. unfold fromCharCode_spread.
  destruct (N.leb_spec (N.of_nat (length (iv ++ c))) max_arguments)
    as [Hmax|_]; [|discriminate].
  cbn [bind try_catch].
  destruct (btoa _) as [e|encoded] eqn:Hbtoa; [discriminate|].
  intros [= <-]. exists key, c. repeat split; assumption.
Qed.

(** Decryption undoes encryption up to the text codec. *)
Lemma decryptApiKey_encryptApiKey (iv : list byte)
    (apiKey userId encrypted : jsstring) :
  length iv = 12%nat ->
  encryptApiKey iv apiKey userId = Return encrypted ->
  decryptApiKey encrypted userId =
    Return (TextDecoder_decode (TextEncoder_encode apiKey)).
Proof.
  intros Hiv Henc.
  destruct (encryptApiKey_returns _ _ _ _ Henc)
    as (key & c & Hkey & Hc & _ & Hbtoa).
  unfold decryptApiKey. rewrite Hkey. cbn [bind].
  rewrite (atob_btoa _ _ Hbtoa). cbn [bind].
  rewrite Uint8Array_from_bytes.
  rewrite <- Hiv, take_app_length, drop_app_length.
  now rewrite (aes_gcm_decrypt_encrypt _ _ _ _ Hc).
Qed.

Lemma utf8_of_code_point_length (cp : N) :
  (1 <= length (utf8_of_code_point cp))%nat /\
  (0x10000 <= cp -> length (utf8_of_code_point cp) = 4%nat).
Proof.
  unfold utf8_of_code_point.
  destruct (N.ltb_spec cp 0x80); [|destruct (N.ltb_spec cp 0x800);
    [|destruct (N.ltb_spec cp 0x10000)]]; cbn; split; intros; lia.
Qed.

(** The encoding has at least as many bytes as the text has units. *)
Lemma TextEncoder_encode_length (s : jsstring) :
  (length s <= length (TextEncoder_encode s))%nat.
Proof.
  remember (length s) as n eqn:Hn. revert s Hn.
  induction n as [n IH] using lt_wf_ind. intros s ->.
  destruct s as [|c r]; [cbn; lia|].
  cbn [TextEncoder_encode].
  assert (Hr : (length r <= length (TextEncoder_encode r))%nat)
    by (apply (IH (length r)); [cbn; lia | reflexivity]).
  destruct (is_high_surrogate c) eqn:Hh.
  - destruct r as [|d r']; [cbn; lia|].
    destruct (is_low_surrogate d) eqn:Hl.
    + rewrite length_app.
      apply surrogate_range in Hh, Hl.
      rewrite (proj2 (utf8_of_code_point_length _)) by lia.
      assert ((length r' <= length (TextEncoder_encode r'))%nat)
        by (apply (IH (length r')); [cbn; lia | reflexivity]).
      cbn [length]. lia.
    + rewrite length_app.
      pose proof (proj1 (utf8_of_code_point_length 0xFFFD)).
      cbn [length] in *. lia.
  - destruct (is_low_surrogate c); rewrite length_app;
      [pose proof (proj1 (utf8_of_code_point_length 0xFFFD))
      |pose proof (proj1 (utf8_of_code_point_length c))];
      cbn [length] in *; lia.
Qed.

(** The stored text is longer than the key, so it is not the key. *)
Lemma encryptApiKey_longer (iv : list byte) (apiKey userId encrypted : jsstring) :
  encryptApiKey iv apiKey userId = Return encrypted ->
  (length apiKey + 16 <= length encrypted)%nat.
Proof.
  intros Henc.
  destruct (encryptApiKey_returns _ _ _ _ Henc)
    as (key & c & _ & Hc & _ & Hbtoa).
  apply btoa_length in Hbtoa as [_ Hlen].
  rewrite length_fmap, length_app in Hlen.
  rewrite (aes_gcm_encrypt_length _ _ _ _ Hc) in Hlen.
  pose proof (TextEncoder_encode_length apiKey). lia.
Qed.

End Encryption.

(** ** [saveApiKey] and [getApiKey] *)

Section KeyService.
Import Encryption ApiKeyService Observe.
Context {W : WebCrypto} {L : WebCryptoLaws W}.

(** A successful [saveApiKey] leaves the encrypted key in the user's row. *)
Lemma saveApiKey_success (iv : list byte) (userId apiKey : jsstring)
    (b : Backend) :
  success (saveApiKey iv userId apiKey b).1 = true ->
  exists encryptedKey,
    encryptApiKey iv apiKey userId = Return encryptedKey /\
    stored userId (saveApiKey iv userId apiKey b).2 = Some encryptedKey /\
    failure (saveApiKey iv userId apiKey b).2 = failure b.
Proof.
  unfold saveApiKey.
  destruct (encryptApiKey iv apiKey userId) as [e|encryptedKey];
    [discriminate|].
  intros Hok. exists encryptedKey. split; [reflexivity|]. revert Hok.
  unfold stored, send.
  destruct (failure b (length (received b))) as [e1|];
    cbn [data error table received failure uuid apply_query];
    (destruct (table b !! userId) as [row|] eqn:Hrow);
    cbn [data error table received failure uuid apply_query];
    rewrite length_app; cbn [length];
    (destruct (failure b (length (received b) + 1)) as [e2|]);
    rewrite ?Hrow;
    cbn [data error table received failure uuid fst snd success];
    try discriminate; intros _;
    now rewrite lookup_insert_eq.
Qed.

(** C1: when encryption fails [saveApiKey] sends nothing.  Otherwise it sends
    the lookup and one write for the user, an update when the lookup found
    the row and an insert when it did not, and the value written is what
    [encryptApiKey] returned: the base64 text of the 12-byte IV followed by
    the AES-GCM ciphertext of the UTF-8 key under the key derived from
    [userId].  That text differs from the key, no row of another user
    changes, and after a successful call it is the user's stored text. *)
Theorem saveApiKey_stores_ciphertext (iv : list byte)
    (userId apiKey : jsstring) (b : Backend) :
  length iv = 12%nat ->
  let res := (saveApiKey iv userId apiKey b).1 in
  let b' := (saveApiKey iv userId apiKey b).2 in
  (forall e, encryptApiKey iv apiKey userId = Throw e ->
     b' = b /\ success res = false) /\
  (forall encryptedKey,
     encryptApiKey iv apiKey userId = Return encryptedKey ->
     (exists key c bytes,
        deriveKey userId = Return key /\
        aes_gcm_encrypt key iv (TextEncoder_encode apiKey) = Return c /\
        take 12 bytes = iv /\ drop 12 bytes = c /\
        btoa (Byte.to_N <$> bytes) = Return encryptedKey) /\
     encryptedKey <> apiKey /\
     (row_visible userId b ->
        received b' =
          received b ++ [SelectId userId; Update userId encryptedKey]) /\
     (~ row_visible userId b ->
        received b' =
          received b ++ [SelectId userId; Insert userId encryptedKey]) /\
     (forall u, u <> userId -> table b' !! u = table b !! u) /\
     (stored userId b' = stored userId b \/
      stored userId b' = Some encryptedKey) /\
     (success res = true -> stored userId b' = Some encryptedKey) /\
     failure b' = failure b).
Proof.
  intros Hiv. cbv zeta. unfold saveApiKey. split.
  { intros e He. rewrite He. split; reflexivity. }
  intros encryptedKey Henc. rewrite Henc.
  split.
  { destruct (encryptApiKey_returns _ _ _ _ Henc)
      as (key & c & Hkey & Hc & _ & Hbtoa).
    exists key, c, (iv ++ c). repeat split; try assumption.
    - now rewrite <- Hiv, take_app_length.
    - now rewrite <- Hiv, drop_app_length. }
  split.
  { intros ->. apply encryptApiKey_longer in Henc. lia. }
  unfold row_visible, stored, send.
  destruct (failure b (length (received b))) as [e1|] eqn:Hf1;
    cbn [data error table received failure uuid apply_query].
  - (* the lookup fails: the insert is attempted *)
    rewrite length_app. cbn [length].
    destruct (failure b (length (received b) + 1)) as [e2|];
      [|destruct (table b !! userId) as [row|] eqn:Hrow];
      cbn [data error table received failure uuid fst snd success];
      rewrite <- ?app_assoc; cbn [app];
      (split; [intros [? _]; discriminate|]);
      (split; [reflexivity|]);
      (split; [intros u Hu; rewrite ?lookup_insert_ne by congruence; reflexivity|]);
      (split; [|split; [try discriminate | reflexivity]]);
      rewrite ?lookup_insert_eq, ?Hrow; auto.
  - destruct (table b !! userId) as [row|] eqn:Hrow;
      cbn [data error table received failure uuid];
      rewrite length_app; cbn [length];
      (destruct (failure b (length (received b) + 1)) as [e2|]);
      rewrite ?Hrow;
      cbn [data error table received failure uuid fst snd success];
      rewrite <- ?app_assoc; cbn [app];
      (split; [first [reflexivity | intros [_ [? ?]]; discriminate]|]);
      (split; [first [reflexivity | intros Hn; exfalso; apply Hn; eauto]|]);
      (split; [intros u Hu; rewrite ?lookup_insert_ne by congruence; reflexivity|]);
      (split; [|split; [try discriminate | reflexivity]]);
      rewrite ?lookup_insert_eq, ?Hrow; auto.
Qed.

(** C2, as amended: for a key that is well-formed UTF-16 and does not start
    with U+FEFF, decrypting what [encryptApiKey] returned with the same
    [userId] gives the key back; so [getApiKey], when its query does not
    fail, returns the key that a successful [saveApiKey] stored. *)
Theorem decryptApiKey_recovers_key (iv : list byte)
    (apiKey userId : jsstring) :
  length iv = 12%nat ->
  well_formed apiKey -> starts_with_bom apiKey = false ->
  (forall encrypted,
     encryptApiKey iv apiKey userId = Return encrypted ->
     decryptApiKey encrypted userId = Return apiKey) /\
  (forall b : Backend,
     success (saveApiKey iv userId apiKey b).1 = true ->
     failure b (length (received (saveApiKey iv userId apiKey b).2)) = None ->
     (getApiKey userId (saveApiKey iv userId apiKey b).2).1 =
       {| ApiKeyService.apiKey := Some apiKey; get_error := None |}).
Proof.
  intros Hiv Hwf Hbom.
  assert (Hround : forall encrypted,
    encryptApiKey iv apiKey userId = Return encrypted ->
    decryptApiKey encrypted userId = Return apiKey).
  { intros encrypted Henc.
    rewrite (decryptApiKey_encryptApiKey iv apiKey userId encrypted Hiv Henc).
    now rewrite TextDecoder_decode_encode. }
  split; [exact Hround|].
  intros b Hok Hquery.
  destruct (saveApiKey_success iv userId apiKey b Hok)
    as (encryptedKey & Henc & Hstored & Hfail).
  destruct (saveApiKey iv userId apiKey b) as [res b'].
  cbn [fst snd] in *. rewrite <- Hfail in Hquery.
  unfold getApiKey, send. rewrite Hquery.
  unfold stored in Hstored. apply fmap_Some in Hstored as (row & Hrow & ->).
  cbn [apply_query]. rewrite Hrow. cbn [error data fst].
  pose proof (encryptApiKey_longer _ _ _ _ Henc) as Hlen.
  destruct (encrypted_api_key row) as [|c r] eqn:Hkey; [cbn in Hlen; lia|].
  now rewrite (Hround _ Henc).
Qed.

End KeyService.

Section KeyServiceRuns.
Import Encryption ApiKeyService Observe.

(** Every key that [validateApiKeyFormat] accepts, as the settings page
    requires before it saves, is well-formed and has no byte order mark. *)
Lemma validateApiKeyFormat_well_formed (apiKey : jsstring) :
  validateApiKeyFormat apiKey = true ->
  well_formed apiKey /\ starts_with_bom apiKey = false.
Proof.
  unfold validateApiKeyFormat. intros H.
  apply andb_true_iff in H as [_ H].
  assert (Hchar : forall c, key_char c = true ->
            c < 0x80 /\ is_high_surrogate c = false /\
            is_low_surrogate c = false /\ (c =? 0xFEFF) = false).
  { intros c Hc. unfold key_char in Hc.
    assert (Hlt : c < 0x80).
    { repeat (apply orb_true_iff in Hc as [Hc|Hc]);
        try (apply andb_true_iff in Hc as [_ Hc]; apply N.leb_le in Hc; lia);
        apply N.eqb_eq in Hc; lia. }
    split; [exact Hlt|]. unfold is_high_surrogate, is_low_surrogate, in_range.
    repeat split;
      [apply andb_false_iff; left; apply N.leb_gt; lia
      |apply andb_false_iff; left; apply N.leb_gt; lia
      |apply N.eqb_neq; lia]. }
  split.
  - induction apiKey as [|c s IH]; [constructor|].
    cbn [forallb] in H. apply andb_true_iff in H as [Hc Hs].
    destruct (Hchar c Hc) as (Hlt & Hh & Hl & _).
    constructor; [lia | exact Hh | exact Hl | now apply IH].
  - destruct apiKey as [|c s]; [reflexivity|].
    cbn [forallb] in H. apply andb_true_iff in H as [Hc _].
    now destruct (Hchar c Hc) as (_ & _ & _ & Hbom).
Qed.

Lemma saveApiKey_stores_ciphertext_witness :
  exists encryptedKey,
    encryptApiKey (W := toy_crypto) zero_iv
      (lit "sk-0123456789abcdefghij") (lit "user-1") = Return encryptedKey /\
    stored (lit "user-1")
      (saveApiKey (W := toy_crypto) zero_iv (lit "user-1")
         (lit "sk-0123456789abcdefghij") empty_backend).2 =
      Some encryptedKey /\
    encryptedKey <> lit "sk-0123456789abcdefghij".
Proof.
  eexists. split; [vm_compute; reflexivity|].
  destruct (saveApiKey_stores_ciphertext (W := toy_crypto)
              (L := toy_crypto_laws) zero_iv (lit "user-1")
              (lit "sk-0123456789abcdefghij") empty_backend eq_refl)
    as [_ H].
  destruct (H _ ltac:(vm_compute; reflexivity))
    as (_ & Hne & _ & _ & _ & _ & Hstored & _).
  split; [apply Hstored; vm_compute; reflexivity | exact Hne].
Defined.

Lemma decryptApiKey_recovers_key_witness :
  exists encrypted,
    encryptApiKey (W := toy_crypto) zero_iv
      (lit "sk-0123456789abcdefghij") (lit "user-1") = Return encrypted /\
    decryptApiKey (W := toy_crypto) encrypted (lit "user-1") =
      Return (lit "sk-0123456789abcdefghij").
Proof.
  eexists. split; [vm_compute; reflexivity|].
  apply (decryptApiKey_recovers_key (W := toy_crypto) (L := toy_crypto_laws)
           zero_iv (lit "sk-0123456789abcdefghij") (lit "user-1")).
  - reflexivity.
  - apply validateApiKeyFormat_well_formed. reflexivity.
  - reflexivity.
  - vm_compute. reflexivity.
Defined.

(** C2, as stated, fails: a key that starts with U+FEFF comes back without
    it, and an unpaired surrogate comes back as U+FFFD. *)
Lemma decryptApiKey_changes_key :
  (exists encrypted,
      encryptApiKey (W := toy_crypto) zero_iv bom_key (lit "user-1") =
        Return encrypted /\
      decryptApiKey (W := toy_crypto) encrypted (lit "user-1") =
        Return (lit "sk-0123456789abcdefghij") /\
      lit "sk-0123456789abcdefghij" <> bom_key) /\
  (exists encrypted,
      encryptApiKey (W := toy_crypto) zero_iv lone_surrogate_key
        (lit "user-1") = Return encrypted /\
      decryptApiKey (W := toy_crypto) encrypted (lit "user-1") =
        Return (lit "sk-0123456789" ++ [0xFFFD] ++ lit "abcdefghij") /\
      lit "sk-0123456789" ++ [0xFFFD] ++ lit "abcdefghij" <>
        lone_surrogate_key).
Proof.
  split; eexists; (split; [vm_compute; reflexivity|]);
    (split; [vm_compute; reflexivity | discriminate]).
Qed.

(** The same on the service: after a successful save of [bom_key],
    [getApiKey] returns the key without its first unit. *)
Lemma getApiKey_after_saveApiKey_bom :
  success (saveApiKey (W := toy_crypto) zero_iv (lit "user-1") bom_key
             empty_backend).1 = true /\
  (getApiKey (W := toy_crypto) (lit "user-1")
     (saveApiKey (W := toy_crypto) zero_iv (lit "user-1") bom_key
        empty_backend).2).1 =
    {| ApiKeyService.apiKey := Some (lit "sk-0123456789abcdefghij");
       get_error := None |}.
Proof. split; vm_compute; reflexivity. Qed.

End KeyServiceRuns.

(** ** [retryWithBackoff] *)

Section RetryWithBackoff.
Import Retry Outcomes.

Lemma retry_loop_success {T} (fn : nat -> Exc T) (m d : Z) (v : T) :
  forall (k remaining i : nat) (lastError : thrown),
    (k < remaining)%nat ->
    (i + remaining = Z.to_nat m)%nat ->
    (forall j, (j < k)%nat -> exists e, fn (i + j)%nat = Throw e) ->
    fn (i + k)%nat = Return v ->
    retry_loop fn m d remaining i lastError =
      (backoff d i k ++ [Call (i + k)], Return v).
Proof.
  induction k as [|k IH]; intros remaining i lastError Hk Hrem Hfail Hok.
  - destruct remaining as [|remaining]; [lia|]. cbn [retry_loop].
    rewrite Nat.add_0_r in Hok. rewrite Hok. now rewrite Nat.add_0_r.
  - destruct remaining as [|remaining]; [lia|]. cbn [retry_loop].
    destruct (Hfail 0%nat ltac:(lia)) as [e He].
    rewrite Nat.add_0_r in He. rewrite He.
    rewrite (IH remaining (S i) e); [|lia|lia| |].
    + assert ((Z.of_nat i <? m - 1)%Z = true) as -> by (apply Z.ltb_lt; lia).
      unfold backoff. cbn [seq flat_map app].
      now replace (i + S k)%nat with (S i + k)%nat by lia.
    + intros j Hj. replace (S i + j)%nat with (i + S j)%nat by lia.
      apply Hfail. lia.
    + now replace (S i + k)%nat with (i + S k)%nat by lia.
Qed.

Lemma retry_loop_exhausted {T} (fn : nat -> Exc T) (m d : Z)
    (err : nat -> thrown) :
  forall (remaining i : nat) (lastError : thrown),
    (i + S remaining = Z.to_nat m)%nat ->
    (forall j, (j <= remaining)%nat -> fn (i + j)%nat = Throw (err (i + j)%nat)) ->
    retry_loop fn m d (S remaining) i lastError =
      (backoff d i remaining ++ [Call (i + remaining)],
       Throw (err (i + remaining)%nat)).
Proof.
  induction remaining as [|remaining IH]; intros i lastError Hrem Hfail.
  - cbn [retry_loop]. pose proof (Hfail 0%nat ltac:(lia)) as He.
    rewrite Nat.add_0_r in He. rewrite He.
    assert ((Z.of_nat i <? m - 1)%Z = false) as -> by (apply Z.ltb_ge; lia).
    now rewrite Nat.add_0_r.
  - cbn [retry_loop]. pose proof (Hfail 0%nat ltac:(lia)) as He.
    rewrite Nat.add_0_r in He. rewrite He.
    cbn [retry_loop] in IH. rewrite (IH (S i) (err i)); [|lia|].
    + assert ((Z.of_nat i <? m - 1)%Z = true) as -> by (apply Z.ltb_lt; lia).
      unfold backoff. cbn [seq flat_map app].
      now replace (i + S remaining)%nat with (S i + remaining)%nat by lia.
    + intros j Hj. replace (S i + j)%nat with (i + S j)%nat by lia.
      apply Hfail. lia.
Qed.

Lemma calls_backoff (d : Z) (i k : nat) : calls (backoff d i k) = seq i k.
Proof.
  revert i. induction k as [|k IH]; intros i; [reflexivity|].
  unfold backoff in *. cbn [seq flat_map app calls omap]. cbn.
  f_equal. apply IH.
Qed.

Lemma waits_backoff (d : Z) (i k : nat) :
  waits (backoff d i k) = map (fun j => d * 2 ^ Z.of_nat j)%Z (seq i k).
Proof.
  revert i. induction k as [|k IH]; intros i; [reflexivity|].
  unfold backoff in *. cbn [seq flat_map app map]. cbn.
  f_equal. apply IH.
Qed.

Lemma calls_app (t1 t2 : list Event) : calls (t1 ++ t2) = calls t1 ++ calls t2.
Proof. apply omap_app. Qed.

Lemma waits_app (t1 t2 : list Event) : waits (t1 ++ t2) = waits t1 ++ waits t2.
Proof. apply omap_app. Qed.

Lemma backoff_total (d : Z) (k : nat) :
  foldr Z.add 0%Z (map (fun j => d * 2 ^ Z.of_nat j)%Z (seq 0 k)) =
    (d * (2 ^ Z.of_nat k - 1))%Z.
Proof.
  induction k as [|k IH]; [cbn; lia|].
  rewrite seq_S, map_app, foldr_app. cbn [map foldr Nat.add].
  assert (Hshift : forall (l : list Z) (a : Z),
            foldr Z.add a l = (foldr Z.add 0 l + a)%Z).
  { induction l as [|x l IHl]; intros a; cbn [foldr]; [lia|].
    rewrite IHl. lia. }
  rewrite Hshift, IH, Nat2Z.inj_succ, Z.pow_succ_r by lia. lia.
Qed.

(** X1: [retryWithBackoff], when the call of [fn] number [k] is the first that
    succeeds and [k < maxRetries]: the value of that call is returned, [fn]
    has been called [k + 1] times, and after the failed call number [j] the
    function has paused [initialDelay * 2^j] ms, [initialDelay * (2^k - 1)]
    ms in all. *)
Theorem retryWithBackoff_first_success {T} (fn : nat -> Exc T)
    (maxRetries initialDelay : Z) (k : nat) (v : T) :
  (Z.of_nat k < maxRetries)%Z ->
  (forall j, (j < k)%nat -> exists e, fn j = Throw e) ->
  fn k = Return v ->
  let tr := (retryWithBackoff fn maxRetries initialDelay).1 in
  (retryWithBackoff fn maxRetries initialDelay).2 = Return v /\
  tr = backoff initialDelay 0 k ++ [Call k] /\
  calls tr = seq 0 (S k) /\
  waits tr = map (fun j => initialDelay * 2 ^ Z.of_nat j)%Z (seq 0 k) /\
  foldr Z.add 0%Z (waits tr) = (initialDelay * (2 ^ Z.of_nat k - 1))%Z.
Proof.
  intros Hk Hfail Hok. cbv zeta. unfold retryWithBackoff.
  rewrite (retry_loop_success fn maxRetries initialDelay v k); try assumption;
    [|lia|lia].
  cbn [fst snd Nat.add].
  rewrite calls_app, waits_app, calls_backoff, waits_backoff, seq_S.
  cbn [calls waits omap Nat.add]. cbn. rewrite app_nil_r.
  repeat split. apply backoff_total.
Qed.

Lemma retryWithBackoff_first_success_witness :
  retryWithBackoff third_time_lucky default_maxRetries default_initialDelay =
    ([Call 0; Wait 1000; Call 1; Wait 2000; Call 2], Return 7%Z) /\
  foldr Z.add 0%Z
    (waits (retryWithBackoff third_time_lucky default_maxRetries
              default_initialDelay).1) = 3000%Z.
Proof.
  destruct (retryWithBackoff_first_success third_time_lucky
              default_maxRetries default_initialDelay 2 7%Z) as (H2 & H1 & _ & _ & Ht).
  - reflexivity.
  - intros j Hj. destruct j as [|[|j]]; [eexists; reflexivity..|lia].
  - reflexivity.
  - split; [|exact Ht].
    destruct (retryWithBackoff _ _ _) as [tr res]. cbn [fst snd] in *.
    now subst.
Defined.

(** X2: [retryWithBackoff], when all [maxRetries] calls fail: it throws the error
    of the last call, after [maxRetries] calls and [maxRetries - 1] pauses,
    none after the last call.  With [maxRetries <= 0] it never calls [fn] and
    throws [undefined]. *)
Theorem retryWithBackoff_exhausted {T} (fn : nat -> Exc T)
    (maxRetries initialDelay : Z) (err : nat -> thrown) :
  (forall j, (Z.of_nat j < maxRetries)%Z -> fn j = Throw (err j)) ->
  let n := Z.to_nat maxRetries in
  let tr := (retryWithBackoff fn maxRetries initialDelay).1 in
  ((maxRetries <= 0)%Z ->
     retryWithBackoff fn maxRetries initialDelay = ([], Throw NonError)) /\
  ((0 < maxRetries)%Z ->
     (retryWithBackoff fn maxRetries initialDelay).2 =
       Throw (err (n - 1)%nat) /\
     tr = backoff initialDelay 0 (n - 1) ++ [Call (n - 1)] /\
     calls tr = seq 0 n /\
     waits tr =
       map (fun j => initialDelay * 2 ^ Z.of_nat j)%Z (seq 0 (n - 1))).
Proof.
  intros Hfail. cbv zeta. unfold retryWithBackoff. split.
  - intros Hle. now replace (Z.to_nat maxRetries) with 0%nat by lia.
  - intros Hpos.
    destruct (Z.to_nat maxRetries) as [|n] eqn:Hn; [lia|].
    rewrite (retry_loop_exhausted fn maxRetries initialDelay err);
      [|lia|intros j Hj; apply Hfail; lia].
    cbn [fst snd Nat.add]. rewrite Nat.sub_succ, Nat.sub_0_r.
    rewrite calls_app, waits_app, calls_backoff, waits_backoff, seq_S.
    cbn [calls waits omap Nat.add]. cbn. rewrite app_nil_r.
    repeat split.
Qed.

Lemma retryWithBackoff_exhausted_witness :
  retryWithBackoff always_failing default_maxRetries default_initialDelay =
    ([Call 0; Wait 1000; Call 1; Wait 2000; Call 2],
     Throw (new_Error (lit "2"))) /\
  retryWithBackoff always_failing 0 default_initialDelay =
    ([], Throw NonError).
Proof.
  destruct (retryWithBackoff_exhausted always_failing default_maxRetries
              default_initialDelay (fun i => new_Error (show_N (N.of_nat i))))
    as (_ & Hpos); [reflexivity|].
  destruct (Hpos ltac:(reflexivity)) as (H2 & H1 & _).
  destruct (retryWithBackoff_exhausted always_failing 0
              default_initialDelay (fun i => new_Error (show_N (N.of_nat i))))
    as (Hzero & _); [reflexivity|].
  split; [|exact (Hzero ltac:(reflexivity))].
  destruct (retryWithBackoff always_failing default_maxRetries _) as [tr res].
  cbn [fst snd] in *. now subst.
Defined.

End RetryWithBackoff.

(** ** [deleteApiKey], [hasApiKey] and the results of the key service *)

Section KeyAdmin.
Import Encryption ApiKeyService ApiKeyAdmin Observe.
Context {W : WebCrypto} {L : WebCryptoLaws W}.

Lemma decryptApiKey_throws (encryptedData userId : jsstring) (e : thrown) :
  decryptApiKey encryptedData userId = Throw e ->
  e = new_Error (lit "Failed to decrypt API key").
Proof.
  unfold decryptApiKey.
  destruct (let* key := deriveKey userId in _) as [e'|k];
    cbn [try_catch]; congruence.
Qed.

Lemma encryptApiKey_throws (iv : list byte) (apiKey userId : jsstring)
    (e : thrown) :
  encryptApiKey iv apiKey userId = Throw e ->
  e = new_Error (lit "Failed to encrypt API key").
Proof.
  unfold encryptApiKey.
  destruct (let* key := deriveKey userId in _) as [e'|k];
    cbn [try_catch]; congruence.
Qed.

(** What [getApiKey] answers when its query is not refused. *)
Lemma getApiKey_answered (userId : jsstring) (b : Backend) :
  failure b (length (received b)) = None ->
  (getApiKey userId b).1 =
    match stored userId b with
    | None | Some [] => {| apiKey := None; get_error := None |}
    | Some c =>
        match decryptApiKey c userId with
        | Return k => {| apiKey := Some k; get_error := None |}
        | Throw _ =>
            {| apiKey := None;
               get_error := Some (lit "Failed to decrypt API key") |}
        end
    end.
Proof.
  intros Hf. unfold getApiKey, send, stored. rewrite Hf.
  cbn [apply_query].
  destruct (table b !! userId) as [row|]; cbn [error data fst fmap option_fmap option_map];
    [|reflexivity].
  destruct (encrypted_api_key row) as [|c r]; [reflexivity|].
  destruct (decryptApiKey (c :: r) userId) as [e|k] eqn:Hd; [|reflexivity].
  now rewrite (decryptApiKey_throws _ _ _ Hd).
Qed.

(** What [getApiKey] answers when its query is refused. *)
Lemma getApiKey_refused (userId : jsstring) (b : Backend) (e : DbError) :
  failure b (length (received b)) = Some e ->
  (getApiKey userId b).1 =
    if decide (code e = lit "PGRST116")
    then {| apiKey := None; get_error := None |}
    else {| apiKey := None;
            get_error := Some
              match as_thrown e with
              | ErrorObject _ msg => msg
              | NonError => lit "Failed to retrieve API key"
              end |}.
Proof.
  intros Hf. unfold getApiKey, send. rewrite Hf. cbn [error data].
  now destruct (decide (code e = lit "PGRST116")).
Qed.

(** X3: A successful [deleteApiKey] removes the user's row and no other; after it
    [hasApiKey] answers false and [getApiKey], when its query is not refused,
    reports neither a key nor an error.  Deleting again changes nothing.  A
    refused deletion leaves the backend as it was and reports a message. *)
Theorem deleteApiKey_removes_key (userId : jsstring) (b : Backend) :
  let b' := (deleteApiKey None userId b).2 in
  (deleteApiKey None userId b).1 = {| success := true; save_error := None |} /\
  stored userId b' = None /\
  (forall u, u <> userId -> table b' !! u = table b !! u) /\
  (hasApiKey userId b').1 = false /\
  (failure b (length (received b)) = None ->
     (getApiKey userId b').1 = {| apiKey := None; get_error := None |}) /\
  deleteApiKey None userId b' =
    ({| success := true; save_error := None |}, b') /\
  (forall e,
     (deleteApiKey (Some e) userId b).2 = b /\
     success (deleteApiKey (Some e) userId b).1 = false /\
     is_Some (save_error (deleteApiKey (Some e) userId b).1)).
Proof.
  cbv zeta. cbn [deleteApiKey fst snd].
  split; [reflexivity|]. split.
  { unfold stored. cbn [table]. now rewrite lookup_delete_eq. }
  split.
  { intros u Hu. cbn [table]. now rewrite lookup_delete_ne by congruence. }
  split.
  { unfold hasApiKey, send. cbn [failure received table uuid apply_query].
    destruct (failure b (length (received b))); cbn [data fst];
      [reflexivity|].
    rewrite lookup_delete_eq. cbn [data fst]. apply bool_decide_eq_false.
    intros [? ?]; discriminate. }
  split.
  { intros Hf. rewrite getApiKey_answered by exact Hf.
    unfold stored. cbn [table]. now rewrite lookup_delete_eq. }
  split.
  { f_equal. cbn [table received failure uuid]. f_equal.
    apply delete_delete_eq. }
  intros e. repeat split. cbn [save_error]. eauto.
Qed.

(** X4: [hasApiKey] answers true exactly when its query is not refused and the
    user has a row; it sends that one query and changes no row.  So it
    answers true after a successful [saveApiKey] if its query is not
    refused, and false for a user whose key is stored when it is. *)
Theorem hasApiKey_spec (userId : jsstring) (b : Backend) :
  ((hasApiKey userId b).1 = true <-> row_visible userId b) /\
  table (hasApiKey userId b).2 = table b /\
  received (hasApiKey userId b).2 = received b ++ [SelectId userId] /\
  (forall iv apiKey,
     let b' := (saveApiKey iv userId apiKey b).2 in
     success (saveApiKey iv userId apiKey b).1 = true ->
     ((hasApiKey userId b').1 = true <->
      failure b (length (received b')) = None)).
Proof.
  assert (Hiff : forall b0 : Backend,
            (hasApiKey userId b0).1 = true <-> row_visible userId b0).
  { intros b0. unfold hasApiKey, row_visible, send.
    destruct (failure b0 (length (received b0))) as [e|];
      cbn [apply_query data fst].
    - split; [intros H; now apply bool_decide_eq_true in H as [? ?]
             |intros [? _]; discriminate].
    - destruct (table b0 !! userId) as [row|]; cbn [data fst].
      + split; [intros _; split; [reflexivity|eauto]
               |intros _; apply bool_decide_eq_true; eauto].
      + split; [intros H; now apply bool_decide_eq_true in H as [? ?]
               |intros [_ [? ?]]; discriminate]. }
  split; [apply Hiff|].
  split; [|split].
  - unfold hasApiKey, send.
    destruct (failure b (length (received b))); [reflexivity|].
    cbn [apply_query]. now destruct (table b !! userId).
  - unfold hasApiKey, send.
    destruct (failure b (length (received b))); [reflexivity|].
    cbn [apply_query]. now destruct (table b !! userId).
  - intros iv apiKey. cbv zeta. intros Hok.
    destruct (saveApiKey_success iv userId apiKey b Hok)
      as (c & _ & Hstored & Hfail).
    rewrite Hiff. unfold row_visible. rewrite Hfail.
    unfold stored in Hstored. apply fmap_Some in Hstored as (row & Hrow & _).
    rewrite Hrow. split; [tauto | eauto].
Qed.

(** X5: [getApiKey] sends one query and changes no row.  It returns a key
    exactly when the query is not refused and the user's row holds a
    non-empty text that [decryptApiKey] turns into that key, and never a
    key together with an error.  A missing row, also when reported as
    PGRST116, is no error; a stored text that cannot be decrypted gives the
    error "Failed to decrypt API key"; any other refusal gives an error. *)
Theorem getApiKey_result (userId : jsstring) (b : Backend) :
  let res := (getApiKey userId b).1 in
  let n := length (received b) in
  table (getApiKey userId b).2 = table b /\
  received (getApiKey userId b).2 = received b ++ [SelectEncryptedKey userId] /\
  (apiKey res = None \/ get_error res = None) /\
  (forall k,
     apiKey res = Some k <->
     failure b n = None /\
     exists c, stored userId b = Some c /\ c <> [] /\
               decryptApiKey c userId = Return k) /\
  (failure b n = None -> stored userId b = None ->
     res = {| apiKey := None; get_error := None |}) /\
  (forall c e,
     failure b n = None -> stored userId b = Some c -> c <> [] ->
     decryptApiKey c userId = Throw e ->
     res = {| apiKey := None;
              get_error := Some (lit "Failed to decrypt API key") |}) /\
  (forall e,
     failure b n = Some e ->
     apiKey res = None /\
     (get_error res = None <-> code e = lit "PGRST116")).
Proof.
  cbv zeta.
  split.
  { unfold getApiKey, send.
    destruct (failure b (length (received b))) as [e|]; cbn [error data].
    - now destruct (decide (code e = lit "PGRST116")).
    - cbn [apply_query]. destruct (table b !! userId) as [row|];
        cbn [error data]; [|reflexivity].
      destruct (encrypted_api_key row); [reflexivity|].
      now destruct (decryptApiKey _ _). }
  split.
  { unfold getApiKey, send.
    destruct (failure b (length (received b))) as [e|]; cbn [error data].
    - now destruct (decide (code e = lit "PGRST116")).
    - cbn [apply_query]. destruct (table b !! userId) as [row|];
        cbn [error data]; [|reflexivity].
      destruct (encrypted_api_key row); [reflexivity|].
      now destruct (decryptApiKey _ _). }
  destruct (failure b (length (received b))) as [e|] eqn:Hf.
  - rewrite (getApiKey_refused _ _ _ Hf).
    destruct (decide (code e = lit "PGRST116")) as [Hc|Hc]; cbn [apiKey get_error].
    + split; [now left|]. split; [intros k; split; [discriminate|intros [? _]; discriminate]|].
      split; [discriminate|]. split; [discriminate|].
      intros e' [= <-]. split; [reflexivity|]. tauto.
    + split; [now left|]. split; [intros k; split; [discriminate|intros [? _]; discriminate]|].
      split; [discriminate|]. split; [discriminate|].
      intros e' [= <-]. split; [reflexivity|]. split; [discriminate|tauto].
  - rewrite (getApiKey_answered _ _ Hf).
    destruct (stored userId b) as [[|u c]|] eqn:Hs; cbn [apiKey get_error].
    + split; [now left|].
      split; [intros k; split; [discriminate|intros (_ & c' & [= <-] & Hne & _); congruence]|].
      split; [reflexivity|]. split; [intros c' e _ [= <-] Hne; congruence|].
      discriminate.
    + destruct (decryptApiKey (u :: c) userId) as [e|k0] eqn:Hd;
        cbn [apiKey get_error].
      * split; [now left|].
        split; [intros k; split; [discriminate|intros (_ & c' & [= <-] & _ & Hk); congruence]|].
        split; [discriminate|]. split; [reflexivity|]. discriminate.
      * split; [now right|].
        split; [intros k; split;
                 [intros [= <-]; split; [reflexivity|]; exists (u :: c);
                  split; [reflexivity|]; split; [discriminate|exact Hd]
                 |intros (_ & c' & [= <-] & _ & Hk); congruence]|].
        split; [discriminate|].
        split; [intros c' e _ [= <-] _ Hthrow; congruence|]. discriminate.
    + split; [now left|].
      split; [intros k; split; [discriminate|intros (_ & c' & ? & _); discriminate]|].
      split; [reflexivity|]. split; [discriminate|]. discriminate.
Qed.

(** X6: [saveApiKey] succeeds exactly when encryption returns, the write is not
    refused, and the lookup before it, if it was refused, concerned a user
    without a row: the answer of the lookup is what selects update or insert,
    and its error is not looked at.  It reports a message exactly when it
    does not succeed, "Failed to encrypt API key" when encryption fails. *)
Theorem saveApiKey_success_iff (iv : list byte) (userId apiKey : jsstring)
    (b : Backend) :
  let res := (saveApiKey iv userId apiKey b).1 in
  let n := length (received b) in
  (success res = true <->
     (exists c, encryptApiKey iv apiKey userId = Return c) /\
     failure b (S n) = None /\
     (is_Some (failure b n) -> table b !! userId = None)) /\
  (success res = true <-> save_error res = None) /\
  (forall e, encryptApiKey iv apiKey userId = Throw e ->
     res = {| success := false;
              save_error := Some (lit "Failed to encrypt API key") |}).
Proof.
  cbv zeta. unfold saveApiKey.
  destruct (encryptApiKey iv apiKey userId) as [e|c] eqn:Henc.
  { rewrite (encryptApiKey_throws _ _ _ _ Henc). cbn [fst success save_error].
    split; [split; [discriminate|intros [[c ?] _]; discriminate]|].
    split; [split; discriminate|]. reflexivity. }
  unfold send.
  destruct (failure b (length (received b))) as [e1|] eqn:Hf1;
    cbn [data error table received failure uuid apply_query];
    (destruct (table b !! userId) as [row|] eqn:Hrow);
    cbn [data error table received failure uuid apply_query];
    rewrite length_app; cbn [length];
    replace (length (received b) + 1)%nat with (S (length (received b)))
      by lia;
    (destruct (failure b (S (length (received b)))) as [e2|]);
    rewrite ?Hrow;
    cbn [data error table received failure uuid fst snd success save_error];
    (split; [split|split; [split|]]);
    first
      [ discriminate
      | reflexivity
      | intros _; split; [eauto|];
        split; [reflexivity|];
        first [intros _; reflexivity | intros [? ?]; discriminate]
      | intros (_ & H2 & H3);
        first [reflexivity | discriminate
              | specialize (H3 ltac:(eauto)); discriminate] ].
Qed.

End KeyAdmin.

(** ** The settings page *)

Section Settings.
Import Encryption ApiKeyService ApiKeyAdmin SettingsPage Observe.
Context {W : WebCrypto} {L : WebCryptoLaws W}.

Lemma key_char_not_whitespace (c : N) :
  key_char c = true -> is_whitespace c = false.
Proof.
  unfold key_char, is_whitespace. intros H.
  repeat (apply orb_true_iff in H as [H|H]);
    try (apply andb_true_iff in H as [H1 H2];
         apply N.leb_le in H1; apply N.leb_le in H2);
    try apply N.eqb_eq in H;
    repeat (apply orb_false_iff; split);
    try (apply andb_false_iff;
         first [left; apply N.leb_gt; lia | right; apply N.leb_gt; lia]);
    apply N.eqb_neq; lia.
Qed.

(** A key of the accepted format has no white space to trim. *)
Lemma trim_valid_key (apiKey : jsstring) :
  validateApiKeyFormat apiKey = true ->
  trim apiKey = apiKey /\ (20 <= length apiKey)%nat.
Proof.
  unfold validateApiKeyFormat, jslength. intros H.
  apply andb_true_iff in H as [Hlen Hall]. apply Nat.leb_le in Hlen.
  split; [|exact Hlen].
  assert (Hstart : forall s, forallb key_char s = true -> trim_start s = s).
  { intros [|c s] Hs; [reflexivity|]. cbn [forallb] in Hs.
    apply andb_true_iff in Hs as [Hc _]. cbn [trim_start].
    now rewrite (key_char_not_whitespace c Hc). }
  unfold trim. rewrite (Hstart apiKey Hall).
  rewrite Hstart; [apply reverse_involutive|].
  apply forallb_forall. intros c Hc.
  rewrite forallb_forall in Hall. apply Hall.
  now apply list_elem_of_In, elem_of_reverse, list_elem_of_In.
Qed.

(** X7: [handleSaveApiKey] reaches the backend only with a signed-in user and a
    key of the accepted format: otherwise the backend is left as it was and
    the page shows at most one error.  With both, the page calls
    [saveApiKey] with the text as typed; when that succeeds it keeps the key
    and shows its first 3 units, 12 bullets and its last 4 units, and when
    it fails it shows one error and keeps nothing.  The loading flag is
    raised and lowered around the call. *)
Theorem handleSaveApiKey_guards (iv : list byte) (sid : option jsstring)
    (editValue : jsstring) (b : Backend) :
  let tr := (handleSaveApiKey iv sid editValue b).1 in
  let b' := (handleSaveApiKey iv sid editValue b).2 in
  (session_user sid = None -> tr = [] /\ b' = b) /\
  (validateApiKeyFormat editValue = false ->
     b' = b /\
     (tr = [] \/ exists msg, tr = [Toast BatchProcessor.toast_error msg])) /\
  (forall userId,
     session_user sid = Some userId ->
     validateApiKeyFormat editValue = true ->
     b' = (saveApiKey iv userId editValue b).2 /\
     (success (saveApiKey iv userId editValue b).1 = true ->
        tr = [SetIsLoading true;
              Toast BatchProcessor.toast_success (lit "API key saved!");
              SetApiKey editValue;
              SetMaskedKey
                (Some (take 3 editValue ++ replicate 12 bullet ++
                       drop (length editValue - 4) editValue));
              SetEditValue []; SetHasExistingKey true; SetIsEditing false;
              SetShowApiKey false; SetIsLoading false]) /\
     (success (saveApiKey iv userId editValue b).1 = false ->
        exists msg,
          tr = [SetIsLoading true; Toast BatchProcessor.toast_error msg;
                SetIsLoading false])).
Proof.
  cbv zeta. unfold handleSaveApiKey. split; [|split].
  - intros ->. split; reflexivity.
  - intros Hbad. destruct (session_user sid) as [userId|];
      [|split; [reflexivity | now left]].
    destruct (Nat.eqb _ 0); [split; [reflexivity | right; eauto]|].
    rewrite Hbad. cbn [negb]. split; [reflexivity | right; eauto].
  - intros userId -> Hok.
    destruct (trim_valid_key _ Hok) as [-> Hlen].
    destruct (Nat.eqb_spec (length editValue) 0) as [E|_]; [lia|].
    rewrite Hok. cbn [negb].
    destruct (saveApiKey iv userId editValue b) as [res b1].
    cbn [fst snd]. split; [reflexivity|]. split.
    + intros ->. rewrite maskApiKey_long by lia. reflexivity.
    + intros ->. eexists. reflexivity.
Qed.

(** With a signed-in user and a key of the accepted format, the backend
    after [handleSaveApiKey] is the one after [saveApiKey]. *)
Lemma handleSaveApiKey_backend (iv : list byte) (sid : option jsstring)
    (userId editValue : jsstring) (b : Backend) :
  session_user sid = Some userId ->
  validateApiKeyFormat editValue = true ->
  (handleSaveApiKey iv sid editValue b).2 =
    (saveApiKey iv userId editValue b).2.
Proof.
  intros Hsid Hok. destruct (trim_valid_key _ Hok) as [Htrim Hlen].
  unfold handleSaveApiKey. rewrite Hsid, Htrim.
  destruct (Nat.eqb_spec (length editValue) 0) as [E|_]; [lia|].
  rewrite Hok. cbn [negb]. now destruct (saveApiKey iv userId editValue b).
Qed.

(** After a successful save of a key of the accepted format, [getApiKey]
    returns it when its query is not refused. *)
Lemma getApiKey_after_saveApiKey (iv : list byte)
    (userId apiKey : jsstring) (b : Backend) :
  length iv = 12%nat ->
  validateApiKeyFormat apiKey = true ->
  success (saveApiKey iv userId apiKey b).1 = true ->
  failure b (length (received (saveApiKey iv userId apiKey b).2)) = None ->
  (getApiKey userId (saveApiKey iv userId apiKey b).2).1 =
    {| ApiKeyService.apiKey := Some apiKey; get_error := None |}.
Proof.
  intros Hiv Hok Hsaved Hquery.
  destruct (saveApiKey_success iv userId apiKey b Hsaved)
    as (c & Henc & Hstored & Hfail).
  rewrite getApiKey_answered by now rewrite Hfail.
  rewrite Hstored.
  pose proof (encryptApiKey_longer _ _ _ _ Henc) as Hc.
  destruct c as [|u c]; [cbn in Hc; lia|].
  rewrite (decryptApiKey_encryptApiKey iv apiKey userId _ Hiv Henc).
  destruct (validateApiKeyFormat_well_formed _ Hok) as [Hwf Hbom].
  now rewrite (TextDecoder_decode_encode _ Hwf Hbom).
Qed.

(** X8: What the settings page saved is what it shows when it is opened again:
    after a successful save of a key of the accepted format, [loadApiKey],
    when its query is not refused, sets that very key and its masked
    form. *)
Theorem loadApiKey_after_handleSaveApiKey (iv : list byte)
    (sid : option jsstring) (userId editValue : jsstring) (b : Backend) :
  length iv = 12%nat ->
  session_user sid = Some userId ->
  validateApiKeyFormat editValue = true ->
  let b' := (handleSaveApiKey iv sid editValue b).2 in
  success (saveApiKey iv userId editValue b).1 = true ->
  failure b (length (received b')) = None ->
  (loadApiKey sid b').1 =
    [SetIsPageLoading true; SetApiKey editValue;
     SetMaskedKey (Some (maskApiKey editValue)); SetHasExistingKey true;
     SetIsPageLoading false].
Proof.
  intros Hiv Hsid Hok. cbv zeta. intros Hsaved Hquery.
  rewrite (handleSaveApiKey_backend iv sid userId editValue b Hsid Hok) in *.
  pose proof (getApiKey_after_saveApiKey iv userId editValue b Hiv Hok
                Hsaved Hquery) as Hget.
  unfold loadApiKey. rewrite Hsid.
  destruct (getApiKey userId _) as [res b2]. cbn [fst] in *. subst res.
  cbn [get_error apiKey].
  destruct (trim_valid_key _ Hok) as [_ Hlen].
  destruct editValue as [|k key]; [cbn in Hlen; lia|]. reflexivity.
Qed.

(** X9: After a deletion from the settings page that is carried out, the page
    holds no key and, opened again, finds none and shows no error; a
    refused deletion shows one error and leaves the backend as it was. *)
Theorem handleDeleteApiKey_then_loadApiKey (sid : option jsstring)
    (userId : jsstring) (b : Backend) :
  session_user sid = Some userId ->
  (handleDeleteApiKey None sid b).1 =
    [SetIsLoading true;
     Toast BatchProcessor.toast_success (lit "API key deleted");
     SetApiKey []; SetMaskedKey None; SetEditValue [];
     SetHasExistingKey false; SetIsEditing false; SetIsLoading false] /\
  stored userId (handleDeleteApiKey None sid b).2 = None /\
  (failure b (length (received b)) = None ->
     (loadApiKey sid (handleDeleteApiKey None sid b).2).1 =
       [SetIsPageLoading true; SetIsPageLoading false]) /\
  (forall e,
     (handleDeleteApiKey (Some e) sid b).2 = b /\
     exists msg,
       msg <> [] /\
       (handleDeleteApiKey (Some e) sid b).1 =
         [SetIsLoading true; Toast BatchProcessor.toast_error msg;
          SetIsLoading false]).
Proof.
  intros Hsid. unfold handleDeleteApiKey. rewrite Hsid.
  cbn [deleteApiKey success fst snd app].
  split; [reflexivity|]. split.
  { unfold stored. cbn [table]. now rewrite lookup_delete_eq. }
  split.
  { intros Hf. unfold loadApiKey. rewrite Hsid.
    pose proof (getApiKey_answered userId
                  {| table := delete userId (table b); received := received b;
                     failure := failure b; uuid := uuid b |} Hf) as Hget.
    unfold stored in Hget. cbn [table] in Hget.
    rewrite lookup_delete_eq in Hget. cbn in Hget.
    destruct (getApiKey userId _) as [res b2]. cbn [fst] in *. now subst res. }
  intros e. split; [reflexivity|].
  cbn [save_error]. unfold or_str.
  destruct (as_thrown e) as [name [|c msg]|]; eexists;
    (split; [|reflexivity]); discriminate.
Qed.

End Settings.

Section SettingsRuns.
Import Encryption ApiKeyService ApiKeyAdmin SettingsPage Observe.

Lemma handleSaveApiKey_guards_witness :
  (handleSaveApiKey (W := toy_crypto) zero_iv (Some (lit "user-1"))
     (lit "sk-0123") empty_backend).2 = empty_backend /\
  (handleSaveApiKey (W := toy_crypto) zero_iv None
     (lit "sk-0123456789abcdefghij") empty_backend).2 = empty_backend.
Proof.
  destruct (handleSaveApiKey_guards (W := toy_crypto) zero_iv
              (Some (lit "user-1")) (lit "sk-0123") empty_backend)
    as (_ & Hbad & _).
  destruct (handleSaveApiKey_guards (W := toy_crypto) zero_iv None
              (lit "sk-0123456789abcdefghij") empty_backend)
    as (Hnone & _).
  split; [exact (proj1 (Hbad eq_refl)) | exact (proj2 (Hnone eq_refl))].
Defined.

Lemma loadApiKey_after_handleSaveApiKey_witness :
  (loadApiKey (W := toy_crypto) (Some (lit "user-1"))
     (handleSaveApiKey (W := toy_crypto) zero_iv (Some (lit "user-1"))
        (lit "sk-0123456789abcdefghij") empty_backend).2).1 =
    [SetIsPageLoading true; SetApiKey (lit "sk-0123456789abcdefghij");
     SetMaskedKey (Some (maskApiKey (lit "sk-0123456789abcdefghij")));
     SetHasExistingKey true; SetIsPageLoading false].
Proof.
  apply (loadApiKey_after_handleSaveApiKey (W := toy_crypto)
           (L := toy_crypto_laws) zero_iv (Some (lit "user-1"))
           (lit "user-1") (lit "sk-0123456789abcdefghij") empty_backend);
    vm_compute; reflexivity.
Defined.

Lemma handleDeleteApiKey_then_loadApiKey_witness :
  (loadApiKey (W := toy_crypto) (Some (lit "user-1"))
     (handleDeleteApiKey None (Some (lit "user-1"))
        (handleSaveApiKey (W := toy_crypto) zero_iv (Some (lit "user-1"))
           (lit "sk-0123456789abcdefghij") empty_backend).2).2).1 =
    [SetIsPageLoading true; SetIsPageLoading false].
Proof.
  destruct (handleDeleteApiKey_then_loadApiKey (W := toy_crypto)
              (Some (lit "user-1")) (lit "user-1")
              (handleSaveApiKey (W := toy_crypto) zero_iv
                 (Some (lit "user-1")) (lit "sk-0123456789abcdefghij")
                 empty_backend).2 eq_refl) as (_ & _ & H & _).
  apply H. reflexivity.
Defined.

End SettingsRuns.

(** ** The results of a batch *)

Section BatchResults.
Import BatchProcessor BatchStatus Observe Outcomes.

Lemma process_file_recorded (env : Env) (apiKey : jsstring) (i : nat)
    (file : DC.File) (rs : list FileResult) :
  (process_file env apiKey i file rs).2 =
    update i (recorded (verdict env apiKey i (Some file))) rs.
Proof.
  unfold process_file, verdict, recorded.
  destruct (DC.fileToBase64 (reader env i file)) as [e|base64];
    cbn [bind snd]; [reflexivity|].
  destruct (DC.extractText _ _ _ _) as [e|result]; cbn [snd]; [reflexivity|].
  destruct (DC.error result), (DC.data result); cbn [snd]; try reflexivity.
  unfold update. symmetry. now apply list_alter_id.
Qed.

Lemma retry_file_recorded (env : Env) (apiKey : jsstring) (i : nat)
    (file : option DC.File) (rs : list FileResult) :
  (retry_file env apiKey i file rs).2 =
    update i (recorded (verdict env apiKey i file)) rs.
Proof.
  unfold retry_file, verdict, recorded.
  destruct file as [file|]; [|reflexivity].
  destruct (DC.fileToBase64 (reader env i file)) as [e|base64];
    cbn [bind snd]; [reflexivity|].
  destruct (DC.extractText _ _ _ _) as [e|result]; cbn [snd]; [reflexivity|].
  destruct (DC.error result), (DC.data result); cbn [snd]; try reflexivity.
  unfold update. symmetry. now apply list_alter_id.
Qed.

(** An answer is an error or data, so what is recorded is settled. *)
Lemma recorded_settled (env : Env) (apiKey : jsstring) (i : nat)
    (file : option DC.File) (r : FileResult) :
  settled (recorded (verdict env apiKey i file) r).
Proof.
  unfold verdict, recorded.
  destruct file as [file|]; [|apply settled_mark_failed].
  destruct (DC.fileToBase64 (reader env i file)) as [e|base64];
    cbn [bind]; [apply settled_mark_failed|].
  unfold DC.extractText.
  destruct (extractText_with_returns (fetch env i) (template base64) apiKey
              (DC.file_type file) DC.default_promptType)
    as (result & -> & [(d & Hd & He) | (e & Hd & He)]);
    rewrite He, ?Hd;
    [apply settled_mark_success | apply settled_mark_failed].
Qed.

Lemma processFiles_loop_final (env : Env) (apiKey : jsstring) (n : nat) :
  forall (rest : list DC.File) (i : nat) (rs : list FileResult) (k : nat),
    (processFiles_loop env apiKey n i rest rs).2 !! k =
      match rest !! (k - i)%nat with
      | Some file =>
          if (i <=? k)%nat
          then (fun r => recorded (verdict env apiKey k (Some file))
                           (mark_processing r)) <$> rs !! k
          else rs !! k
      | None => rs !! k
      end.
Proof.
  induction rest as [|file rest IH]; intros i rs k; [reflexivity|].
  cbn [processFiles_loop].
  pose proof (process_file_recorded env apiKey i file
                (update i mark_processing rs)) as Hrec.
  destruct (process_file env apiKey i file _) as [evs rs2].
  cbn [snd] in Hrec. subst rs2.
  specialize (IH (S i) (update i (recorded (verdict env apiKey i (Some file)))
                          (update i mark_processing rs)) k).
  destruct (processFiles_loop env apiKey n (S i) rest _) as [tr final].
  cbn [snd] in *. rewrite IH. unfold update.
  destruct (Nat.leb_spec i k) as [Hik|Hik].
  - destruct (decide (k = i)) as [->|Hne].
    + rewrite Nat.sub_diag. replace (i - S i)%nat with 0%nat by lia.
      cbn [lookup list_lookup].
      destruct (Nat.leb_spec (S i) i) as [?|_]; [lia|].
      assert (Hi : alter (recorded (verdict env apiKey i (Some file))) i
                     (alter mark_processing i rs) !! i =
                   (fun r => recorded (verdict env apiKey i (Some file))
                               (mark_processing r)) <$> rs !! i).
      { rewrite !list_lookup_alter_eq. now destruct (rs !! i). }
      destruct rest; cbn [lookup list_lookup]; exact Hi.
    + replace (k - i)%nat with (S (k - S i)) by lia.
      cbn [lookup list_lookup].
      destruct (Nat.leb_spec (S i) k) as [_|?]; [|lia].
      rewrite !list_lookup_alter_ne by congruence. reflexivity.
  - replace (k - i)%nat with 0%nat by lia.
    replace (k - S i)%nat with 0%nat by lia.
    destruct (Nat.leb_spec (S i) k) as [?|_]; [lia|].
    rewrite !list_lookup_alter_ne by lia.
    now destruct (rest !! 0%nat).
Qed.

Lemma processFiles_final (env : Env) (apiKey : jsstring)
    (files : list DC.File) (k : nat) (file : DC.File) :
  files !! k = Some file ->
  (processFiles env apiKey files (initial_results files)).2 !! k =
    Some (recorded (verdict env apiKey k (Some file))
            (entry file processing None None None)).
Proof.
  intros Hk. unfold processFiles.
  pose proof (processFiles_loop_final env apiKey (length files) files 0
                (initial_results files) k) as H.
  destruct (processFiles_loop _ _ _ _ _ _) as [tr final].
  cbn [snd] in *. rewrite H, Nat.sub_0_r, Hk. cbn [Nat.leb].
  unfold initial_results. rewrite list_lookup_fmap, Hk. reflexivity.
Qed.

(** What [processFiles] leaves at the index of a file, from any results. *)
Lemma processFiles_final_any (env : Env) (apiKey : jsstring)
    (files : list DC.File) (results : list FileResult) (k : nat)
    (file : DC.File) :
  files !! k = Some file ->
  (processFiles env apiKey files results).2 !! k =
    (fun r => recorded (verdict env apiKey k (Some file)) (mark_processing r))
      <$> results !! k.
Proof.
  intros Hk. unfold processFiles.
  pose proof (processFiles_loop_final env apiKey (length files) files 0
                results k) as H.
  destruct (processFiles_loop _ _ _ _ _ _) as [tr final].
  cbn [snd] in *. now rewrite H, Nat.sub_0_r, Hk.
Qed.

(** *** The delay between files *)

(** C5, as amended: whatever the files, the results and the outcomes,
    [processFiles] over [n] files goes through them in order; file [j] is
    read and, when the read succeeds, sent to the OCR API, and then, for
    every [j < n-1], a delay of 500 ms comes before file [j+1] is read;
    nothing follows the last file.  The request of file [j] is the call of
    [extractText] whose answer is recorded for file [j].  So the reads and
    delays alternate, the read of file [j] at position [2j] and a delay at
    position [2j+1], and every delay is one of 500 ms. *)
Theorem processFiles_delays (env : Env) (apiKey : jsstring)
    (files : list DC.File) (results : list FileResult) :
  let tr := (processFiles env apiKey files results).1 in
  let final := (processFiles env apiKey files results).2 in
  let n := length files in
  pace tr = flat_map (file_pace env files) (seq 0 n) /\
  (forall j file url,
      files !! j = Some file -> reader env j file = DC.reader_load url ->
      request_of j ∈ pace tr /\
      final !! j =
        (fun r =>
           recorded
             (DC.extractText (fetch env j) (template (DC.split_comma_1 url))
                apiKey (DC.file_type file))
             (mark_processing r)) <$> results !! j) /\
  length (schedule tr) = (2 * n - 1)%nat /\
  (forall j, (j < n)%nat -> schedule tr !! (2 * j)%nat = Some (inl j)) /\
  (forall j, (j < n - 1)%nat ->
      schedule tr !! (2 * j + 1)%nat = Some (inr 500)) /\
  (forall ms, Delay ms ∈ tr -> ms = 500).
Proof.
  cbv zeta.
  assert (Hpace : pace (processFiles env apiKey files results).1 =
                  flat_map (file_pace env files) (seq 0 (length files))).
  { unfold processFiles.
    pose proof (processFiles_loop_pace env apiKey files files 0 results
                  eq_refl) as Hloop.
    destruct (processFiles_loop env apiKey (length files) 0 files results)
      as [tr final].
    cbn [fst] in *.
    change (SetIsProcessing true :: tr ++ ?l)
      with ([SetIsProcessing true] ++ tr ++ l).
    rewrite !pace_app, Hloop.
    destruct (Nat.eqb _ _); cbn; apply app_nil_r. }
  split; [exact Hpace|]. split; [|apply processFiles_schedule].
  intros j file url Hfile Hurl. split.
  - rewrite Hpace. apply list_elem_of_In, in_flat_map. exists j. split.
    + apply in_seq. apply lookup_lt_Some in Hfile. lia.
    + unfold file_pace, read_succeeds. rewrite Hfile, Hurl. right. left.
      reflexivity.
  - rewrite (processFiles_final_any _ _ _ _ _ _ Hfile).
    unfold verdict. rewrite Hurl. reflexivity.
Qed.

Lemma processFiles_delays_witness :
  pace (processFiles answering (lit "key") [scan_jpg; scan_png]
          (initial_results [scan_jpg; scan_png])).1 =
    [read_of 0; request_of 0; wait_of 500; read_of 1; request_of 1].
Proof.
  destruct (processFiles_delays answering (lit "key") [scan_jpg; scan_png]
              (initial_results [scan_jpg; scan_png])) as [Hpace _].
  exact Hpace.
Defined.

(** C5, as stated, fails: the delay is tied to the file, not to its OCR
    invocation.  When the second of two files cannot be read, the only
    invocation is followed by a delay; when the second of three cannot be
    read, two delays lie between two consecutive invocations. *)
Lemma processFiles_delay_without_request :
  pace (processFiles first_only (lit "key") [scan_jpg; scan_png]
          (initial_results [scan_jpg; scan_png])).1 =
    [read_of 0; request_of 0; wait_of 500; read_of 1] /\
  pace (processFiles second_unreadable (lit "key")
          [scan_jpg; scan_png; page_png]
          (initial_results [scan_jpg; scan_png; page_png])).1 =
    [read_of 0; request_of 0; wait_of 500; read_of 1; wait_of 500;
     read_of 2; request_of 2].
Proof. split; reflexivity. Qed.

(** X10: From the initial results, [processFiles] records for every file the
    answer to its own read and its own request, whatever happens to the
    other files: "Failed to read file" when the file cannot be read, the
    text and the token count when [extractText] returns data, its message
    when it returns an error; the fields it does not set stay unset. *)
Theorem processFiles_records (env : Env) (apiKey : jsstring)
    (files : list DC.File) (k : nat) (file : DC.File) :
  files !! k = Some file ->
  let final := (processFiles env apiKey files (initial_results files)).2 in
  (reader env k file = DC.reader_error ->
     final !! k =
       Some (entry file failed None (Some (lit "Failed to read file")) None)) /\
  (forall url result,
     reader env k file = DC.reader_load url ->
     DC.extractText (fetch env k) (template (DC.split_comma_1 url)) apiKey
       (DC.file_type file) = Return result ->
     (forall d,
        DC.data result = Some d -> DC.error result = None ->
        final !! k =
          Some (entry file success (Some (DC.text d)) None
                  (Some (DC.tokensUsed d)))) /\
     (forall e,
        DC.error result = Some e ->
        final !! k =
          Some (entry file failed None (Some (DC.message e)) None))).
Proof.
  intros Hk. cbv zeta. rewrite (processFiles_final _ _ _ _ _ Hk).
  unfold verdict, recorded. split.
  - intros ->. reflexivity.
  - intros url result -> Hres. cbn [DC.fileToBase64 bind]. rewrite Hres.
    split.
    + intros d -> ->. reflexivity.
    + intros e ->. reflexivity.
Qed.

Lemma processFiles_records_witness :
  (processFiles first_only (lit "key") [scan_jpg; scan_png]
     (initial_results [scan_jpg; scan_png])).2 =
    [entry scan_jpg success (Some (lit "ok")) None (Some 7%Z);
     entry scan_png failed None (Some (lit "Failed to read file")) None].
Proof.
  destruct (processFiles_records first_only (lit "key") [scan_jpg; scan_png]
              0 scan_jpg eq_refl) as [_ H0].
  destruct (H0 _ _ eq_refl eq_refl) as [H0d _].
  specialize (H0d _ eq_refl eq_refl).
  destruct (processFiles_records first_only (lit "key") [scan_jpg; scan_png]
              1 scan_png eq_refl) as [H1 _].
  specialize (H1 eq_refl).
  apply list_eq. intros [|[|k]]; [exact H0d | exact H1 | reflexivity].
Defined.

Lemma settled_complete (rs : list FileResult) :
  Forall settled rs ->
  allComplete rs = true /\
  (successCount rs + errorCount rs = length rs)%nat.
Proof.
  unfold allComplete, successCount, errorCount.
  induction 1 as [|r rs Hr _ [IH1 IH2]]; [split; reflexivity|].
  cbn [forallb]. rewrite IH1, !filter_cons.
  destruct Hr as [(Hs & _) | (Hs & _)]; rewrite Hs;
    (destruct (decide (success = success)) as [_|?];
     destruct (decide (failed = failed)) as [_|?];
     destruct (decide (success = failed)) as [?|_];
     destruct (decide (failed = success)) as [?|_]; try congruence);
    cbn [length]; split; try reflexivity; lia.
Qed.

(** X11: When [processFiles] has run from the initial results, every file counts
    as succeeded or as failed; the closing notification reports these two
    counts, and names success only when no file failed; the start button is
    gone, and the download and the retry buttons are offered exactly when
    there is something to download or to retry.  Before the run, with at
    least one file, only the start button is offered. *)
Theorem processFiles_completes (env : Env) (apiKey : jsstring)
    (files : list DC.File) :
  let init := initial_results files in
  let tr := (processFiles env apiKey files init).1 in
  let final := (processFiles env apiKey files init).2 in
  allComplete final = true /\
  (successCount final + errorCount final = length files)%nat /\
  last tr =
    Some (if Nat.eqb (errorCount final) 0 then
            Toast toast_success
              (lit "All " ++ show_N (N.of_nat (length files)) ++
               lit " files processed successfully!")
          else
            Toast toast_info
              (lit "Completed: " ++ show_N (N.of_nat (successCount final)) ++
               lit " succeeded, " ++ show_N (N.of_nat (errorCount final)) ++
               lit " failed")) /\
  (forall isProcessing, shows_start isProcessing final = false) /\
  shows_download final = (0 <? successCount final)%nat /\
  shows_retry final = (0 <? errorCount final)%nat /\
  (files <> [] ->
     shows_start false init = true /\ shows_download init = false /\
     shows_retry init = false).
Proof.
  cbv zeta.
  destruct (processFiles_accepted env apiKey files) as (_ & _ & Hlen & Hall).
  assert (Hsettled : Forall settled
            (processFiles env apiKey files (initial_results files)).2).
  { apply Forall_lookup. intros k r Hk.
    destruct (Hall k) as (r' & Hr' & Hs).
    - rewrite <- Hlen. now apply lookup_lt_Some in Hk.
    - congruence. }
  destruct (settled_complete _ Hsettled) as [Hcomplete Hcount].
  rewrite Hlen in Hcount.
  split; [exact Hcomplete|]. split; [exact Hcount|]. split.
  { revert Hcount. unfold processFiles, successCount, errorCount, successful.
    destruct (processFiles_loop _ _ _ _ _ _) as [tr final]. cbn [fst snd].
    intros Hcount.
    change (SetIsProcessing true :: tr ++ ?l) with
      ((SetIsProcessing true :: tr) ++ l).
    rewrite last_app. cbn [last].
    destruct (Nat.eqb_spec
                (length (filter (fun r => status r = success) final))
                (length files)) as [E|E];
      destruct (Nat.eqb_spec
                  (length (filter (fun r => status r = failed) final)) 0)
        as [E'|E']; try lia; [reflexivity|].
    replace (length files - _)%nat
      with (length (filter (fun r => status r = failed) final)) by lia.
    reflexivity. }
  unfold shows_start, shows_download, shows_retry. rewrite Hcomplete.
  split; [intros b; now destruct b|]. split; [reflexivity|].
  split; [reflexivity|].
  intros Hne. destruct files as [|f fs]; [congruence|]. cbn.
  repeat split.
Qed.

(** *** After a retry *)

Lemma retryFailed_loop_final (env : Env) (apiKey : jsstring)
    (files : list DC.File) :
  forall (indices : list nat) (rs : list FileResult) (k : nat),
    NoDup indices ->
    (retryFailed_loop env apiKey files (Z.of_nat <$> indices) rs).2 !! k =
      if decide (k ∈ indices)
      then (fun r => recorded (verdict env apiKey k (files !! k))
                       (mark_retrying r)) <$> rs !! k
      else rs !! k.
Proof.
  induction indices as [|i indices IH]; intros rs k Hnd; [reflexivity|].
  apply NoDup_cons in Hnd as [Hi Hnd].
  cbn [fmap list_fmap retryFailed_loop]. rewrite Nat2Z.id.
  pose proof (retry_file_recorded env apiKey i (files !! i)
                (update i mark_retrying rs)) as Hrec.
  destruct (retry_file env apiKey i (files !! i) _) as [evs rs2].
  cbn [snd] in Hrec. subst rs2.
  specialize (IH (update i (recorded (verdict env apiKey i (files !! i)))
                    (update i mark_retrying rs)) k Hnd).
  change (list_fmap nat Z Z.of_nat indices) with (Z.of_nat <$> indices).
  destruct (retryFailed_loop env apiKey files _ _) as [tr final].
  cbn [snd] in *. rewrite IH. unfold update.
  destruct (decide (k = i)) as [->|Hne].
  - destruct (decide (i ∈ indices)) as [?|_]; [contradiction|].
    destruct (decide (i ∈ i :: indices)) as [_|Hn];
      [|exfalso; apply Hn; left].
    rewrite !list_lookup_alter_eq. now destruct (rs !! i).
  - rewrite !list_lookup_alter_ne by congruence.
    destruct (decide (k ∈ indices)) as [Hin|Hin];
      destruct (decide (k ∈ i :: indices)) as [Hin'|Hin'];
      try reflexivity; exfalso.
    + apply Hin'. now right.
    + apply elem_of_cons in Hin' as [?|?]; [congruence | contradiction].
Qed.

Lemma failed_from_NoDup (rs : list FileResult) (o : nat) :
  NoDup (failed_from o rs).
Proof.
  destruct (failed_from_spec rs o) as [Hsorted _].
  induction Hsorted as [|i l _ IH Hall]; constructor; [|exact IH].
  intros Hin. rewrite List.Forall_forall in Hall.
  apply list_elem_of_In in Hin. specialize (Hall _ Hin). lia.
Qed.

(** What [retryFailed] leaves at index [k]. *)
Lemma retryFailed_final (env : Env) (apiKey : jsstring)
    (files : list DC.File) (results : list FileResult) (k : nat) :
  (retryFailed env apiKey files results).2 !! k =
    (fun r => if decide (status r = failed)
              then recorded (verdict env apiKey k (files !! k))
                     (mark_retrying r)
              else r) <$> results !! k.
Proof.
  unfold retryFailed. rewrite failedIndices_failed_from, length_fmap.
  destruct (failed_from_spec results 0) as [_ Hmem].
  assert (Hk : k ∈ failed_from 0 results <->
               status_at k results = Some failed).
  { rewrite Hmem, Nat.sub_0_r. split; [tauto | split; [lia | assumption]]. }
  destruct (Nat.eqb_spec (length (failed_from 0 results)) 0) as [E|_].
  - cbn [snd]. apply length_zero_iff_nil in E. rewrite E in Hk.
    unfold status_at in Hk. destruct (results !! k) as [r|]; [|reflexivity].
    cbn [fmap option_fmap option_map] in *.
    destruct (decide (status r = failed)) as [Hs|_]; [|reflexivity].
    exfalso. apply (not_elem_of_nil k), Hk. now rewrite Hs.
  - pose proof (retryFailed_loop_final env apiKey files
                  (failed_from 0 results) results k
                  (failed_from_NoDup results 0)) as H.
    destruct (retryFailed_loop env apiKey files _ results) as [tr final].
    cbn [snd] in *. rewrite H. unfold status_at in Hk.
    destruct (results !! k) as [r|];
      cbn [fmap option_fmap option_map] in *.
    + destruct (decide (k ∈ failed_from 0 results)) as [Hin|Hin];
        destruct (decide (status r = failed)) as [Hs|Hs];
        try reflexivity; exfalso.
      * apply Hk in Hin. congruence.
      * apply Hin, Hk. now rewrite Hs.
    + now destruct (decide (k ∈ failed_from 0 results)).
Qed.

(** C6, as amended: [retryFailed] works through exactly the files whose
    status is "error", in ascending index order: each of them is read again,
    and those whose read succeeds are sent to the OCR API.  A retried file
    is recorded as success or as error afterwards, under its name; one
    whose read fails is recorded as error again, with the message of the
    failed read, and is not sent.  Every other file's record is the same in
    every value handed to [setResults] and at the end.  When no file has
    status "error" nothing is read, sent or changed. *)
Theorem retryFailed_frame (env : Env) (apiKey : jsstring)
    (files : list DC.File) (results : list FileResult) :
  let tr := (retryFailed env apiKey files results).1 in
  let final := (retryFailed env apiKey files results).2 in
  StronglySorted lt (reads tr) /\
  (forall i, i ∈ reads tr <-> status_at i results = Some failed) /\
  ocr_requests tr =
    filter (fun i => read_succeeds env files i = true) (reads tr) /\
  (forall i r,
      results !! i = Some r -> status r <> failed ->
      final !! i = Some r /\
      Forall (fun rs => rs !! i = Some r) (snapshots tr)) /\
  ((forall i, status_at i results <> Some failed) ->
      reads tr = [] /\ ocr_requests tr = [] /\ snapshots tr = [] /\
      final = results) /\
  (forall i r,
      results !! i = Some r -> status r = failed ->
      (exists r',
          final !! i = Some r' /\ settled r' /\
          filename r' = filename r /\ file r' = file r) /\
      (read_succeeds env files i = false ->
         (i ∉ ocr_requests tr) /\
         final !! i =
           Some {| filename := filename r; file := file r; status := failed;
                   extractedText := extractedText r;
                   error := Some
                     match files !! i with
                     | Some _ => lit "Failed to read file"
                     | None => message_of (undefined_file env)
                     end;
                   tokensUsed := tokensUsed r |})).
Proof.
  cbv zeta.
  destruct (retryFailed_reads_and_frame env apiKey files results)
    as (Hsorted & Hreads & Hocr & Hframe & Hnone).
  repeat (split; [assumption|]).
  intros i r Hi Hs.
  pose proof (retryFailed_final env apiKey files results i) as Hfinal.
  rewrite Hi in Hfinal. cbn [fmap option_fmap option_map] in Hfinal.
  destruct (decide (status r = failed)) as [_|?]; [|contradiction].
  split.
  - eexists. split; [exact Hfinal|]. split; [apply recorded_settled|].
    unfold recorded.
    destruct (verdict env apiKey i (files !! i)) as [e|result];
      [split; reflexivity|].
    destruct (DC.error result), (DC.data result); split; reflexivity.
  - intros Hread. split.
    + rewrite Hocr. intros Hin. apply list_elem_of_filter in Hin as [Hin _].
      congruence.
    + rewrite Hfinal. unfold read_succeeds in Hread. unfold verdict.
      destruct (files !! i) as [f|]; [|reflexivity].
      destruct (reader env i f); [reflexivity | discriminate].
Qed.

Lemma retryFailed_frame_witness :
  (retryFailed answering (lit "key") [scan_jpg; scan_png]
     [done_scan scan_jpg (lit "A"); unread_scan]).2 !! 0%nat =
    Some (done_scan scan_jpg (lit "A")) /\
  ocr_requests
    (retryFailed answering (lit "key") [scan_jpg; scan_png]
       [done_scan scan_jpg (lit "A"); unread_scan]).1 = [1%nat].
Proof.
  pose proof (retryFailed_frame answering (lit "key") [scan_jpg; scan_png]
                [done_scan scan_jpg (lit "A"); unread_scan]) as H.
  cbv zeta in H. destruct H as (_ & _ & _ & Hframe & _).
  split.
  - apply (Hframe 0%nat (done_scan scan_jpg (lit "A")));
      [reflexivity | discriminate].
  - reflexivity.
Defined.

(** C6, as stated, fails: a failed file whose read fails again is not sent
    to the OCR API. *)
Lemma retryFailed_unreadable_not_sent :
  status_at 0 [unread_scan] = Some failed /\
  reads (retryFailed unreadable (lit "key") [scan_png] [unread_scan]).1 =
    [0%nat] /\
  ocr_requests
    (retryFailed unreadable (lit "key") [scan_png] [unread_scan]).1 = [].
Proof. repeat split. Qed.

(** X12: [retryFailed] records for every failed file the answer to a new read of
    [files[k]] and a new request: on data the status becomes success, the
    text and the token count are set and the old error is cleared; on an
    error, or when the file cannot be read or is missing from [files], the
    status is failed again, with the new message. *)
Theorem retryFailed_records (env : Env) (apiKey : jsstring)
    (files : list DC.File) (results : list FileResult) (k : nat)
    (r : FileResult) :
  results !! k = Some r -> status r = failed ->
  let final := (retryFailed env apiKey files results).2 in
  let again msg :=
    {| filename := filename r; file := file r; status := failed;
       extractedText := extractedText r; error := Some msg;
       tokensUsed := tokensUsed r |} in
  (files !! k = None ->
     final !! k = Some (again (message_of (undefined_file env)))) /\
  (forall f,
     files !! k = Some f ->
     (reader env k f = DC.reader_error ->
        final !! k = Some (again (lit "Failed to read file"))) /\
     (forall url result,
        reader env k f = DC.reader_load url ->
        DC.extractText (fetch env k) (template (DC.split_comma_1 url)) apiKey
          (DC.file_type f) = Return result ->
        (forall d,
           DC.data result = Some d -> DC.error result = None ->
           final !! k =
             Some {| filename := filename r; file := file r;
                     status := success;
                     extractedText := Some (DC.text d); error := None;
                     tokensUsed := Some (DC.tokensUsed d) |}) /\
        (forall e,
           DC.error result = Some e ->
           final !! k = Some (again (DC.message e))))).
Proof.
  intros Hk Hs. cbv zeta. rewrite retryFailed_final, Hk.
  cbn [fmap option_fmap option_map].
  destruct (decide (status r = failed)) as [_|?]; [|contradiction].
  unfold verdict, recorded. split.
  - intros ->. reflexivity.
  - intros f ->. split.
    + intros ->. reflexivity.
    + intros url result -> Hres. cbn [DC.fileToBase64 bind]. rewrite Hres.
      split.
      * intros d -> ->. reflexivity.
      * intros e ->. reflexivity.
Qed.

Lemma retryFailed_records_witness :
  (retryFailed answering (lit "key") [scan_jpg; scan_png]
     [done_scan scan_jpg (lit "A"); unread_scan]).2 !! 1%nat =
    Some {| filename := lit "scan.png"; file := scan_png; status := success;
            extractedText := Some (lit "ok"); error := None;
            tokensUsed := Some 7%Z |}.
Proof.
  destruct (retryFailed_records answering (lit "key") [scan_jpg; scan_png]
              [done_scan scan_jpg (lit "A"); unread_scan] 1 unread_scan
              eq_refl eq_refl) as [_ H].
  destruct (H scan_png eq_refl) as [_ H1].
  destruct (H1 _ _ eq_refl eq_refl) as [Hd _].
  exact (Hd _ eq_refl eq_refl).
Defined.

Lemma filter_length_mono {A} (P Q : A -> Prop)
    `{!forall x, Decision (P x)} `{!forall x, Decision (Q x)}
    (l1 l2 : list A) :
  Forall2 (fun a b => P a -> Q b) l1 l2 ->
  (length (filter P l1) <= length (filter Q l2))%nat.
Proof.
  induction 1 as [|a b l1 l2 Hab _ IH]; [reflexivity|].
  rewrite !filter_cons.
  destruct (decide (P a)) as [Ha|_]; destruct (decide (Q b)) as [Hb|Hb];
    cbn [length]; try lia.
  exfalso. now apply Hb, Hab.
Qed.

(** X13: A retry on a batch in which every file has succeeded or failed keeps it
    so: no result is lost, every file that had succeeded still has, so the
    count of successes does not go down, and the two counts still add up to
    the number of results. *)
Theorem retryFailed_completes (env : Env) (apiKey : jsstring)
    (files : list DC.File) (results : list FileResult) :
  Forall settled results ->
  let final := (retryFailed env apiKey files results).2 in
  length final = length results /\
  Forall settled final /\
  allComplete final = true /\
  (forall k r, results !! k = Some r -> status r = success ->
     final !! k = Some r) /\
  (successCount results <= successCount final)%nat /\
  (errorCount final <= errorCount results)%nat /\
  (successCount final + errorCount final = length results)%nat.
Proof.
  intros Hall. cbv zeta.
  set (final := (retryFailed env apiKey files results).2).
  assert (Hfinal : forall k, final !! k =
            (fun r => if decide (status r = failed)
                      then recorded (verdict env apiKey k (files !! k))
                             (mark_retrying r)
                      else r) <$> results !! k)
    by (intros k; apply retryFailed_final).
  assert (Hlen : length final = length results).
  { destruct (Nat.lt_trichotomy (length final) (length results))
      as [Hlt|[Heq|Hgt]]; [exfalso|exact Heq|exfalso].
    - apply lookup_lt_is_Some in Hlt as [r Hr].
      pose proof (Hfinal (length final)) as H. rewrite Hr in H.
      rewrite (lookup_ge_None_2 final) in H by lia. discriminate.
    - apply lookup_lt_is_Some in Hgt as [r Hr].
      pose proof (Hfinal (length results)) as H. rewrite Hr in H.
      rewrite (lookup_ge_None_2 results) in H by lia. discriminate. }
  assert (Hsettled : Forall settled final).
  { apply Forall_lookup. intros k r' Hk. rewrite Hfinal in Hk.
    destruct (results !! k) as [r|] eqn:Hr; [|discriminate].
    injection Hk as <-.
    destruct (decide (status r = failed)); [apply recorded_settled|].
    exact (proj1 (Forall_lookup _ _) Hall k r Hr). }
  destruct (settled_complete _ Hsettled) as [Hcomplete Hcount].
  destruct (settled_complete _ Hall) as [_ Hcount0].
  assert (Hkeep : forall k r, results !! k = Some r -> status r = success ->
                    final !! k = Some r).
  { intros k r Hr Hs. rewrite Hfinal, Hr. cbn.
    destruct (decide (status r = failed)); [congruence | reflexivity]. }
  assert (Hmono : (successCount results <= successCount final)%nat).
  { apply filter_length_mono, Forall2_same_length_lookup.
    split; [now symmetry|]. intros k r r' Hr Hr' Hs.
    rewrite (Hkeep k r Hr Hs) in Hr'. congruence. }
  repeat split; try assumption; lia.
Qed.

Lemma retryFailed_completes_witness :
  successCount [done_scan scan_jpg (lit "A"); unread_scan] = 1%nat /\
  successCount
    (retryFailed answering (lit "key") [scan_jpg; scan_png]
       [done_scan scan_jpg (lit "A"); unread_scan]).2 = 2%nat /\
  allComplete
    (retryFailed answering (lit "key") [scan_jpg; scan_png]
       [done_scan scan_jpg (lit "A"); unread_scan]).2 = true.
Proof.
  assert (Hall : Forall settled [done_scan scan_jpg (lit "A"); unread_scan]).
  { constructor; [left; cbn; eauto|].
    constructor; [right; cbn; eauto | constructor]. }
  destruct (retryFailed_completes answering (lit "key") [scan_jpg; scan_png]
              [done_scan scan_jpg (lit "A"); unread_scan] Hall)
    as (_ & _ & Hcomplete & _).
  split; [reflexivity|]. split; [reflexivity | exact Hcomplete].
Defined.

Lemma retry_file_schedule (env : Env) (apiKey : jsstring) (i : nat)
    (file : option DC.File) (rs : list FileResult) :
  schedule (retry_file env apiKey i file rs).1 = [inl i].
Proof.
  unfold retry_file. destruct file as [file|]; [|reflexivity].
  destruct (DC.fileToBase64 _); [reflexivity|].
  now destruct (DC.extractText _ _ _ _).
Qed.

Lemma retryFailed_loop_schedule (env : Env) (apiKey : jsstring)
    (files : list DC.File) :
  forall (indices : list nat) (rs : list FileResult),
    schedule (retryFailed_loop env apiKey files (Z.of_nat <$> indices) rs).1 =
      retry_schedule indices.
Proof.
  induction indices as [|i indices IH]; intros rs; [reflexivity|].
  cbn [fmap list_fmap retryFailed_loop]. rewrite Nat2Z.id.
  pose proof (retry_file_schedule env apiKey i (files !! i)
                (update i mark_retrying rs)) as Hs.
  destruct (retry_file env apiKey i (files !! i) _) as [evs rs2].
  change (list_fmap nat Z Z.of_nat indices) with (Z.of_nat <$> indices).
  specialize (IH rs2).
  destruct (retryFailed_loop env apiKey files _ rs2) as [tr final].
  cbn [fst] in *.
  change (SetCurrentIndex i :: SetResults (update i mark_retrying rs) ::
          evs ++ SetResults rs2 :: Delay 500 :: tr)
    with ([SetCurrentIndex i; SetResults (update i mark_retrying rs)] ++
          evs ++ [SetResults rs2; Delay 500] ++ tr).
  rewrite !schedule_app, Hs, IH. reflexivity.
Qed.

Lemma failed_from_length (rs : list FileResult) (o : nat) :
  length (failed_from o rs) = errorCount rs.
Proof.
  unfold errorCount. revert o.
  induction rs as [|r rs IH]; intros o; [reflexivity|].
  cbn [failed_from]. rewrite filter_cons.
  destruct (decide (status r = failed)); cbn [length]; now rewrite IH.
Qed.

Lemma retry_schedule_last (indices : list nat) :
  indices <> [] -> last (retry_schedule indices) = Some (inr 500).
Proof.
  induction indices as [|i [|j indices] IH]; intros Hne;
    [congruence | reflexivity |].
  change (retry_schedule (i :: j :: indices))
    with (inl i :: inr 500 :: retry_schedule (j :: indices)).
  rewrite !last_cons, IH by discriminate. reflexivity.
Qed.

(** X14: [retryFailed] reads the failed files in ascending order and pauses 500
    ms after each of them, the last one included: as many pauses as files
    retried, where [processFiles] pauses only between two files. *)
Theorem retryFailed_pauses (env : Env) (apiKey : jsstring)
    (files : list DC.File) (results : list FileResult) :
  let tr := (retryFailed env apiKey files results).1 in
  schedule tr = retry_schedule (failed_from 0 results) /\
  length (schedule tr) = (2 * errorCount results)%nat /\
  (forall j, (j < errorCount results)%nat ->
     exists i, schedule tr !! (2 * j)%nat = Some (inl i) /\
               schedule tr !! (2 * j + 1)%nat = Some (inr 500)) /\
  (forall ms, Delay ms ∈ tr -> ms = 500) /\
  last (schedule tr) =
    if Nat.eqb (errorCount results) 0 then None else Some (inr 500).
Proof.
  cbv zeta.
  assert (Hsched : schedule (retryFailed env apiKey files results).1 =
                   retry_schedule (failed_from 0 results)).
  { unfold retryFailed. rewrite failedIndices_failed_from, length_fmap.
    destruct (Nat.eqb_spec (length (failed_from 0 results)) 0) as [E|_].
    - apply length_zero_iff_nil in E. now rewrite E.
    - pose proof (retryFailed_loop_schedule env apiKey files
                    (failed_from 0 results) results) as H.
      destruct (retryFailed_loop env apiKey files _ results) as [tr final].
      cbn [fst] in *.
      change (SetIsProcessing true :: tr ++ ?l)
        with ([SetIsProcessing true] ++ tr ++ l).
      rewrite !schedule_app, H. cbn. now rewrite app_nil_r. }
  rewrite Hsched, <- (failed_from_length results 0).
  assert (Hshape : forall indices : list nat,
            length (retry_schedule indices) = (2 * length indices)%nat /\
            forall j, (j < length indices)%nat ->
              exists i, retry_schedule indices !! (2 * j)%nat = Some (inl i) /\
                        retry_schedule indices !! (2 * j + 1)%nat =
                          Some (inr 500)).
  { induction indices as [|i indices [IH1 IH2]];
      [split; [reflexivity | cbn; lia]|].
    change (retry_schedule (i :: indices))
      with (inl i :: inr 500 :: retry_schedule indices).
    split; [cbn [length]; lia|].
    intros [|j] Hj; [exists i; split; reflexivity|].
    cbn [length] in Hj. destruct (IH2 j ltac:(lia)) as (i' & H0 & H1).
    exists i'.
    replace (2 * S j)%nat with (S (S (2 * j))) by lia.
    replace (S (S (2 * j)) + 1)%nat with (S (S (2 * j + 1))) by lia.
    split; assumption. }
  destruct (Hshape (failed_from 0 results)) as [Hlen Hat].
  split; [reflexivity|]. split; [exact Hlen|]. split; [exact Hat|]. split.
  - intros ms Hin.
    assert (Hs : inr ms ∈ schedule (retryFailed env apiKey files results).1).
    { apply list_elem_of_omap. exists (Delay ms). split; [exact Hin | reflexivity]. }
    rewrite Hsched in Hs. unfold retry_schedule in Hs.
    apply list_elem_of_In, in_flat_map in Hs as (i & _ & Hi).
    destruct Hi as [Hi|[Hi|[]]]; congruence.
  - destruct (failed_from 0 results) as [|i l] eqn:E; [reflexivity|].
    cbn [length Nat.eqb]. now apply retry_schedule_last.
Qed.

(** *** The requests and the progress display *)

Ltac in_events H :=
  repeat (apply elem_of_cons in H as [H|H];
          [first [discriminate H | injection H as H; try exact H]|]);
  try (now apply elem_of_nil in H).

Lemma process_file_request (env : Env) (apiKey : jsstring) (i : nat)
    (file : DC.File) (rs : list FileResult) (j : nat)
    (request : DC.ChatRequest) :
  OcrRequest j request ∈ (process_file env apiKey i file rs).1 ->
  j = i /\
  exists url,
    reader env i file = DC.reader_load url /\
    request = DC.chat_request (template (DC.split_comma_1 url)) apiKey
                (DC.file_type file) DC.document.
Proof.
  unfold process_file.
  destruct (reader env i file) as [|url]; cbn [DC.fileToBase64 fst].
  { intros H. in_events H. }
  destruct (DC.extractText _ _ _ _) as [e|result]; cbn [fst];
    [|destruct (DC.error result), (DC.data result)];
    intros H;
    (apply elem_of_cons in H as [H|H]; [discriminate|]);
    (apply elem_of_cons in H as [H|H];
     [injection H as -> ->; split; [reflexivity|]; now exists url|]);
    in_events H.
Qed.

Lemma retry_file_request (env : Env) (apiKey : jsstring) (i : nat)
    (file : option DC.File) (rs : list FileResult) (j : nat)
    (request : DC.ChatRequest) :
  OcrRequest j request ∈ (retry_file env apiKey i file rs).1 ->
  j = i /\
  exists f url,
    file = Some f /\ reader env i f = DC.reader_load url /\
    request = DC.chat_request (template (DC.split_comma_1 url)) apiKey
                (DC.file_type f) DC.document.
Proof.
  unfold retry_file. destruct file as [f|]; [|intros H; in_events H].
  destruct (reader env i f) as [|url] eqn:Hreader; cbn [DC.fileToBase64 fst].
  { intros H. in_events H. }
  destruct (DC.extractText _ _ _ _) as [e|result]; cbn [fst];
    intros H;
    (apply elem_of_cons in H as [H|H]; [discriminate|]);
    (apply elem_of_cons in H as [H|H];
     [injection H as -> ->; split; [reflexivity|]; now exists f, url|]);
    in_events H.
Qed.

Lemma processFiles_loop_request (env : Env) (apiKey : jsstring) (n : nat) :
  forall (rest : list DC.File) (i : nat) (rs : list FileResult) (j : nat)
         (request : DC.ChatRequest),
    OcrRequest j request ∈ (processFiles_loop env apiKey n i rest rs).1 ->
    exists file url,
      rest !! (j - i)%nat = Some file /\ (i <= j)%nat /\
      reader env j file = DC.reader_load url /\
      request = DC.chat_request (template (DC.split_comma_1 url)) apiKey
                  (DC.file_type file) DC.document.
Proof.
  induction rest as [|file rest IH]; intros i rs j request.
  { intros H. now apply elem_of_nil in H. }
  cbn [processFiles_loop].
  pose proof (process_file_request env apiKey i file
                (update i mark_processing rs) j request) as Hone.
  destruct (process_file env apiKey i file _) as [evs rs2].
  specialize (IH (S i) rs2 j request).
  destruct (processFiles_loop env apiKey n (S i) rest rs2) as [tr final].
  cbn [fst] in *. intros H.
  apply elem_of_cons in H as [H|H]; [discriminate|].
  apply elem_of_cons in H as [H|H]; [discriminate|].
  apply elem_of_app in H as [H|H].
  - destruct (Hone H) as (-> & url & Hurl & ->).
    exists file, url. rewrite Nat.sub_diag. repeat split; try assumption; lia.
  - apply elem_of_cons in H as [H|H]; [discriminate|].
    apply elem_of_app in H as [H|H].
    + destruct (i <? n - 1)%nat; in_events H.
    + destruct (IH H) as (f & url & Hf & Hle & Hurl & ->).
      exists f, url. replace (j - i)%nat with (S (j - S i)) by lia.
      repeat split; try assumption; lia.
Qed.

Lemma retryFailed_loop_request (env : Env) (apiKey : jsstring)
    (files : list DC.File) :
  forall (indices : list nat) (rs : list FileResult) (j : nat)
         (request : DC.ChatRequest),
    OcrRequest j request ∈
      (retryFailed_loop env apiKey files (Z.of_nat <$> indices) rs).1 ->
    j ∈ indices /\
    exists file url,
      files !! j = Some file /\ reader env j file = DC.reader_load url /\
      request = DC.chat_request (template (DC.split_comma_1 url)) apiKey
                  (DC.file_type file) DC.document.
Proof.
  induction indices as [|i indices IH]; intros rs j request.
  { intros H. now apply elem_of_nil in H. }
  cbn [fmap list_fmap retryFailed_loop]. rewrite Nat2Z.id.
  pose proof (retry_file_request env apiKey i (files !! i)
                (update i mark_retrying rs) j request) as Hone.
  destruct (retry_file env apiKey i (files !! i) _) as [evs rs2].
  change (list_fmap nat Z Z.of_nat indices) with (Z.of_nat <$> indices).
  specialize (IH rs2 j request).
  destruct (retryFailed_loop env apiKey files _ rs2) as [tr final].
  cbn [fst] in *. intros H.
  apply elem_of_cons in H as [H|H]; [discriminate|].
  apply elem_of_cons in H as [H|H]; [discriminate|].
  apply elem_of_app in H as [H|H].
  - destruct (Hone H) as (-> & f & url & Hf & Hurl & ->).
    split; [left|]. now exists f, url.
  - apply elem_of_cons in H as [H|H]; [discriminate|].
    apply elem_of_cons in H as [H|H]; [discriminate|].
    destruct (IH H) as (Hin & Hrest). split; [now right | exact Hrest].
Qed.

Lemma processFiles_request (env : Env) (apiKey : jsstring)
    (files : list DC.File) (results : list FileResult) (j : nat)
    (request : DC.ChatRequest) :
  OcrRequest j request ∈ (processFiles env apiKey files results).1 ->
  exists file url,
    files !! j = Some file /\ reader env j file = DC.reader_load url /\
    request = DC.chat_request (template (DC.split_comma_1 url)) apiKey
                (DC.file_type file) DC.document.
Proof.
  unfold processFiles.
  pose proof (processFiles_loop_request env apiKey (length files) files 0
                results j request) as Hloop.
  destruct (processFiles_loop _ _ _ _ _ _) as [tr final]. cbn [fst] in *.
  intros H. apply elem_of_cons in H as [H|H]; [discriminate|].
  apply elem_of_app in H as [H|H];
    [|destruct (Nat.eqb _ _); in_events H].
  destruct (Hloop H) as (file & url & Hf & _ & Hurl & ->).
  rewrite Nat.sub_0_r in Hf. now exists file, url.
Qed.

Lemma retryFailed_request (env : Env) (apiKey : jsstring)
    (files : list DC.File) (results : list FileResult) (j : nat)
    (request : DC.ChatRequest) :
  OcrRequest j request ∈ (retryFailed env apiKey files results).1 ->
  exists file url,
    files !! j = Some file /\ reader env j file = DC.reader_load url /\
    request = DC.chat_request (template (DC.split_comma_1 url)) apiKey
                (DC.file_type file) DC.document.
Proof.
  unfold retryFailed. rewrite failedIndices_failed_from, length_fmap.
  destruct (Nat.eqb (length (failed_from 0 results)) 0).
  { cbn [fst]. intros H. in_events H. }
  pose proof (retryFailed_loop_request env apiKey files
                (failed_from 0 results) results j request) as Hloop.
  destruct (retryFailed_loop env apiKey files _ results) as [tr final].
  cbn [fst] in *.
  intros H. apply elem_of_cons in H as [H|H]; [discriminate|].
  apply elem_of_app in H as [H|H]; [|in_events H].
  now destruct (Hloop H) as (_ & Hrest).
Qed.

(** X15: Every request that [processFiles] or [retryFailed] sends for the index
    [j] is the one for [files[j]]: it carries the text after the first
    comma of what the reader delivered for that file, under the file's own
    type, with the document prompt, and the API key of the batch as bearer
    token. *)
Theorem batch_requests (env : Env) (apiKey : jsstring)
    (files : list DC.File) (results : list FileResult) (j : nat)
    (request : DC.ChatRequest) :
  OcrRequest j request ∈ (processFiles env apiKey files results).1 \/
  OcrRequest j request ∈ (retryFailed env apiKey files results).1 ->
  exists file url,
    files !! j = Some file /\ reader env j file = DC.reader_load url /\
    DC.req_authorization request = lit "Bearer " ++ apiKey /\
    DC.req_content request =
      [DC.image_url (lit "data:" ++ DC.file_type file ++ lit ";base64," ++
                     template (DC.split_comma_1 url));
       DC.text_part (lit "Convert the document to markdown.")] /\
    request = DC.chat_request (template (DC.split_comma_1 url)) apiKey
                (DC.file_type file) DC.document.
Proof.
  intros [H|H];
    [apply processFiles_request in H | apply retryFailed_request in H];
    destruct H as (file & url & Hf & Hurl & ->);
    exists file, url; repeat split; assumption.
Qed.

Lemma batch_requests_witness :
  exists file url,
    [scan_jpg; scan_png] !! 1%nat = Some file /\
    reader answering 1 file = DC.reader_load url /\
    DC.req_authorization
      (DC.chat_request (lit "QUJD") (lit "key") (lit "image/png")
         DC.document) = lit "Bearer key".
Proof.
  destruct (batch_requests answering (lit "key") [scan_jpg; scan_png]
              (initial_results [scan_jpg; scan_png]) 1
              (DC.chat_request (lit "QUJD") (lit "key") (lit "image/png")
                 DC.document))
    as (file & url & Hf & Hurl & Hauth & _).
  - left. vm_compute. do 11 right. left.
  - exists file, url. repeat split; assumption.
Defined.

Lemma process_file_quiet (env : Env) (apiKey : jsstring) (i : nat)
    (file : DC.File) (rs : list FileResult) :
  indices_shown (process_file env apiKey i file rs).1 = [] /\
  flags (process_file env apiKey i file rs).1 = [].
Proof.
  unfold process_file.
  destruct (DC.fileToBase64 _); [split; reflexivity|].
  destruct (DC.extractText _ _ _ _) as [e|result]; [split; reflexivity|].
  destruct (DC.error result), (DC.data result); split; reflexivity.
Qed.

Lemma retry_file_quiet (env : Env) (apiKey : jsstring) (i : nat)
    (file : option DC.File) (rs : list FileResult) :
  indices_shown (retry_file env apiKey i file rs).1 = [] /\
  flags (retry_file env apiKey i file rs).1 = [].
Proof.
  unfold retry_file. destruct file as [file|]; [|split; reflexivity].
  destruct (DC.fileToBase64 _); [split; reflexivity|].
  destruct (DC.extractText _ _ _ _) as [e|result]; split; reflexivity.
Qed.

Lemma processFiles_loop_progress (env : Env) (apiKey : jsstring) (n : nat) :
  forall (rest : list DC.File) (i : nat) (rs : list FileResult),
    indices_shown (processFiles_loop env apiKey n i rest rs).1 =
      seq i (length rest) /\
    flags (processFiles_loop env apiKey n i rest rs).1 = [].
Proof.
  induction rest as [|file rest IH]; intros i rs; [split; reflexivity|].
  cbn [processFiles_loop].
  destruct (process_file_quiet env apiKey i file
              (update i mark_processing rs)) as [Hi Hf].
  destruct (process_file env apiKey i file _) as [evs rs2].
  destruct (IH (S i) rs2) as [IHi IHf].
  destruct (processFiles_loop env apiKey n (S i) rest rs2) as [tr final].
  cbn [fst] in *.
  change (SetCurrentIndex i :: SetResults ?a :: evs ++ SetResults rs2 ::
          ?d ++ tr)
    with ([SetCurrentIndex i; SetResults a] ++ evs ++ [SetResults rs2] ++
          d ++ tr).
  unfold indices_shown, flags in *. rewrite !omap_app, Hi, Hf, IHi, IHf.
  destruct (i <? n - 1)%nat; split; reflexivity.
Qed.

Lemma retryFailed_loop_progress (env : Env) (apiKey : jsstring)
    (files : list DC.File) :
  forall (indices : list nat) (rs : list FileResult),
    indices_shown
      (retryFailed_loop env apiKey files (Z.of_nat <$> indices) rs).1 =
      indices /\
    flags (retryFailed_loop env apiKey files (Z.of_nat <$> indices) rs).1 = [].
Proof.
  induction indices as [|i indices IH]; intros rs; [split; reflexivity|].
  cbn [fmap list_fmap retryFailed_loop]. rewrite Nat2Z.id.
  destruct (retry_file_quiet env apiKey i (files !! i)
              (update i mark_retrying rs)) as [Hi Hf].
  destruct (retry_file env apiKey i (files !! i) _) as [evs rs2].
  change (list_fmap nat Z Z.of_nat indices) with (Z.of_nat <$> indices).
  destruct (IH rs2) as [IHi IHf].
  destruct (retryFailed_loop env apiKey files _ rs2) as [tr final].
  cbn [fst] in *.
  change (SetCurrentIndex i :: SetResults ?a :: evs ++ SetResults rs2 ::
          Delay 500 :: tr)
    with ([SetCurrentIndex i; SetResults a] ++ evs ++
          [SetResults rs2; Delay 500] ++ tr).
  unfold indices_shown, flags in *. rewrite !omap_app, Hi, Hf, IHi, IHf.
  split; reflexivity.
Qed.

(** X16: [processFiles] raises the processing flag once, at the start, and
    lowers it once, after the last file; in between it shows the indices 0
    to n-1 in order, each the index of a file, and n only once the flag is
    down.  [retryFailed] does the same with the indices of the failed
    results, each the index of a result, and touches neither flag nor index
    when no result has failed. *)
Theorem batch_progress (env : Env) (apiKey : jsstring)
    (files : list DC.File) (results : list FileResult) :
  let n := length files in
  (exists mid summary,
     (processFiles env apiKey files results).1 =
       SetIsProcessing true :: mid ++
       [SetIsProcessing false; SetCurrentIndex n; Toast summary.1 summary.2] /\
     flags mid = [] /\ indices_shown mid = seq 0 n) /\
  (errorCount results <> 0%nat ->
     exists mid,
       (retryFailed env apiKey files results).1 =
         SetIsProcessing true :: mid ++
         [SetIsProcessing false; Toast toast_success (lit "Retry completed")] /\
       flags mid = [] /\ indices_shown mid = failed_from 0 results /\
       Forall (fun i => (i < length results)%nat) (indices_shown mid)) /\
  (errorCount results = 0%nat ->
     flags (retryFailed env apiKey files results).1 = [] /\
     indices_shown (retryFailed env apiKey files results).1 = []).
Proof.
  cbv zeta. split; [|split].
  - unfold processFiles.
    destruct (processFiles_loop_progress env apiKey (length files) files 0
                results) as [Hi Hf].
    destruct (processFiles_loop _ _ _ _ _ _) as [tr final]. cbn [fst] in *.
    exists tr.
    destruct (Nat.eqb _ _);
      [exists (toast_success,
               lit "All " ++ show_N (N.of_nat (length files)) ++
               lit " files processed successfully!")
      |exists (toast_info,
               lit "Completed: " ++
               show_N (N.of_nat (length (successful final))) ++
               lit " succeeded, " ++
               show_N (N.of_nat (length files - length (successful final))) ++
               lit " failed")];
      repeat split; assumption.
  - intros Hne. unfold retryFailed.
    rewrite failedIndices_failed_from, length_fmap.
    rewrite <- (failed_from_length results 0) in Hne.
    destruct (Nat.eqb_spec (length (failed_from 0 results)) 0) as [E|_];
      [contradiction|].
    destruct (retryFailed_loop_progress env apiKey files
                (failed_from 0 results) results) as [Hi Hf].
    destruct (retryFailed_loop env apiKey files _ results) as [tr final].
    cbn [fst] in *. exists tr. repeat split; try assumption.
    rewrite Hi. apply Forall_forall. intros i Hin.
    apply (proj2 (failed_from_spec results 0)) in Hin as [_ Hin].
    rewrite Nat.sub_0_r in Hin. unfold status_at in Hin.
    destruct (results !! i) eqn:Hr; [|discriminate].
    now apply lookup_lt_Some in Hr.
  - intros Hzero. unfold retryFailed.
    rewrite failedIndices_failed_from, length_fmap.
    rewrite (failed_from_length results 0), Hzero. split; reflexivity.
Qed.

End BatchResults.

(** ** The archive of a batch *)

Section Archive.
Import BatchProcessor Observe Outcomes.

Lemma extension_here_spec (s : jsstring) :
  extension_here s = true <->
  exists ext, s = 0x2E :: ext /\ ext <> [] /\ 0x2E ∉ ext.
Proof.
  unfold extension_here. destruct s as [|c r].
  { split; [discriminate | intros (ext & ? & _); discriminate]. }
  rewrite !andb_true_iff, N.eqb_eq, negb_true_iff, Nat.eqb_neq,
    forallb_forall.
  split.
  - intros [[-> Hlen] Hall]. exists r. split; [reflexivity|]. split.
    + intros ->. now apply Hlen.
    + intros Hin. apply list_elem_of_In in Hin. apply Hall in Hin.
      now rewrite N.eqb_refl in Hin.
  - intros (ext & [= -> ->] & Hne & Hdot). split; [split|].
    + reflexivity.
    + now destruct ext.
    + intros d Hd. apply negb_true_iff, N.eqb_neq. intros ->.
      now apply Hdot, list_elem_of_In.
Qed.

Lemma extension_here_dotted (c : N) (s t : jsstring) :
  extension_here (c :: s ++ 0x2E :: t) = false.
Proof.
  apply not_true_is_false. intros H.
  apply extension_here_spec in H as (ext & [= -> <-] & _ & Hdot).
  apply Hdot, elem_of_app. right. left.
Qed.

Lemma replace_extension_stem (stem ext : jsstring) :
  ext <> [] -> 0x2E ∉ ext ->
  replace_extension (stem ++ 0x2E :: ext) = stem ++ lit ".txt".
Proof.
  intros Hne Hdot. induction stem as [|c stem IH].
  - cbn [app]. destruct ext as [|e ext]; [congruence|].
    cbn [replace_extension].
    now rewrite (proj2 (extension_here_spec (0x2E :: e :: ext)))
      by (exists (e :: ext); auto).
  - cbn [app replace_extension]. rewrite extension_here_dotted.
    now rewrite IH.
Qed.

Lemma replace_extension_cases (s : jsstring) :
  replace_extension s = s \/
  exists stem ext, s = stem ++ 0x2E :: ext /\ ext <> [] /\ 0x2E ∉ ext.
Proof.
  induction s as [|c s IH]; [now left|].
  destruct (extension_here (c :: s)) eqn:Hhere.
  - right. apply extension_here_spec in Hhere as (ext & -> & Hne & Hdot).
    now exists [], ext.
  - cbn [replace_extension]. rewrite Hhere.
    destruct IH as [->|(stem & ext & -> & Hne & Hdot)]; [now left|].
    right. now exists (c :: stem), ext.
Qed.

(** X17: [replace_extension] turns [stem.ext], for a non-empty [ext] without a
    dot, into [stem.txt], whatever dots [stem] holds; it leaves a name
    without a dot and a name that ends in a dot as they are; and it changes
    nothing when applied a second time. *)
Theorem replace_extension_spec :
  (forall stem ext,
     ext <> [] -> 0x2E ∉ ext ->
     replace_extension (stem ++ 0x2E :: ext) = stem ++ lit ".txt") /\
  (forall s, 0x2E ∉ s -> replace_extension s = s) /\
  (forall s, replace_extension (s ++ [0x2E]) = s ++ [0x2E]) /\
  (forall s, replace_extension (replace_extension s) = replace_extension s).
Proof.
  split; [exact replace_extension_stem|]. split; [|split].
  - intros s Hdot.
    destruct (replace_extension_cases s) as [H|(stem & ext & -> & _)];
      [exact H|].
    exfalso. apply Hdot, elem_of_app. right. left.
  - induction s as [|c s IH]; [reflexivity|].
    cbn [app replace_extension].
    assert (extension_here (c :: s ++ [0x2E]) = false) as ->
      by apply extension_here_dotted.
    now rewrite IH.
  - intros s.
    destruct (replace_extension_cases s) as [H|(stem & ext & -> & Hne & Hdot)];
      [now rewrite !H|].
    rewrite (replace_extension_stem stem ext Hne Hdot).
    apply (replace_extension_stem stem (lit "txt")); [discriminate|].
    intros Hin. unfold lit in Hin. cbn in Hin.
    repeat (apply elem_of_cons in Hin as [Hin|Hin]; [discriminate|]).
    now apply elem_of_nil in Hin.
Qed.

Lemma foldl_zip_file (rs : list FileResult) :
  forall zip : gmap jsstring jsstring,
    NoDup (entry_name <$> rs) ->
    (forall r, r ∈ rs -> zip !! entry_name r = None) ->
    size (foldl zip_file zip rs) = (size zip + length rs)%nat /\
    (forall r, r ∈ rs ->
       foldl zip_file zip rs !! entry_name r = Some (entry_text r)) /\
    (forall name, name ∉ entry_name <$> rs ->
       foldl zip_file zip rs !! name = zip !! name).
Proof.
  induction rs as [|r rs IH]; intros zip Hnd Hfresh.
  { cbn [foldl length]. split; [lia|]. split; [|reflexivity].
    intros r Hr. now apply elem_of_nil in Hr. }
  cbn [fmap list_fmap] in Hnd. apply NoDup_cons in Hnd as [Hr Hnd].
  cbn [foldl].
  destruct (IH (zip_file zip r) Hnd) as (Hsize & Hin & Hout).
  { intros r' Hr'. unfold zip_file. fold (entry_name r).
    rewrite lookup_insert_ne.
    - apply Hfresh. now right.
    - intros Heq. apply Hr. rewrite Heq.
      apply list_elem_of_fmap. now exists r'. }
  split; [|split].
  - rewrite Hsize. unfold zip_file. fold (entry_name r).
    rewrite map_size_insert_None by (apply Hfresh; left).
    cbn [length]. lia.
  - intros r' Hr'. apply elem_of_cons in Hr' as [->|Hr']; [|now apply Hin].
    rewrite Hout by exact Hr. unfold zip_file. fold (entry_name r).
    now rewrite lookup_insert_eq.
  - intros name Hname. rewrite Hout.
    + unfold zip_file. fold (entry_name r). rewrite lookup_insert_ne;
        [reflexivity|]. intros <-. apply Hname. left.
    + intros Hin'. apply Hname. now right.
Qed.

(** X18: When the names of the successful files stay pairwise distinct once
    their extensions are replaced, the archive that [handleDownloadZip]
    saves holds exactly one entry for each of them, with the file's text
    (empty when it has none), and nothing else; it is saved under
    [ocr-results-<date>.zip].  When the archive cannot be generated nothing
    is saved. *)
Theorem handleDownloadZip_distinct_names (today : jsstring)
    (results : list FileResult) :
  successful results <> [] ->
  NoDup (entry_name <$> successful results) ->
  (exists zip,
     handleDownloadZip today (Return tt) results =
       [SaveAs zip (lit "ocr-results-" ++ today ++ lit ".zip");
        Toast toast_success
          (lit "Downloaded " ++
           show_N (N.of_nat (length (successful results))) ++
           lit " files as ZIP")] /\
     size zip = length (successful results) /\
     (forall r, r ∈ results -> status r = success ->
        zip !! entry_name r = Some (entry_text r)) /\
     (forall name, is_Some (zip !! name) ->
        exists r, r ∈ results /\ status r = success /\
                  entry_name r = name)) /\
  (forall e,
     handleDownloadZip today (Throw e) results =
       [Toast toast_error (lit "Failed to generate ZIP file")]).
Proof.
  intros Hne Hnd. unfold handleDownloadZip.
  destruct (Nat.eqb_spec (length (successful results)) 0) as [E|_].
  { apply length_zero_iff_nil in E. contradiction. }
  split; [|reflexivity].
  destruct (foldl_zip_file (successful results) ∅ Hnd) as (Hsize & Hin & Hout).
  { intros r _. apply lookup_empty. }
  eexists. split; [reflexivity|]. split; [|split].
  - rewrite Hsize, map_size_empty. reflexivity.
  - intros r Hr Hs. apply Hin. unfold successful.
    now apply list_elem_of_filter.
  - intros name Hsome.
    destruct (decide (name ∈ entry_name <$> successful results)) as [Hn|Hn].
    + apply list_elem_of_fmap in Hn as (r & -> & Hr).
      unfold successful in Hr. apply list_elem_of_filter in Hr as [Hs Hr].
      now exists r.
    + rewrite (Hout name Hn), lookup_empty in Hsome.
      now destruct Hsome.
Qed.

Lemma handleDownloadZip_distinct_names_witness :
  exists zip,
    handleDownloadZip (lit "2025-01-01") (Return tt) two_pages =
      [SaveAs zip (lit "ocr-results-2025-01-01.zip");
       Toast toast_success (lit "Downloaded 2 files as ZIP")] /\
    size zip = 2%nat /\
    zip !! lit "scan.txt" = Some (lit "A") /\
    zip !! lit "page.txt" = Some (lit "B").
Proof.
  destruct (handleDownloadZip_distinct_names (lit "2025-01-01") two_pages)
    as [(zip & Hrun & Hsize & Hin & _) _].
  - discriminate.
  - apply (bool_decide_unpack _). vm_compute. exact I.
  - exists zip. split; [exact Hrun|]. split; [exact Hsize|]. split.
    + exact (Hin (done_scan scan_jpg (lit "A")) ltac:(left) eq_refl).
    + exact (Hin (done_scan page_png (lit "B")) ltac:(right; left) eq_refl).
Defined.

End Archive.

(** ** Requests and their answers *)

Section Requests.
Import DeepseekClient Observe Outcomes.

Lemma extractText_with_data (fetch : Fetch)
    (imageBase64 apiKey mimeType : jsstring) (promptType : OCRPromptType)
    (r : ExtractResult) (d : OCRResponse) :
  extractText_with fetch imageBase64 apiKey mimeType promptType = Return r ->
  (data r = Some d <->
   exists response body,
     fetch (chat_request imageBase64 apiKey mimeType promptType) =
       Responded response /\
     ok response = true /\ json response = Return (json_value body) /\
     d = {| text := or_str (choice_content body) [];
            tokensUsed := or_num (total_tokens body) 0 |}) /\
  (data r = Some d -> error r = None).
Proof.
  unfold extractText_with.
  destruct (fetch _) as [msg|e|response] eqn:Hfetch;
    cbn [await_fetch bind try_catch].
  1,2: intros [= <-]; split; [split; [discriminate
                                     |intros (? & ? & ? & _); discriminate]
                             |discriminate].
  destruct (ok response) eqn:Hok; cbn [negb].
  - destruct (json response) as [e|[msg|body]] eqn:Hbody;
      cbn [bind try_catch read_body]; intros [= <-].
    + split; [split; [discriminate
                     |intros (? & ? & [= <-] & _ & ? & _); congruence]
             |discriminate].
    + split; [split; [discriminate
                     |intros (? & ? & [= <-] & _ & ? & _); congruence]
             |discriminate].
    + split; [split|reflexivity].
      * intros [= <-]. now exists response, body.
      * intros (? & ? & [= <-] & _ & Hb & ->). rewrite Hbody in Hb.
        now injection Hb as <-.
  - destruct (handleErrorResponse_returns response) as [e ->].
    cbn [bind try_catch]. intros [= <-].
    split; [split; [discriminate
                   |intros (? & ? & [= <-] & ? & _); congruence]
           |discriminate].
Qed.

(** What [extractText] returns when [fetch] rejects, and for an answer in
    200..299 whose body is not JSON or is [null]. *)
Lemma extractText_with_thrown (fetch : Fetch)
    (imageBase64 apiKey mimeType : jsstring) (promptType : OCRPromptType)
    (e : thrown) :
  fetch (chat_request imageBase64 apiKey mimeType promptType) = Rejected e \/
  (exists response,
     fetch (chat_request imageBase64 apiKey mimeType promptType) =
       Responded response /\
     ok response = true /\
     (json response = Throw e \/
      exists msg, json response = Return (json_null msg) /\
                  e = ErrorObject (lit "TypeError") msg)) ->
  extractText_with fetch imageBase64 apiKey mimeType promptType =
    Return {| data := None; error := Some (handleException e) |}.
Proof.
  unfold extractText_with.
  intros [-> | (response & -> & Hok & [Hbody | (msg & Hbody & ->)])];
    cbn [await_fetch bind try_catch]; [reflexivity | |];
    rewrite Hok; cbn [negb]; now rewrite Hbody.
Qed.

(** X19: [extractText] returns data exactly when [fetch] delivers a response
    with a status in 200..299 whose body is a JSON value other than [null];
    the text is the content of the first choice, empty when it is missing,
    and the token count is the reported total, 0 when it is missing.  Data
    never comes with an error.  For the body [null] in such a response it
    returns the error made of the [TypeError] that reading it throws, and no
    data. *)
Theorem extractText_returns_data (fetch : Fetch)
    (imageBase64 apiKey mimeType : jsstring) (promptType : OCRPromptType)
    (d : OCRResponse) :
  let request := chat_request imageBase64 apiKey mimeType promptType in
  let result := extractText_with fetch imageBase64 apiKey mimeType promptType in
  ((exists r, result = Return r /\ data r = Some d) <->
   (exists response body,
      fetch request = Responded response /\ ok response = true /\
      json response = Return (json_value body) /\
      d = {| text := or_str (choice_content body) [];
             tokensUsed := or_num (total_tokens body) 0 |})) /\
  (forall r, result = Return r -> data r = Some d -> error r = None) /\
  (forall response body,
     fetch request = Responded response -> ok response = true ->
     json response = Return (json_value body) ->
     choice_content body = None -> total_tokens body = None ->
     result = Return {| data := Some {| text := []; tokensUsed := 0 |};
                        error := None |}) /\
  (forall response msg,
     fetch request = Responded response -> ok response = true ->
     json response = Return (json_null msg) ->
     result =
       Return {| data := None;
                 error := Some
                   {| type := if includes msg (lit "fetch")
                              then network else unknown;
                      message := if includes msg (lit "fetch")
                                 then lit "Network error. Please check your internet connection."
                                 else msg;
                      retryAfter := None |} |}).
Proof.
  cbv zeta.
  destruct (extractText_with_returns fetch imageBase64 apiKey mimeType
              promptType) as (r & Hr & _).
  destruct (extractText_with_data _ _ _ _ _ r d Hr) as [Hiff Hnone].
  split; [|split; [|split]].
  - rewrite <- Hiff. split.
    + intros (r' & Hr' & Hd). congruence.
    + intros Hd. now exists r.
  - intros r' Hr' Hd. rewrite Hr in Hr'. injection Hr' as <-. now apply Hnone.
  - intros response body Hfetch Hok Hbody Hc Ht.
    rewrite (extractText_with_answer _ _ _ _ _ _ _ Hfetch Hok Hbody).
    now rewrite Hc, Ht.
  - intros response msg Hfetch Hok Hbody.
    rewrite (extractText_with_thrown _ _ _ _ _
               (ErrorObject (lit "TypeError") msg))
      by (right; exists response; eauto 6).
    unfold handleException.
    destruct (decide (lit "TypeError" = lit "AbortError")) as [?|_];
      [discriminate|].
    now destruct (includes msg (lit "fetch")).
Qed.

(** X20: When [fetch] rejects, or delivers a response in 200..299 whose body
    is not JSON or is [null], [extractText] reports the thrown value: an
    error named [AbortError] as a timeout; any other error whose message
    contains "fetch" as a network error; any other error as unknown, with
    its own message; a value that is no error as unknown, with "An
    unexpected error occurred".  No retry delay is given. *)
Theorem extractText_reports_thrown (fetch : Fetch)
    (imageBase64 apiKey mimeType : jsstring) (promptType : OCRPromptType)
    (e : thrown) :
  let request := chat_request imageBase64 apiKey mimeType promptType in
  let result := extractText_with fetch imageBase64 apiKey mimeType promptType in
  fetch request = Rejected e \/
  (exists response,
     fetch request = Responded response /\ ok response = true /\
     (json response = Throw e \/
      exists msg, json response = Return (json_null msg) /\
                  e = ErrorObject (lit "TypeError") msg)) ->
  exists err,
    result = Return {| data := None; error := Some err |} /\
    retryAfter err = None /\
    (forall name msg,
       e = ErrorObject name msg ->
       (name = lit "AbortError" ->
          type err = timeout /\
          message err =
            lit "Request timed out. Try a smaller file or check your connection.") /\
       (name <> lit "AbortError" -> includes msg (lit "fetch") = true ->
          type err = network /\
          message err =
            lit "Network error. Please check your internet connection.") /\
       (name <> lit "AbortError" -> includes msg (lit "fetch") = false ->
          type err = unknown /\ message err = msg)) /\
    (e = NonError ->
       type err = unknown /\
       message err = lit "An unexpected error occurred").
Proof.
  cbv zeta. intros H. exists (handleException e). split.
  { now apply extractText_with_thrown. }
  unfold handleException. split.
  { destruct e as [name msg|]; [|reflexivity].
    destruct (decide (name = lit "AbortError")); [reflexivity|].
    now destruct (includes msg (lit "fetch")). }
  split.
  - intros name msg ->.
    destruct (decide (name = lit "AbortError")) as [Hn|Hn].
    + split; [intros _; split; reflexivity|].
      split; intros Hne; contradiction.
    + split; [intros ?; contradiction|].
      split; intros _ ->; split; reflexivity.
  - intros ->. split; reflexivity.
Qed.

Lemma extractText_reports_thrown_witness :
  extractText unreachable (lit "QUJD") (lit "key") (lit "image/png") =
    Return
      {| data := None;
         error := Some
           {| type := network;
              message :=
                lit "Network error. Please check your internet connection.";
              retryAfter := None |} |}.
Proof.
  destruct (extractText_reports_thrown unreachable (lit "QUJD") (lit "key")
              (lit "image/png") default_promptType
              (ErrorObject (lit "TypeError") (lit "Failed to fetch")))
    as (err & Hres & Hretry & Herr & _); [now left|].
  destruct (Herr _ _ eq_refl) as (_ & Hnet & _).
  destruct (Hnet ltac:(discriminate) eq_refl) as [Ht Hm].
  unfold extractText. rewrite Hres.
  destruct err as [t m r]. cbn [type message retryAfter] in *.
  now subst.
Defined.

Lemma b64_char_not_comma (i : N) : b64_char i <> 0x2C.
Proof.
  unfold b64_char.
  destruct (N.ltb_spec i 26); [|destruct (N.ltb_spec i 52);
    [|destruct (N.ltb_spec i 62); [|destruct (N.eqb_spec i 62)]]]; lia.
Qed.

Lemma btoa_no_comma (s encoded : jsstring) :
  btoa s = Return encoded -> 0x2C ∉ encoded.
Proof.
  unfold btoa. destruct (forallb _ s); [|discriminate].
  intros [= <-] Hin. apply elem_of_app in Hin as [Hin|Hin].
  - apply list_elem_of_In, in_map_iff in Hin as (i & Hi & _).
    now apply b64_char_not_comma in Hi.
  - unfold b64_padding in Hin. apply elem_of_replicate in Hin as [? _].
    discriminate.
Qed.

Lemma after_comma_app (prefix rest : jsstring) :
  0x2C ∉ prefix -> after_comma (prefix ++ 0x2C :: rest) = Some rest.
Proof.
  induction prefix as [|c prefix IH]; intros Hc; [reflexivity|].
  cbn [app after_comma].
  destruct (N.eqb_spec c 0x2C) as [->|_]; [exfalso; apply Hc; left|].
  apply IH. intros Hin. apply Hc. now right.
Qed.

Lemma until_comma_none (s : jsstring) : 0x2C ∉ s -> until_comma s = s.
Proof.
  induction s as [|c s IH]; intros Hc; [reflexivity|].
  cbn [until_comma].
  destruct (N.eqb_spec c 0x2C) as [->|_]; [exfalso; apply Hc; left|].
  f_equal. apply IH. intros Hin. apply Hc. now right.
Qed.

Lemma after_comma_none (s : jsstring) : 0x2C ∉ s -> after_comma s = None.
Proof.
  induction s as [|c s IH]; intros Hc; [reflexivity|].
  cbn [after_comma].
  destruct (N.eqb_spec c 0x2C) as [->|_]; [exfalso; apply Hc; left|].
  apply IH. intros Hin. apply Hc. now right.
Qed.

(** X21: From the data URL that the reader builds for a file with the bytes
    [content] and a type without a comma, [fileToBase64] returns the base64
    text of the content, which decodes to those bytes, and the image URL of
    the request built from it and from the same type is that data URL
    again.  From a result without a comma it returns [undefined]. *)
Theorem fileToBase64_data_url (mime content payload : jsstring) :
  0x2C ∉ mime ->
  btoa content = Return payload ->
  let url := lit "data:" ++ mime ++ lit ";base64," ++ payload in
  fileToBase64 (reader_load url) = Return (Some payload) /\
  atob payload = Return content /\
  (forall apiKey promptType,
     req_content
       (chat_request (template (Some payload)) apiKey mime promptType) =
       [image_url url; text_part (OCR_PROMPTS promptType)]) /\
  (forall s, 0x2C ∉ s -> fileToBase64 (reader_load s) = Return None).
Proof.
  intros Hmime Hbtoa. cbv zeta. split; [|split; [|split]].
  - cbn [fileToBase64]. f_equal. unfold split_comma_1.
    change (lit "data:" ++ mime ++ lit ";base64," ++ payload)
      with (lit "data:" ++ mime ++ lit ";base64" ++ 0x2C :: payload).
    rewrite !app_assoc, after_comma_app.
    + cbn [fmap option_fmap option_map].
      now rewrite (until_comma_none _ (btoa_no_comma _ _ Hbtoa)).
    + intros Hin. rewrite !elem_of_app in Hin.
      destruct Hin as [[Hin|Hin]|Hin]; [|contradiction|];
        unfold lit in Hin; cbn in Hin;
        repeat (apply elem_of_cons in Hin as [Hin|Hin]; [discriminate|]);
        now apply elem_of_nil in Hin.
  - now apply atob_btoa.
  - reflexivity.
  - intros s Hs. cbn [fileToBase64]. unfold split_comma_1.
    now rewrite (after_comma_none s Hs).
Qed.

Lemma fileToBase64_data_url_witness :
  fileToBase64 (reader_load (lit "data:image/png;base64,QUJD")) =
    Return (Some (lit "QUJD")) /\
  atob (lit "QUJD") = Return (lit "ABC").
Proof.
  destruct (fileToBase64_data_url (lit "image/png") (lit "ABC") (lit "QUJD"))
    as (Hread & Hback & _).
  - apply (bool_decide_unpack _). vm_compute. exact I.
  - reflexivity.
  - split; [exact Hread | exact Hback].
Defined.

End Requests.

(** ** The uploader *)

Section Uploader.
Import DeepseekClient OCRUploader.

Lemma validate_all_valid (fileArray : list File) :
  (validate_all fileArray).1 =
    filter (fun f => valid (validateFile f) = true) fileArray.
Proof.
  induction fileArray as [|file rest IH]; [reflexivity|].
  cbn [validate_all]. rewrite filter_cons.
  destruct (validate_all rest) as [validFiles errors]. cbn [fst] in IH.
  destruct (valid (validateFile file)) eqn:Hv.
  - destruct (decide (true = true)) as [_|?]; [|congruence].
    cbn [fst]. now f_equal.
  - destruct (decide (false = true)) as [?|_]; [congruence|].
    now destruct (validation_error (validateFile file)) as [[|c r]|].
Qed.

Lemma length_splice_keep {A} (start : Z) (a : list A) :
  Z.of_nat (length (splice_keep start a)) =
    if (start <? 0)%Z
    then Z.max (Z.min (Z.of_nat (length a) + start) (Z.of_nat (length a))) 0
    else Z.min start (Z.of_nat (length a)).
Proof.
  unfold splice_keep. destruct (Z.ltb_spec start 0); rewrite length_take; lia.
Qed.

(** The list after [handleFiles]. *)
Lemma handleFiles_files (maxFiles : Z) (files fileArray : list File) :
  let good := filter (fun f => valid (validateFile f) = true) fileArray in
  (handleFiles maxFiles files (Some fileArray)).2 =
    files ++
    (if (maxFiles <? Z.of_nat (length files + length good))%Z
     then splice_keep (maxFiles - Z.of_nat (length files)) good
     else good).
Proof.
  cbv zeta.
  set (good := filter (fun f => valid (validateFile f) = true) fileArray).
  unfold handleFiles.
  pose proof (validate_all_valid fileArray) as Hv. fold good in Hv.
  destruct (validate_all fileArray) as [validFiles0 errors].
  cbn [fst] in Hv. subst validFiles0.
  destruct (0 <? length _)%nat eqn:Hpos; cbn [snd]; [reflexivity|].
  apply Nat.ltb_ge in Hpos.
  assert (Hnil : (if (maxFiles <? Z.of_nat (length files + length good))%Z
                  then splice_keep (maxFiles - Z.of_nat (length files)) good
                  else good) = []).
  { apply length_zero_iff_nil. lia. }
  now rewrite Hnil, app_nil_r.
Qed.

Lemma filter_valid (fileArray : list File) :
  Forall (fun f => valid (validateFile f) = true)
    (filter (fun f => valid (validateFile f) = true) fileArray).
Proof.
  apply Forall_forall. intros f Hf.
  now apply list_elem_of_filter in Hf as [Hf _].
Qed.

(** X22: [handleFiles] appends to the list a prefix of the new files that pass
    [validateFile], in their order: all of them when the total stays within
    [maxFiles], and as many as bring the total to [maxFiles] when the list
    was within the limit before.  A list that is over the limit already
    still grows when more valid files come in than it is over by.  With no
    file list the call does nothing. *)
Theorem handleFiles_spec (maxFiles : Z) (files fileArray : list File) :
  let good := filter (fun f => valid (validateFile f) = true) fileArray in
  let files' := (handleFiles maxFiles files (Some fileArray)).2 in
  let total := Z.of_nat (length files + length good) in
  handleFiles maxFiles files None = ([], files) /\
  (exists n, files' = files ++ take n good) /\
  ((total <= maxFiles)%Z -> files' = files ++ good) /\
  ((Z.of_nat (length files) <= maxFiles < total)%Z ->
     files' = files ++ take (Z.to_nat maxFiles - length files) good /\
     Z.of_nat (length files') = maxFiles) /\
  ((maxFiles < Z.of_nat (length files))%Z ->
     Z.of_nat (length files') =
       Z.max (Z.of_nat (length files))
             (maxFiles + Z.of_nat (length good))).
Proof.
  cbv zeta. split; [reflexivity|].
  rewrite handleFiles_files.
  set (good := filter (fun f => valid (validateFile f) = true) fileArray).
  destruct (Z.ltb_spec maxFiles (Z.of_nat (length files + length good)))
    as [Hover|Hfit].
  - split; [unfold splice_keep; destruct (_ <? 0)%Z; eauto|].
    split; [lia|].
    split.
    { intros [Hle _]. unfold splice_keep.
      destruct (Z.ltb_spec (maxFiles - Z.of_nat (length files)) 0); [lia|].
      replace (Z.to_nat (maxFiles - Z.of_nat (length files)))
        with (Z.to_nat maxFiles - length files)%nat by lia.
      split; [reflexivity|]. rewrite length_app, length_take. lia. }
    intros Hlt. rewrite length_app, Nat2Z.inj_add, length_splice_keep.
    destruct (Z.ltb_spec (maxFiles - Z.of_nat (length files)) 0); lia.
  - split; [exists (length good); now rewrite firstn_all|].
    split; [reflexivity|]. split; [lia|].
    intros Hlt. lia.
Qed.

Lemma omap_imap_all {A} (g : nat -> A -> option A) (l : list A) :
  (forall i x, g i x = Some x) -> omap id (imap g l) = l.
Proof.
  revert g. induction l as [|x l IH]; intros g Hg; [reflexivity|].
  rewrite imap_cons, Hg. cbn [omap list_omap id].
  change (list_omap ?f ?l) with (omap f l).
  f_equal. apply IH. intros i y. apply Hg.
Qed.

Lemma removeFile_files (files : list File) :
  forall index,
    (removeFile index files).2 = take index files ++ drop (S index) files.
Proof.
  unfold removeFile. cbn [snd].
  induction files as [|f files IH]; intros index.
  { now destruct index. }
  rewrite imap_cons. destruct index as [|index].
  - destruct (decide (0 = 0)%nat) as [_|?]; [|congruence].
    cbn [omap list_omap take drop app].
    change (list_omap ?f ?l) with (omap f l).
    rewrite drop_0. apply omap_imap_all. intros i x. cbn [compose].
    now destruct (decide (S i = 0)%nat).
  - destruct (decide (0 = S index)%nat) as [?|_]; [congruence|].
    cbn [omap list_omap id take drop app].
    change (list_omap ?f ?l) with (omap f l).
    f_equal. rewrite <- IH. f_equal. apply imap_ext. intros i x _.
    cbn [compose].
    destruct (decide (S i = S index)), (decide (i = index));
      try lia; reflexivity.
Qed.

(** X23: [removeFile] drops the file at [index] and keeps the others in order;
    an index outside the list leaves it as it is.  Together with
    [handleFiles] it keeps a list of valid files of at most [maxFiles]
    entries so, from the empty list of the start on. *)
Theorem uploader_invariant (maxFiles : Z) (files : list File) :
  let inv (fs : list File) :=
    Forall (fun f => valid (validateFile f) = true) fs /\
    (Z.of_nat (length fs) <= maxFiles)%Z in
  (forall index,
     (removeFile index files).2 = take index files ++ drop (S index) files) /\
  (forall index, (length files <= index)%nat ->
     (removeFile index files).2 = files) /\
  ((0 <= maxFiles)%Z -> inv []) /\
  (inv files ->
     (forall newFiles, inv (handleFiles maxFiles files newFiles).2) /\
     (forall index, inv (removeFile index files).2)).
Proof.
  cbv zeta. split; [apply removeFile_files|]. split.
  { intros index Hout. rewrite removeFile_files.
    rewrite take_ge, drop_ge by lia. apply app_nil_r. }
  split; [intros Hmax; split; [constructor | cbn; lia]|].
  intros [Hall Hlen]. split.
  - intros [fileArray|]; [|split; assumption].
    rewrite handleFiles_files.
    pose proof (filter_valid fileArray) as Hgood.
    set (good := filter (fun f => valid (validateFile f) = true) fileArray)
      in *.
    split.
    + apply Forall_app. split; [exact Hall|].
      destruct (_ <? _)%Z; [|exact Hgood].
      unfold splice_keep. destruct (_ <? 0)%Z; now apply Forall_take.
    + rewrite length_app, Nat2Z.inj_add.
      destruct (Z.ltb_spec maxFiles (Z.of_nat (length files + length good)));
        [|lia].
      rewrite length_splice_keep.
      destruct (Z.ltb_spec (maxFiles - Z.of_nat (length files)) 0); lia.
  - intros index. rewrite removeFile_files. split.
    + apply Forall_app. split; [now apply Forall_take | now apply Forall_drop].
    + rewrite length_app, length_take, length_drop. lia.
Qed.

Lemma uploader_invariant_witness :
  (handleFiles default_maxFiles [] (Some [Observe.scan_jpg; Observe.scan_png])).2 =
    [Observe.scan_jpg; Observe.scan_png] /\
  (removeFile 0 [Observe.scan_jpg; Observe.scan_png]).2 = [Observe.scan_png] /\
  (Z.of_nat
     (length (handleFiles 1 [Observe.scan_png]
                (Some [Observe.scan_jpg])).2) <= 1)%Z.
Proof.
  split; [reflexivity|].
  destruct (uploader_invariant 1 [Observe.scan_png]) as (_ & _ & _ & Hinv).
  destruct (uploader_invariant default_maxFiles
              [Observe.scan_jpg; Observe.scan_png]) as (Hrm & _).
  split; [exact (Hrm 0%nat)|].
  destruct Hinv as [Hadd _].
  - split; [repeat constructor | cbn; lia].
  - exact (proj2 (Hadd (Some [Observe.scan_jpg]))).
Defined.

End Uploader.

(** ** The home page *)

Section Home.
Import Encryption ApiKeyService DeepseekClient HomePage Observe Outcomes.



End Home.

(** ** From the settings page to the request *)

Section EndToEnd.
Import Encryption ApiKeyService DeepseekClient Observe Outcomes.
Context {W : WebCrypto} {L : WebCryptoLaws W}.

(** X25: The key that the settings page saved is the key the OCR API is called
    with: after a successful save of a key of the accepted format, the home
    page, when its query is not refused, loads that key, and every request
    of [handleExtractText] for a single file, and of the batch processor
    started with it, carries it as bearer token. *)
Theorem saved_key_is_sent (iv : list byte) (sid : option jsstring)
    (userId key : jsstring) (b : Backend) :
  length iv = 12%nat ->
  SettingsPage.session_user sid = Some userId ->
  validateApiKeyFormat key = true ->
  success (saveApiKey iv userId key b).1 = true ->
  let b' := (SettingsPage.handleSaveApiKey iv sid key b).2 in
  failure b (length (received b')) = None ->
  let loaded := apiKey_after None (HomePage.loadApiKey sid b').1 in
  loaded = Some key /\
  (forall reader fetch file request,
     request ∈
       page_requests (HomePage.handleExtractText reader fetch loaded [file]) ->
     req_authorization request = lit "Bearer " ++ key) /\
  (forall env files results i request,
     BatchProcessor.OcrRequest i request ∈
       (BatchProcessor.processFiles env key files results).1 ->
     req_authorization request = lit "Bearer " ++ key).
Proof.
  intros Hiv Hsid Hok Hsaved. cbv zeta. intros Hquery.
  rewrite (handleSaveApiKey_backend iv sid userId key b Hsid Hok) in *.
  pose proof (getApiKey_after_saveApiKey iv userId key b Hiv Hok
                Hsaved Hquery) as Hget.
  destruct (trim_valid_key _ Hok) as [_ Hlen].
  assert (Hloaded :
    apiKey_after None
      (HomePage.loadApiKey sid (saveApiKey iv userId key b).2).1 = Some key).
  { unfold HomePage.loadApiKey. rewrite Hsid.
    destruct (getApiKey userId _) as [res b2]. cbn [fst] in *. subst res.
    cbn [get_error ApiKeyService.apiKey].
    destruct key as [|k key]; [cbn in Hlen; lia|]. reflexivity. }
  split; [exact Hloaded|]. split.
  - rewrite Hloaded. intros reader fetch file request.
    unfold HomePage.handleExtractText, HomePage.processSingleFile.
    destruct key as [|k key]; [cbn in Hlen; lia|]. cbn [HomePage.truthy].
    destruct reader as [|url]; cbn [fileToBase64].
    { intros Hin. now apply elem_of_nil in Hin. }
    destruct (extractText _ _ _ _) as [e|res].
    { intros Hin. apply list_elem_of_singleton in Hin as ->. reflexivity. }
    destruct (error res) as [e|], (data res) as [d|];
      try destruct (type e);
      intros Hin; apply list_elem_of_singleton in Hin as ->; reflexivity.
  - intros env files results i request Hin.
    apply processFiles_request in Hin as (file & url & _ & _ & ->).
    reflexivity.
Qed.

End EndToEnd.

Section EndToEndRuns.
Import Encryption ApiKeyService DeepseekClient Observe Outcomes.

Lemma saved_key_is_sent_witness :
  page_requests
    (HomePage.handleExtractText
       (reader_load (lit "data:image/png;base64,QUJD"))
       (BatchProcessor.fetch answering 0)
       (apiKey_after None
          (HomePage.loadApiKey (W := toy_crypto) (Some (lit "user-1"))
             (SettingsPage.handleSaveApiKey (W := toy_crypto) zero_iv
                (Some (lit "user-1")) (lit "sk-0123456789abcdefghij")
                empty_backend).2).1)
       [scan_png]) =
    [chat_request (lit "QUJD") (lit "sk-0123456789abcdefghij")
       (lit "image/png") document] /\
  req_authorization
    (chat_request (lit "QUJD") (lit "sk-0123456789abcdefghij")
       (lit "image/png") document) = lit "Bearer sk-0123456789abcdefghij".
Proof.
  destruct (saved_key_is_sent (W := toy_crypto) (L := toy_crypto_laws)
              zero_iv (Some (lit "user-1")) (lit "user-1")
              (lit "sk-0123456789abcdefghij") empty_backend)
    as (Hloaded & Hsingle & _); try (vm_compute; reflexivity).
  rewrite Hloaded. split; [reflexivity|].
  apply (Hsingle (reader_load (lit "data:image/png;base64,QUJD"))
           (BatchProcessor.fetch answering 0) scan_png).
  rewrite Hloaded. vm_compute. left.
Defined.

End EndToEndRuns.

(** ** Worked examples *)

Section Examples.
Import Encryption DeepseekClient BatchProcessor.

Example maskApiKey_example :
  maskApiKey (lit "sk-abcdefgh1234") =
    lit "sk-" ++ repeat_str [bullet] 12 ++ lit "1234".
Proof. reflexivity. Qed.

Example parseInt10_examples :
  parseInt10 (lit "  42abc") = Num 42 /\
  parseInt10 (lit "Wed, 21 Oct") = NaN /\
  parseInt10 (lit "-7") = Num (-7).
Proof. repeat split. Qed.

Example parseInt10_large_examples :
  parseInt10 (lit "9007199254740993") = Num 9007199254740992 /\
  parseInt10 (lit "-9007199254740995") = Num (-9007199254740996) /\
  show_number (parseInt10 (lit "1152921504606846976")) =
    lit "1152921504606847000" /\
  show_number (parseInt10 (lit "100000000000000000000000")) = lit "1e+23" /\
  show_number (parseInt10 (lit "123456789012345678901234567890")) =
    lit "1.2345678901234568e+29" /\
  show_number (round_double (10 ^ 400)) = lit "Infinity".
Proof. repeat split; vm_compute; reflexivity. Qed.

Example megabytes_toFixed1_example : megabytes_toFixed1 11010048 = lit "10.5".
Proof. reflexivity. Qed.

Example replace_extension_examples :
  replace_extension (lit "my.doc.pdf") = lit "my.doc.txt" /\
  replace_extension (lit "README") = lit "README" /\
  replace_extension (lit "a.") = lit "a." /\
  replace_extension (lit ".bashrc") = lit ".txt".
Proof. repeat split. Qed.

Example base64_examples :
  btoa (lit "hello") = Return (lit "aGVsbG8=") /\
  btoa (lit "hi") = Return (lit "aGk=") /\
  btoa (lit "h") = Return (lit "aA==") /\
  atob (lit "aGVsbG8=") = Return (lit "hello") /\
  atob (lit "aGVsbG8") = Return (lit "hello") /\
  atob (lit "aGVsb") = Throw InvalidCharacterError.
Proof. repeat split. Qed.

Example utf8_examples :
  map Byte.to_N
    (TextEncoder_encode [0x20AC; 0xD83D; 0xDE00; 0xD800; 0x41; 0xE9]) =
    [0xE2; 0x82; 0xAC; 0xF0; 0x9F; 0x98; 0x80; 0xEF; 0xBF; 0xBD; 0x41;
     0xC3; 0xA9] /\
  TextDecoder_decode
    (TextEncoder_encode [0x20AC; 0xD83D; 0xDE00; 0xD800; 0x41; 0xE9]) =
    [0x20AC; 0xD83D; 0xDE00; 0xFFFD; 0x41; 0xE9] /\
  TextDecoder_decode (TextEncoder_encode [0xFEFF; 0x41]) = [0x41].
Proof. repeat split. Qed.

End Examples.
